(** * Content acquisition pipeline of the XHS collection app

    A shallow embedding of the download manager
    (mobile/src/services/download-manager.ts), the file manager, the
    AI analysis service and the repositories they call, together with
    the properties of the pipeline specification checked against them.
    The share handler, the background task, the statement builders and
    column mappings of the schema, and the network monitor are embedded
    as well, with properties read off their code.

    Conventions of the model.
    - JavaScript numbers that carry fractions (progress values) are IEEE
      binary64 values, [PrimFloat.float]; counts, sizes, priorities and
      timestamps are integers ([nat] or [Z]).
    - SQLite tables are lists of rows in insertion order.  A row of a
      table whose primary key is produced by [generateId] is identified
      by its position in the table, which is fresh by construction (the
      PRIMARY KEY constraint); posts keep their textual id because the
      callers supply it.  A statement fails only where the model says
      so: an INSERT into posts that breaks PRIMARY KEY or UNIQUE, and a
      SELECT with OFFSET but without LIMIT.
    - [async] functions are run to completion; remote services, the file
      system and the clock are oracles collected in [World].
    - Exceptions are explicit: a computation returns [Ok] or [Throw].
    - The fields [published], [delivered] and [calls] of [AppState] are
      observation logs; the program never reads them. *)

From Stdlib Require Import List Ascii String ZArith Bool Lia PeanoNat.
From Stdlib Require Import PrimFloat Sorted DecimalString DecimalNat.
Import ListNotations.
Set Warnings "-inexact-float".

(** ** Results and the state-and-exception monad *)

Inductive Result (A : Type) : Type :=
| Ok (a : A)
| Throw (e : string).
Arguments Ok {A} a.
Arguments Throw {A} e.

Definition M (S A : Type) : Type := S -> Result A * S.

Definition ret {S A : Type} (a : A) : M S A := fun s => (Ok a, s).

Definition bind {S A B : Type} (m : M S A) (k : A -> M S B) : M S B :=
  fun s => match m s with
           | (Ok a, s') => k a s'
           | (Throw e, s') => (Throw e, s')
           end.

Definition throw {S A : Type} (e : string) : M S A := fun s => (Throw e, s).

(** [try { m } catch (e) { h e }] *)
Definition try_catch {S A : Type} (m : M S A) (h : string -> M S A) : M S A :=
  fun s => match m s with
           | (Ok a, s') => (Ok a, s')
           | (Throw e, s') => h e s'
           end.

Definition gets {S A : Type} (f : S -> A) : M S A := fun s => (Ok (f s), s).
Definition modify {S : Type} (f : S -> S) : M S unit := fun s => (Ok tt, f s).

(** Run a computation on the global state inside a scope that also has
    mutable local variables [L]. *)
Definition zoom {L S A : Type} (m : M S A) : M (L * S) A :=
  fun ls => match m (snd ls) with (r, s') => (r, (fst ls, s')) end.

Definition getLocal {L S : Type} : M (L * S) L := fun ls => (Ok (fst ls), ls).
Definition setLocal {L S : Type} (f : L -> L) : M (L * S) unit :=
  fun ls => (Ok tt, (f (fst ls), snd ls)).

Declare Scope monad_scope.
Delimit Scope monad_scope with monad.
Notation "x <- m ;; k" := (bind m (fun x => k))
  (at level 61, m at next level, right associativity) : monad_scope.
Notation "m ;; k" := (bind m (fun _ => k))
  (at level 61, right associativity) : monad_scope.

(** ** Data model (mobile/src/models) *)

Inductive PostDownloadStatus :=
| post_pending | post_downloading | post_completed | post_partial | post_failed.

Inductive MediaDownloadStatus :=
| media_pending | media_downloading | media_completed | media_failed
| media_skipped.

Inductive MediaType := image | video.

Inductive TaskStatus :=
| task_queued | task_crawling | task_downloading | task_analyzing
| task_completed | task_failed.

Module Post.
Record t := mk {
  id : string; url : string; urlHash : string; title : option string;
  downloadStatus : PostDownloadStatus; createdAt : Z; updatedAt : Z }.
End Post.

Module Content.
Record t := mk {
  postId : string; text : string; authorName : option string;
  authorId : option string; originalDate : option Z;
  viewCount : option Z; likeCount : option Z }.
End Content.

Module Media.
Record t := mk {
  postId : string; type : MediaType; remoteUrl : string;
  localPath : option string; fileSize : option Z;
  downloadStatus : MediaDownloadStatus; sortOrder : nat }.
End Media.

Module Group.
Record t := mk {
  name : string; description : option string; postCount : Z;
  createdAt : Z }.
End Group.

Module AIResult.
Record t := mk {
  postId : string; labels : list string; summary : string;
  groupId : option nat; contentType : option string;
  modelVersion : string; analyzedAt : Z }.
End AIResult.

Module DownloadTask.
Record t := mk {
  postId : string; status : TaskStatus; progress : float;
  retryCount : Z; errorMessage : option string;
  createdAt : Z; updatedAt : Z }.
End DownloadTask.

Definition MediaDownloadStatus_eqb (a b : MediaDownloadStatus) : bool :=
  match a, b with
  | media_pending, media_pending | media_downloading, media_downloading
  | media_completed, media_completed | media_failed, media_failed
  | media_skipped, media_skipped => true
  | _, _ => false
  end.

Definition PostDownloadStatus_eqb (a b : PostDownloadStatus) : bool :=
  match a, b with
  | post_pending, post_pending | post_downloading, post_downloading
  | post_completed, post_completed | post_partial, post_partial
  | post_failed, post_failed => true
  | _, _ => false
  end.

(** ** Remote services, file system and clock (the environment) *)

(** A crawled media reference, [{ type, url, fileSize? }]. *)
Record CrawledMedia := mkCrawledMedia {
  cm_type : MediaType; cm_url : string; cm_fileSize : option Z }.

(** [CrawledContent] of xhs-crawler.ts. *)
Record CrawledContent := mkCrawledContent {
  cc_title : string; cc_text : string; cc_authorName : option string;
  cc_authorId : option string; cc_originalDate : option Z;
  cc_viewCount : option Z; cc_likeCount : option Z;
  cc_media : list CrawledMedia }.

(** [AnalyzeRequest] and the [data] of [AnalyzeResponse] (api-client.ts). *)
Record AnalyzeRequest := mkAnalyzeRequest {
  ar_title : option string; ar_text : string; ar_mediaCount : nat }.

Record AnalyzeData := mkAnalyzeData {
  ad_labels : list string; ad_summary : string;
  ad_contentType : option string; ad_suggestedGroupId : option string;
  ad_suggestedGroupName : option string; ad_modelVersion : string }.

(** What a call of [xhsApi] does: it rejects with a message, or resolves
    with [{ success, data }]. *)
Inductive ApiOutcome (A : Type) : Type :=
| ApiThrows (message : string)
| ApiReturns (success : bool) (data : option A).
Arguments ApiThrows {A} message.
Arguments ApiReturns {A} success data.

(** What [FileSystem.createDownloadResumable(...).downloadAsync()] followed
    by [getInfoAsync] does for a url and a local path. *)
Inductive FsOutcome :=
| FsThrows (message : string)
| FsNoResult
| FsSaved (uri : string) (size : option Z).

(** A JavaScript number produced by [parseInt]. *)
Inductive jsnum := NaN | Num (z : Z).

Record World := mkWorld {
  (** [FileSystem.documentDirectory] *)
  documentDirectory : string;
  (** [xhsApi.crawl(url)] *)
  api_crawl : string -> ApiOutcome CrawledContent;
  (** [xhsApi.analyze(request)] *)
  api_analyze : AnalyzeRequest -> ApiOutcome AnalyzeData;
  (** the value of [checkRemoteFileSize(url)]: [None] when the HEAD request
      fails or has no content-length, otherwise the parsed header *)
  head_contentLength : string -> option jsnum;
  (** the transfer of a url to a local path *)
  fs_download : string -> string -> FsOutcome;
  (** [Date.now()] at the n-th reading *)
  clock : nat -> Z }.

(** ** Application state *)

(** A progress notification [(postId, progress, status)]. *)
Record Notification := mkNotification {
  n_postId : string; n_progress : float; n_status : PostDownloadStatus }.

(** A registered progress callback.  [onNotify] tells whether the callback
    returns ([None]) or throws ([Some message]) on a notification. *)
Record Listener := mkListener {
  listenerId : nat;
  onNotify : Notification -> option string }.

(** Calls that leave the device. *)
Inductive Call :=
| CallCrawl (url : string)
| CallHead (url : string)
| CallDownload (url localPath : string)
| CallAnalyze (request : AnalyzeRequest).

Record AppState := mkAppState {
  posts : list Post.t;
  contents : list Content.t;
  media : list Media.t;
  groups : list Group.t;
  aiResults : list AIResult.t;
  downloadTasks : list DownloadTask.t;
  (** [const progressListeners: Set<DownloadProgressCallback>], in
      insertion order *)
  progressListeners : list Listener;
  (** every call of [notifyProgress], in order *)
  published : list Notification;
  (** every invocation of a listener, in order *)
  delivered : list (nat * Notification);
  (** every remote call, in order *)
  calls : list Call;
  (** number of clock readings so far *)
  ticks : nat }.

Definition set_posts (v : list Post.t) (s : AppState) : AppState :=
  mkAppState v (contents s) (media s) (groups s) (aiResults s)
    (downloadTasks s) (progressListeners s) (published s) (delivered s)
    (calls s) (ticks s).
Definition set_contents (v : list Content.t) (s : AppState) : AppState :=
  mkAppState (posts s) v (media s) (groups s) (aiResults s)
    (downloadTasks s) (progressListeners s) (published s) (delivered s)
    (calls s) (ticks s).
Definition set_media (v : list Media.t) (s : AppState) : AppState :=
  mkAppState (posts s) (contents s) v (groups s) (aiResults s)
    (downloadTasks s) (progressListeners s) (published s) (delivered s)
    (calls s) (ticks s).
Definition set_groups (v : list Group.t) (s : AppState) : AppState :=
  mkAppState (posts s) (contents s) (media s) v (aiResults s)
    (downloadTasks s) (progressListeners s) (published s) (delivered s)
    (calls s) (ticks s).
Definition set_aiResults (v : list AIResult.t) (s : AppState) : AppState :=
  mkAppState (posts s) (contents s) (media s) (groups s) v
    (downloadTasks s) (progressListeners s) (published s) (delivered s)
    (calls s) (ticks s).
Definition set_progressListeners (v : list Listener) (s : AppState)
  : AppState :=
  mkAppState (posts s) (contents s) (media s) (groups s) (aiResults s)
    (downloadTasks s) v (published s) (delivered s) (calls s) (ticks s).
Definition set_published (v : list Notification) (s : AppState) : AppState :=
  mkAppState (posts s) (contents s) (media s) (groups s) (aiResults s)
    (downloadTasks s) (progressListeners s) v (delivered s) (calls s)
    (ticks s).
Definition set_delivered (v : list (nat * Notification)) (s : AppState)
  : AppState :=
  mkAppState (posts s) (contents s) (media s) (groups s) (aiResults s)
    (downloadTasks s) (progressListeners s) (published s) v (calls s)
    (ticks s).
Definition set_calls (v : list Call) (s : AppState) : AppState :=
  mkAppState (posts s) (contents s) (media s) (groups s) (aiResults s)
    (downloadTasks s) (progressListeners s) (published s) (delivered s) v
    (ticks s).
Definition set_ticks (v : nat) (s : AppState) : AppState :=
  mkAppState (posts s) (contents s) (media s) (groups s) (aiResults s)
    (downloadTasks s) (progressListeners s) (published s) (delivered s)
    (calls s) v.

Definition logCall (c : Call) : M AppState unit :=
  modify (fun s => set_calls (calls s ++ [c]) s).

(** ** Generic table helpers *)

(** First row satisfying [p], with its position ([getFirstAsync]). *)
Fixpoint find_row_from {A : Type} (p : A -> bool) (i : nat) (l : list A)
  : option (nat * A) :=
  match l with
  | [] => None
  | x :: l' => if p x then Some (i, x) else find_row_from p (S i) l'
  end.

Definition find_row {A : Type} (p : A -> bool) (l : list A)
  : option (nat * A) := find_row_from p 0 l.

(** [UPDATE ... WHERE id = n] on a table keyed by position. *)
Fixpoint update_nth {A : Type} (n : nat) (f : A -> A) (l : list A) : list A :=
  match l, n with
  | [], _ => []
  | x :: l', O => f x :: l'
  | x :: l', S n' => x :: update_nth n' f l'
  end.

(** Stable insertion sort: [x] is placed before the first element that is
    not at or before it.  [ORDER BY] and [Array.prototype.sort] are both
    rendered with it. *)
Fixpoint insert_sorted {A : Type} (leb : A -> A -> bool) (x : A) (l : list A)
  : list A :=
  match l with
  | [] => [x]
  | y :: l' => if leb x y then x :: y :: l' else y :: insert_sorted leb x l'
  end.

Definition stable_sort {A : Type} (leb : A -> A -> bool) (l : list A)
  : list A := fold_right (insert_sorted leb) [] l.

(** [LIMIT ? OFFSET ?] at the end of a SELECT, as SQLite evaluates it: a
    negative limit is no limit, a negative offset is 0, and OFFSET without
    LIMIT is not a statement ([None]). *)
Definition sql_limit {A : Type} (limit offset : option Z) (rows : list A)
  : option (list A) :=
  match limit, offset with
  | None, None => Some rows
  | None, Some _ => None
  | Some n, _ =>
      let rest :=
        skipn (Z.to_nat (match offset with Some m => m | None => 0%Z end))
          rows in
      Some (if (n <? 0)%Z then rest else firstn (Z.to_nat n) rest)
  end.

Section Pipeline.

Variable w : World.

Local Open Scope monad_scope.
Local Open Scope string_scope.

(** ** Repositories (mobile/src/db) *)

(** [getCurrentTimestamp] *)
Definition getCurrentTimestamp : M AppState Z :=
  fun s => (Ok (clock w (ticks s)), set_ticks (S (ticks s)) s).

(** *** post-repository.ts *)

Definition getPostById (id : string) : M AppState (option Post.t) :=
  gets (fun s => find (fun p => String.eqb (Post.id p) id) (posts s)).

Record UpdatePostInput := mkUpdatePostInput {
  upi_title : option string;
  upi_downloadStatus : option PostDownloadStatus }.

Definition applyUpdatePost (input : UpdatePostInput) (now : Z) (p : Post.t)
  : Post.t :=
  Post.mk (Post.id p) (Post.url p) (Post.urlHash p)
    (match upi_title input with Some t => Some t | None => Post.title p end)
    (match upi_downloadStatus input with
     | Some st => st
     | None => Post.downloadStatus p
     end)
    (Post.createdAt p) now.

Definition updatePost (id : string) (input : UpdatePostInput)
  : M AppState (option Post.t) :=
  now <- getCurrentTimestamp ;;
  modify (fun s =>
    set_posts
      (map (fun p => if String.eqb (Post.id p) id
                     then applyUpdatePost input now p else p) (posts s)) s) ;;
  getPostById id.

Definition updatePostStatus (id : string) (status : PostDownloadStatus)
  : M AppState (option Post.t) :=
  updatePost id (mkUpdatePostInput None (Some status)).

Record CreatePostInput := mkCreatePostInput {
  cpi_url : string; cpi_urlHash : string; cpi_title : option string }.

(** [createPost]; [newId] is the value [generateId()] returns in the call.
    The INSERT is rejected when the id (PRIMARY KEY) or the url hash
    (UNIQUE) is already in the table. *)
Definition createPost (newId : string) (input : CreatePostInput)
  : M AppState Post.t :=
  now <- getCurrentTimestamp ;;
  let post := Post.mk newId (cpi_url input) (cpi_urlHash input)
                (cpi_title input) post_pending now now in
  rows <- gets posts ;;
  if existsb (fun p => String.eqb (Post.id p) newId) rows
  then throw "UNIQUE constraint failed: posts.id"
  else if existsb (fun p => String.eqb (Post.urlHash p) (cpi_urlHash input))
            rows
  then throw "UNIQUE constraint failed: posts.url_hash"
  else modify (fun s => set_posts (posts s ++ [post]) s) ;; ret post.

Definition getPostByUrlHash (urlHash : string) : M AppState (option Post.t) :=
  gets (fun s => find (fun p => String.eqb (Post.urlHash p) urlHash) (posts s)).

Definition postExistsByUrlHash (urlHash : string) : M AppState bool :=
  post <- getPostByUrlHash urlHash ;;
  ret (match post with Some _ => true | None => false end).

Definition getPostCount : M AppState nat :=
  gets (fun s => List.length (posts s)).

Record GetAllPostsOptions := mkGetAllPostsOptions {
  gap_limit : option Z; gap_offset : option Z;
  gap_status : option PostDownloadStatus }.

(** A number that is not 0 is truthy. *)
Definition truthy_Z (o : option Z) : option Z :=
  match o with
  | Some 0%Z => None
  | other => other
  end.

(** [SELECT * FROM posts [WHERE download_status = ?]
     ORDER BY created_at DESC [LIMIT ?] [OFFSET ?]]: a clause is added
    when its option is truthy. *)
Definition getAllPosts (options : GetAllPostsOptions)
  : M AppState (list Post.t) :=
  rows <- gets (fun s =>
    stable_sort (fun a b => (Post.createdAt b <=? Post.createdAt a)%Z)
      (filter
         (fun p =>
            match gap_status options with
            | Some st => PostDownloadStatus_eqb (Post.downloadStatus p) st
            | None => true
            end) (posts s))) ;;
  match sql_limit (truthy_Z (gap_limit options))
          (truthy_Z (gap_offset options)) rows with
  | Some result => ret result
  | None => throw "near OFFSET: syntax error"
  end.

(** *** content-repository.ts *)

Definition getContentByPostId (postId : string)
  : M AppState (option Content.t) :=
  gets (fun s =>
    find (fun c => String.eqb (Content.postId c) postId) (contents s)).

Definition createContent (input : Content.t) : M AppState Content.t :=
  modify (fun s => set_contents (contents s ++ [input]) s) ;;
  ret input.

(** *** media-repository.ts *)

Record CreateMediaInput := mkCreateMediaInput {
  cmi_postId : string; cmi_type : MediaType; cmi_remoteUrl : string;
  cmi_sortOrder : nat; cmi_fileSize : option Z }.

Record UpdateMediaInput := mkUpdateMediaInput {
  umi_localPath : option string; umi_fileSize : option Z;
  umi_downloadStatus : option MediaDownloadStatus }.

(** A media record as the callers hold it: its id and its fields. *)
Definition MediaRecord : Type := nat * Media.t.

Definition createMedia (input : CreateMediaInput) : M AppState MediaRecord :=
  fun s =>
    let m := Media.mk (cmi_postId input) (cmi_type input)
               (cmi_remoteUrl input) None (cmi_fileSize input)
               media_pending (cmi_sortOrder input) in
    (Ok (List.length (media s), m), set_media (media s ++ [m]) s).

Fixpoint createMediaBatch (inputs : list CreateMediaInput)
  : M AppState (list MediaRecord) :=
  match inputs with
  | [] => ret []
  | input :: rest =>
      m <- createMedia input ;;
      ms <- createMediaBatch rest ;;
      ret (m :: ms)
  end.

Definition getMediaById (id : nat) : M AppState (option Media.t) :=
  gets (fun s => nth_error (media s) id).

Definition applyUpdateMedia (input : UpdateMediaInput) (m : Media.t)
  : Media.t :=
  Media.mk (Media.postId m) (Media.type m) (Media.remoteUrl m)
    (match umi_localPath input with
     | Some p => Some p | None => Media.localPath m end)
    (match umi_fileSize input with
     | Some z => Some z | None => Media.fileSize m end)
    (match umi_downloadStatus input with
     | Some st => st | None => Media.downloadStatus m end)
    (Media.sortOrder m).

Definition updateMedia (id : nat) (input : UpdateMediaInput)
  : M AppState (option Media.t) :=
  modify (fun s =>
    set_media (update_nth id (applyUpdateMedia input) (media s)) s) ;;
  getMediaById id.

(** JavaScript truthiness of an optional string and an optional number. *)
Definition truthy_string (o : option string) : option string :=
  match o with
  | Some EmptyString => None
  | other => other
  end.

Definition truthy_number (o : option Z) : option Z :=
  match o with
  | Some 0%Z => None
  | other => other
  end.

Definition updateMediaStatus (id : nat) (status : MediaDownloadStatus)
  (localPath : option string) (fileSize : option Z)
  : M AppState (option Media.t) :=
  updateMedia id
    (mkUpdateMediaInput (truthy_string localPath) (truthy_number fileSize)
       (Some status)).

(** [SELECT * FROM media WHERE post_id = ? ORDER BY sort_order ASC] *)
Definition getMediaByPostId (postId : string) : M AppState (list Media.t) :=
  gets (fun s =>
    stable_sort (fun a b => Nat.leb (Media.sortOrder a) (Media.sortOrder b))
      (filter (fun m => String.eqb (Media.postId m) postId) (media s))).

Definition getMediaCountByPostId (postId : string) : M AppState nat :=
  gets (fun s =>
    List.length
      (filter (fun m => String.eqb (Media.postId m) postId) (media s))).

(** *** group-repository.ts *)

Definition getGroupByName (name : string)
  : M AppState (option (nat * Group.t)) :=
  gets (fun s =>
    find_row (fun g => String.eqb (Group.name g) name) (groups s)).

Definition createGroup (name : string) (description : option string)
  : M AppState (nat * Group.t) :=
  now <- getCurrentTimestamp ;;
  fun s =>
    let g := Group.mk name description 0%Z now in
    (Ok (List.length (groups s), g), set_groups (groups s ++ [g]) s).

(** [UPDATE groups SET post_count = post_count + 1 WHERE id = ?] *)
Definition incrementGroupPostCount (id : nat) : M AppState unit :=
  modify (fun s =>
    set_groups
      (update_nth id
         (fun g => Group.mk (Group.name g) (Group.description g)
                     (Group.postCount g + 1)%Z (Group.createdAt g))
         (groups s)) s).

(** [UPDATE groups SET post_count = MAX(0, post_count - 1) WHERE id = ?] *)
Definition decrementGroupPostCount (id : nat) : M AppState unit :=
  modify (fun s =>
    set_groups
      (update_nth id
         (fun g => Group.mk (Group.name g) (Group.description g)
                     (Z.max 0 (Group.postCount g - 1)) (Group.createdAt g))
         (groups s)) s).

Definition getOrCreateGroup (name : string) : M AppState (nat * Group.t) :=
  existing <- getGroupByName name ;;
  match existing with
  | Some g => ret g
  | None => createGroup name None
  end.

(** *** ai-result-repository.ts *)

Definition getAIResultByPostId (postId : string)
  : M AppState (option AIResult.t) :=
  gets (fun s =>
    find (fun a => String.eqb (AIResult.postId a) postId) (aiResults s)).

Record CreateAIResultInput := mkCreateAIResultInput {
  cai_postId : string; cai_labels : list string; cai_summary : string;
  cai_groupId : option nat; cai_contentType : option string;
  cai_modelVersion : string }.

Definition createAIResult (input : CreateAIResultInput)
  : M AppState AIResult.t :=
  now <- getCurrentTimestamp ;;
  let a := AIResult.mk (cai_postId input) (cai_labels input)
             (cai_summary input) (cai_groupId input)
             (cai_contentType input) (cai_modelVersion input) now in
  modify (fun s => set_aiResults (aiResults s ++ [a]) s) ;;
  ret a.



(** ** Content source client (mobile/src/services/xhs-crawler.ts) *)

Record CrawlResult := mkCrawlResult {
  cr_success : bool;
  cr_content : option CrawledContent;
  cr_errorMessage : option string }.

(** [await xhsApi.crawl(url)] *)
Definition xhsApi_crawl (url : string)
  : M AppState (bool * option CrawledContent) :=
  logCall (CallCrawl url) ;;
  match api_crawl w url with
  | ApiThrows message => throw message
  | ApiReturns success data => ret (success, data)
  end.

Definition crawlPost (url : string) : M AppState CrawlResult :=
  try_catch
    (response <- xhsApi_crawl url ;;
     match response with
     | (true, Some data) => ret (mkCrawlResult true (Some data) None)
     | _ =>
         ret (mkCrawlResult false None
                (Some "Crawl failed: no data returned"))
     end)
    (fun message => ret (mkCrawlResult false None (Some message))).

(** ** File manager (mobile/src/utils/file-manager.ts) *)

Definition MAX_VIDEO_SIZE_BYTES : Z := (100 * 1024 * 1024)%Z.

Definition MEDIA_DIRECTORY : string := documentDirectory w ++ "media/".

Definition getMediaDirectory (type : MediaType) : string :=
  match type with
  | image => MEDIA_DIRECTORY ++ "images/"
  | video => MEDIA_DIRECTORY ++ "videos/"
  end.

Definition generateMediaFilename (postId : string) (index : nat)
  (type : MediaType) : string :=
  let ext := match type with image => "jpg" | video => "mp4" end in
  postId ++ "_" ++ NilZero.string_of_uint (Nat.to_uint index) ++ "." ++ ext.

Definition getMediaPath (postId : string) (index : nat) (type : MediaType)
  : string :=
  getMediaDirectory type ++ generateMediaFilename postId index type.

Definition checkRemoteFileSize (url : string) : M AppState (option jsnum) :=
  logCall (CallHead url) ;;
  ret (head_contentLength w url).

(** [size <= MAX_VIDEO_SIZE_BYTES]; a comparison with NaN is false. *)
Definition js_le_limit (size : jsnum) : bool :=
  match size with
  | NaN => false
  | Num z => (z <=? MAX_VIDEO_SIZE_BYTES)%Z
  end.

Definition isVideoWithinLimit (url : string) : M AppState bool :=
  size <- checkRemoteFileSize url ;;
  match size with
  | None => ret true
  | Some n => ret (js_le_limit n)
  end.

Record DownloadResult := mkDownloadResult {
  dr_success : bool; dr_localPath : option string;
  dr_fileSize : option Z; dr_errorMessage : option string }.

(** [await downloadResumable.downloadAsync()] and the size of the file
    it wrote. *)
Definition fs_downloadAsync (url localPath : string)
  : M AppState (option (string * option Z)) :=
  logCall (CallDownload url localPath) ;;
  match fs_download w url localPath with
  | FsThrows message => throw message
  | FsNoResult => ret None
  | FsSaved uri size => ret (Some (uri, size))
  end.

Definition downloadFile (url localPath : string) : M AppState DownloadResult :=
  try_catch
    (result <- fs_downloadAsync url localPath ;;
     match result with
     | None =>
         ret (mkDownloadResult false None None
                (Some "Download returned no result"))
     | Some (uri, fileSize) =>
         ret (mkDownloadResult true (Some uri) fileSize None)
     end)
    (fun message => ret (mkDownloadResult false None None (Some message))).

(** ** Progress broadcaster (download-manager.ts) *)

(** [progressListeners.add(callback)]: a Set keeps one copy. *)
Definition addProgressListener (l : Listener) : M AppState unit :=
  modify (fun s =>
    if existsb (fun l' => Nat.eqb (listenerId l') (listenerId l))
         (progressListeners s)
    then s
    else set_progressListeners (progressListeners s ++ [l]) s).

(** The function [addProgressListener] returns:
    [() => progressListeners.delete(callback)]. *)
Definition removeProgressListener (l : Listener) : M AppState unit :=
  modify (fun s =>
    set_progressListeners
      (filter (fun l' => negb (Nat.eqb (listenerId l') (listenerId l)))
         (progressListeners s)) s).

(** [progressListeners.forEach((listener) => listener(...))]: the
    listeners are called in insertion order; an exception thrown by one of
    them ends the iteration and leaves [forEach]. *)
Fixpoint forEachListener (ls : list Listener) (n : Notification)
  : M AppState unit :=
  match ls with
  | [] => ret tt
  | l :: rest =>
      modify (fun s => set_delivered (delivered s ++ [(listenerId l, n)]) s) ;;
      match onNotify l n with
      | Some message => throw message
      | None => forEachListener rest n
      end
  end.

Definition notifyProgress (postId : string) (progress : float)
  (status : PostDownloadStatus) : M AppState unit :=
  let n := mkNotification postId progress status in
  modify (fun s => set_published (published s ++ [n]) s) ;;
  ls <- gets progressListeners ;;
  forEachListener ls n.

(** ** AI analysis service (mobile/src/services/ai-analysis.ts) *)

(** [await xhsApi.analyze(request)]: the rejection of the promise is an
    exception at the call site. *)
Definition xhsApi_analyze (request : AnalyzeRequest)
  : M AppState (bool * option AnalyzeData) :=
  logCall (CallAnalyze request) ;;
  match api_analyze w request with
  | ApiThrows message => throw message
  | ApiReturns success data => ret (success, data)
  end.

Record AnalysisServiceResult := mkAnalysisServiceResult {
  asr_success : bool;
  asr_aiResult : option AIResult.t;
  asr_errorMessage : option string }.

Definition analyzePost (postId : string) : M AppState AnalysisServiceResult :=
  try_catch
    (existing <- getAIResultByPostId postId ;;
     match existing with
     | Some r => ret (mkAnalysisServiceResult true (Some r) None)
     | None =>
         post <- getPostById postId ;;
         content <- getContentByPostId postId ;;
         mediaCount <- getMediaCountByPostId postId ;;
         match content with
         | None =>
             ret (mkAnalysisServiceResult false None
                    (Some "No content available for analysis"))
         | Some c =>
             response <- xhsApi_analyze
               (mkAnalyzeRequest
                  (match post with Some p => Post.title p | None => None end)
                  (Content.text c) mediaCount) ;;
             match response with
             | (true, Some data) =>
                 groupId <-
                   match truthy_string (ad_suggestedGroupName data) with
                   | Some name =>
                       group <- getOrCreateGroup name ;;
                       incrementGroupPostCount (fst group) ;;
                       ret (Some (fst group))
                   | None => ret None
                   end ;;
                 aiResult <- createAIResult
                   (mkCreateAIResultInput postId (ad_labels data)
                      (ad_summary data) groupId (ad_contentType data)
                      (ad_modelVersion data)) ;;
                 ret (mkAnalysisServiceResult true (Some aiResult) None)
             | _ =>
                 ret (mkAnalysisServiceResult false None
                        (Some "Analysis API returned no data"))
             end
         end
     end)
    (fun message => ret (mkAnalysisServiceResult false None (Some message))).

Definition reanalyzePost (postId : string)
  : M AppState AnalysisServiceResult :=
  analyzePost postId.

(** ** Download manager (mobile/src/services/download-manager.ts) *)

Definition saveContent (postId : string) (content : CrawledContent)
  : M AppState unit :=
  existing <- getContentByPostId postId ;;
  match existing with
  | Some _ => ret tt
  | None =>
      createContent
        (Content.mk postId (cc_text content) (cc_authorName content)
           (cc_authorId content) (cc_originalDate content)
           (cc_viewCount content) (cc_likeCount content)) ;;
      match cc_title content with
      | EmptyString => ret tt
      | _ => post <- getPostById postId ;; ret tt
      end
  end.

(** The counter of a JavaScript loop and an array length as numbers. *)
Fixpoint float_of_nat (n : nat) : float :=
  match n with
  | O => 0%float
  | S n' => (float_of_nat n' + 1)%float
  end.

(** [items.map((item, index) => f item index)] *)
Fixpoint mapi_from {A B : Type} (f : A -> nat -> B) (i : nat) (l : list A)
  : list B :=
  match l with
  | [] => []
  | x :: l' => f x i :: mapi_from f (S i) l'
  end.

(** The [let] variables of [downloadMedia]. *)
Record LoopVars := mkLoopVars { completedCount : float; hasFailures : bool }.

Definition incrCompleted (v : LoopVars) : LoopVars :=
  mkLoopVars (completedCount v + 1)%float (hasFailures v).
Definition markFailure (v : LoopVars) : LoopVars :=
  mkLoopVars (completedCount v) true.

(** How the [try] block of one iteration is left: by [continue], or by
    reaching its end. *)
Inductive Flow := FlowContinue | FlowNext.

Definition mediaIteration (postId : string) (len : float)
  (onProgress : float -> M AppState unit) (rec : MediaRecord)
  : M (LoopVars * AppState) unit :=
  let id := fst rec in
  let m := snd rec in
  flow <- try_catch
    (gate <-
       match Media.type m with
       | video =>
           withinLimit <- zoom (isVideoWithinLimit (Media.remoteUrl m)) ;;
           if negb withinLimit then
             zoom (updateMediaStatus id media_skipped None None) ;;
             setLocal incrCompleted ;;
             v <- getLocal ;;
             zoom (onProgress (completedCount v / len)%float) ;;
             ret FlowContinue
           else ret FlowNext
       | image => ret FlowNext
       end ;;
     match gate with
     | FlowContinue => ret FlowContinue
     | FlowNext =>
         let localPath :=
           getMediaPath postId (Media.sortOrder m) (Media.type m) in
         zoom (updateMediaStatus id media_downloading None None) ;;
         result <- zoom (downloadFile (Media.remoteUrl m) localPath) ;;
         match dr_success result, truthy_string (dr_localPath result) with
         | true, Some _ =>
             zoom (updateMediaStatus id media_completed
                     (dr_localPath result) (dr_fileSize result)) ;;
             ret FlowNext
         | _, _ =>
             zoom (updateMediaStatus id media_failed None None) ;;
             setLocal markFailure ;;
             ret FlowNext
         end
     end)
    (fun _ =>
       zoom (updateMediaStatus id media_failed None None) ;;
       setLocal markFailure ;;
       ret FlowNext) ;;
  match flow with
  | FlowContinue => ret tt
  | FlowNext =>
      setLocal incrCompleted ;;
      v <- getLocal ;;
      zoom (onProgress (completedCount v / len)%float)
  end.

Fixpoint mediaLoop (postId : string) (len : float)
  (onProgress : float -> M AppState unit) (records : list MediaRecord)
  : M (LoopVars * AppState) unit :=
  match records with
  | [] => ret tt
  | rec :: rest =>
      mediaIteration postId len onProgress rec ;;
      mediaLoop postId len onProgress rest
  end.

(** Run a block that declares local variables; the block's result comes
    with their final values. *)
Definition withLocals {L S A : Type} (init : L) (m : M (L * S) A)
  : M S (A * L) :=
  fun s => match m (init, s) with
           | (Ok a, (l, s')) => (Ok (a, l), s')
           | (Throw e, (_, s')) => (Throw e, s')
           end.

Definition downloadMedia (postId : string) (mediaItems : list CrawledMedia)
  (onProgress : float -> M AppState unit) : M AppState bool :=
  match mediaItems with
  | [] => onProgress 1%float ;; ret true
  | _ =>
      mediaRecords <- createMediaBatch
        (mapi_from
           (fun item index =>
              mkCreateMediaInput postId (cm_type item) (cm_url item) index
                (cm_fileSize item))
           0 mediaItems) ;;
      r <- withLocals (mkLoopVars 0%float false)
             (mediaLoop postId (float_of_nat (List.length mediaRecords))
                onProgress mediaRecords) ;;
      ret (negb (hasFailures (snd r)))
  end.

(** The [try] block of [downloadPost]. *)
Definition downloadPostTry (postId : string) (post : Post.t)
  : M AppState bool :=
  crawlResult <- crawlPost (Post.url post) ;;
  match cr_success crawlResult, cr_content crawlResult with
  | true, Some content =>
      notifyProgress postId 0.3%float post_downloading ;;
      saveContent postId content ;;
      notifyProgress postId 0.4%float post_downloading ;;
      mediaSuccess <- downloadMedia postId (cc_media content)
        (fun mediaProgress =>
           let totalProgress := (0.4 + mediaProgress * 0.45)%float in
           notifyProgress postId totalProgress post_downloading) ;;
      notifyProgress postId 0.85%float post_downloading ;;
      try_catch (analyzePost postId ;; ret tt) (fun _ => ret tt) ;;
      let finalStatus :=
        if mediaSuccess then post_completed else post_partial in
      updatePostStatus postId finalStatus ;;
      notifyProgress postId 1%float finalStatus ;;
      ret true
  | _, _ =>
      updatePostStatus postId post_failed ;;
      notifyProgress postId 0%float post_failed ;;
      ret false
  end.

(** The [catch] block of [downloadPost]. *)
Definition downloadPostCatch (postId : string) : M AppState bool :=
  updatePostStatus postId post_failed ;;
  notifyProgress postId 0%float post_failed ;;
  ret false.

Definition downloadPost (postId : string) : M AppState bool :=
  post <- getPostById postId ;;
  match post with
  | None => ret false
  | Some post =>
      updatePostStatus postId post_downloading ;;
      notifyProgress postId 0%float post_downloading ;;
      try_catch (downloadPostTry postId post)
        (fun _ => downloadPostCatch postId)
  end.

Definition retryDownload (postId : string) : M AppState bool :=
  downloadPost postId.

Record DownloadStatus := mkDownloadStatus {
  ds_status : PostDownloadStatus;
  mediaTotal : nat;
  mediaCompleted : nat;
  mediaFailed : nat }.

Definition getDownloadStatus (postId : string)
  : M AppState (option DownloadStatus) :=
  post <- getPostById postId ;;
  match post with
  | None => ret None
  | Some post =>
      media <- getMediaByPostId postId ;;
      ret (Some (mkDownloadStatus (Post.downloadStatus post)
                   (List.length media)
                   (List.length
                      (filter (fun m => MediaDownloadStatus_eqb
                                 (Media.downloadStatus m) media_completed)
                         media))
                   (List.length
                      (filter (fun m => MediaDownloadStatus_eqb
                                 (Media.downloadStatus m) media_failed)
                         media))))
  end.

(** [BackgroundFetch.BackgroundFetchResult] *)
Inductive BackgroundFetchResult := NoData | NewData | Failed.

(** [for (const post of posts) { await downloadPost(post.id); }] *)
Fixpoint downloadEach (posts : list Post.t) : M AppState unit :=
  match posts with
  | [] => ret tt
  | post :: rest => downloadPost (Post.id post) ;; downloadEach rest
  end.

(** The task registered with
    [TaskManager.defineTask(DOWNLOAD_TASK_NAME, ...)]. *)
Definition backgroundDownloadTask : M AppState BackgroundFetchResult :=
  try_catch
    (posts <- getAllPosts
                (mkGetAllPostsOptions None None (Some post_pending)) ;;
     downloadEach (firstn 5 posts) ;;
     ret NewData)
    (fun _ => ret Failed).

(** ** Share handler (mobile/src/services/share-handler.ts) *)

(** [UrlValidationResult] of url-validator.ts. *)
Record UrlValidationResult := mkUrlValidationResult {
  uvr_isValid : bool; uvr_normalizedUrl : option string;
  uvr_urlHash : option string; uvr_errorMessage : option string;
  uvr_postId : option string }.

Record ShareResult := mkShareResult {
  sr_success : bool; sr_post : option Post.t; sr_isDuplicate : bool;
  sr_errorMessage : option string }.

(** [validateXhsUrl(url)] resolves with a result or rejects; the share
    handler is modelled for every such function. *)
Variable validateXhsUrl : string -> Result UrlValidationResult.

(** [processUrl]; [newId] is the id [generateId()] returns if a post is
    created. *)
Definition processUrl (newId : string) (url urlHash : string)
  : M AppState ShareResult :=
  try_catch
    (existing <- getPostByUrlHash urlHash ;;
     match existing with
     | Some post => ret (mkShareResult true (Some post) true None)
     | None =>
         post <- createPost newId (mkCreatePostInput url urlHash None) ;;
         ret (mkShareResult true (Some post) false None)
     end)
    (fun message => ret (mkShareResult false None false (Some message))).

Definition handleSharedUrl (newId : string) (url : string)
  : M AppState ShareResult :=
  validation <- (fun s => (validateXhsUrl url, s)) ;;
  if negb (uvr_isValid validation) then
    ret (mkShareResult false None false
           (Some match truthy_string (uvr_errorMessage validation) with
                 | Some message => message
                 | None => "Invalid URL"
                 end))
  else
    match truthy_string (uvr_normalizedUrl validation),
          truthy_string (uvr_urlHash validation) with
    | Some normalizedUrl, Some urlHash =>
        processUrl newId normalizedUrl urlHash
    | _, _ =>
        ret (mkShareResult false None false (Some "Failed to process URL"))
    end.

End Pipeline.

(** ** Download queue (download-manager.ts) *)

Record DownloadQueueItem := mkQueueItem {
  qi_postId : string; qi_priority : Z; qi_addedAt : Z }.

(** The comparator given to [downloadQueue.sort]. *)
Definition queueCompare (a b : DownloadQueueItem) : Z :=
  if negb (qi_priority a =? qi_priority b)%Z
  then (qi_priority b - qi_priority a)%Z
  else (qi_addedAt a - qi_addedAt b)%Z.

(** [Array.prototype.sort(compare)]: a stable sort; [a] stays before [b]
    unless [compare(a, b) > 0]. *)
Definition js_sort {A : Type} (compare : A -> A -> Z) (l : list A) : list A :=
  stable_sort (fun a b => (compare a b <=? 0)%Z) l.

(** The module variables [downloadQueue] and [isProcessing], and the item
    whose [downloadPost] the drain loop of [processQueue] is waiting for. *)
Record Scheduler := mkScheduler {
  downloadQueue : list DownloadQueueItem;
  isProcessing : bool;
  awaiting : option DownloadQueueItem }.

Definition initialScheduler : Scheduler := mkScheduler [] false None.

(** The head of the [while] loop of [processQueue]: shift the next item
    and wait for its run, or leave the loop and clear [isProcessing]. *)
Definition drainStep (s : Scheduler) : Scheduler :=
  match downloadQueue s with
  | [] => mkScheduler [] false None
  | item :: rest => mkScheduler rest true (Some item)
  end.

(** [processQueue()] up to its first suspension. *)
Definition processQueue (s : Scheduler) : Scheduler :=
  if isProcessing s || Nat.eqb (List.length (downloadQueue s)) 0 then s
  else drainStep (mkScheduler (downloadQueue s) true (awaiting s)).

(** [queueDownload(postId, priority)] called when [Date.now()] is [now]. *)
Definition queueDownload (postId : string) (priority : Z) (now : Z)
  (s : Scheduler) : Scheduler :=
  if existsb (fun item => String.eqb (qi_postId item) postId)
       (downloadQueue s)
  then s
  else
    processQueue
      (mkScheduler
         (js_sort queueCompare
            (downloadQueue s ++ [mkQueueItem postId priority now]))
         (isProcessing s) (awaiting s)).

(** The awaited [downloadPost] settles (its exception, if any, is caught
    and logged); the loop goes on. *)
Definition runSettled (s : Scheduler) : Scheduler :=
  match awaiting s with
  | Some _ => drainStep s
  | None => s
  end.

Inductive SchedulerEvent :=
| Enqueue (postId : string) (priority : Z) (now : Z)
| Settled.

Definition schedulerStep (s : Scheduler) (e : SchedulerEvent) : Scheduler :=
  match e with
  | Enqueue postId priority now => queueDownload postId priority now s
  | Settled => runSettled s
  end.

Definition runScheduler (events : list SchedulerEvent) : Scheduler :=
  fold_left schedulerStep events initialScheduler.

(** [a] is served no later than [b]: higher priority first, then earlier
    enqueue time. *)
Definition servedBefore (a b : DownloadQueueItem) : Prop :=
  (qi_priority a > qi_priority b)%Z \/
  (qi_priority a = qi_priority b /\ qi_addedAt a <= qi_addedAt b)%Z.

Section StatementBuilders.

Local Open Scope string_scope.

(** ** Statement builders (mobile/src/db/repository.ts) *)

(** A character matched by [[A-Z]], and one matched by [[a-z]]. *)
Definition isUpperAZ (c : ascii) : bool :=
  Nat.leb 65 (nat_of_ascii c) && Nat.leb (nat_of_ascii c) 90.
Definition isLowerAZ (c : ascii) : bool :=
  Nat.leb 97 (nat_of_ascii c) && Nat.leb (nat_of_ascii c) 122.

(** [toLowerCase] and [toUpperCase] on one character. *)
Definition toLowerCase (c : ascii) : ascii :=
  if isUpperAZ c then ascii_of_nat (nat_of_ascii c + 32) else c.
Definition toUpperCase (c : ascii) : ascii :=
  if isLowerAZ c then ascii_of_nat (nat_of_ascii c - 32) else c.

(** [str.replace(/[A-Z]/g, (letter) => `_${letter.toLowerCase()}`)] *)
Fixpoint toSnakeCase (str : string) : string :=
  match str with
  | EmptyString => EmptyString
  | String c rest =>
      if isUpperAZ c
      then String "_" (String (toLowerCase c) (toSnakeCase rest))
      else String c (toSnakeCase rest)
  end.

(** [str.replace(/_([a-z])/g, (_, letter) => letter.toUpperCase())]: the
    matches are taken from left to right and do not overlap. *)
Fixpoint toCamelCase (str : string) : string :=
  match str with
  | EmptyString => EmptyString
  | String c rest =>
      match rest with
      | String d rest' =>
          if Ascii.eqb c "_" && isLowerAZ d
          then String (toUpperCase d) (toCamelCase rest')
          else String c (toCamelCase rest)
      | EmptyString => String c EmptyString
      end
  end.

(** A value bound to a statement. *)
#[warnings="-register-all"]
Inductive JsValue :=
| JsNull
| JsUndefined
| JsBoolean (b : bool)
| JsNumber (z : Z)
| JsString (s : string)
| JsArray (items : list JsValue).

(** A [Record<string, unknown>]: its own properties in enumeration order,
    the order of [Object.keys], [Object.values] and [Object.entries]. *)
Definition JsRecord : Type := list (string * JsValue).

(** [parts.join(sep)] *)
Fixpoint join (sep : string) (parts : list string) : string :=
  match parts with
  | [] => EmptyString
  | part :: rest =>
      match rest with
      | [] => part
      | _ => part ++ sep ++ join sep rest
      end
  end.

(** One turn of the loop of [buildWhereClause]. *)
Definition whereStep (acc : list string * list JsValue)
  (entry : string * JsValue) : list string * list JsValue :=
  let snakeKey := toSnakeCase (fst entry) in
  match snd entry with
  | JsNull => (List.app (fst acc) [snakeKey ++ " IS NULL"], snd acc)
  | JsArray items =>
      let placeholders := join ", " (map (fun _ => "?") items) in
      (List.app (fst acc) [snakeKey ++ " IN (" ++ placeholders ++ ")"],
       List.app (snd acc) items)
  | value =>
      (List.app (fst acc) [snakeKey ++ " = ?"], List.app (snd acc) [value])
  end.

Definition buildWhereClause (conditions : JsRecord)
  : string * list JsValue :=
  let (parts, values) := fold_left whereStep conditions ([], []) in
  (if Nat.ltb 0 (List.length parts)
   then "WHERE " ++ join " AND " parts else "",
   values).

Definition buildInsertStatement (tableName : string) (row : JsRecord)
  : string * list JsValue :=
  let columns := map fst row in
  let placeholders := join ", " (map (fun _ => "?") columns) in
  ("INSERT INTO " ++ tableName ++ " (" ++ join ", " columns ++ ") VALUES ("
   ++ placeholders ++ ")",
   map snd row).

Definition buildUpdateStatement (tableName : string) (id : string)
  (row : JsRecord) : string * list JsValue :=
  let setParts := map (fun col => col ++ " = ?") (map fst row) in
  ("UPDATE " ++ tableName ++ " SET " ++ join ", " setParts ++ " WHERE id = ?",
   List.app (map snd row) [JsString id]).

End StatementBuilders.

(** ** Column mappings (mobile/src/db/schema.ts, repository.ts) *)

Section ColumnMappings.

Local Open Scope string_scope.

(** The keys of [COLUMN_MAPPINGS]. *)
Inductive TableName :=
| table_posts | table_content | table_media | table_groups
| table_aiResults | table_downloadTasks.

(** [COLUMN_MAPPINGS[tableName]]: the entries in declaration order, each a
    TypeScript key with its column. *)
Definition COLUMN_MAPPINGS (tableName : TableName) : list (string * string) :=
  match tableName with
  | table_posts =>
      [("id", "id"); ("url", "url"); ("urlHash", "url_hash");
       ("title", "title"); ("downloadStatus", "download_status");
       ("createdAt", "created_at"); ("updatedAt", "updated_at")]
  | table_content =>
      [("id", "id"); ("postId", "post_id"); ("text", "text");
       ("authorName", "author_name"); ("authorId", "author_id");
       ("originalDate", "original_date"); ("viewCount", "view_count");
       ("likeCount", "like_count")]
  | table_media =>
      [("id", "id"); ("postId", "post_id"); ("type", "type");
       ("remoteUrl", "remote_url"); ("localPath", "local_path");
       ("fileSize", "file_size"); ("downloadStatus", "download_status");
       ("sortOrder", "sort_order")]
  | table_groups =>
      [("id", "id"); ("name", "name"); ("description", "description");
       ("postCount", "post_count"); ("createdAt", "created_at")]
  | table_aiResults =>
      [("id", "id"); ("postId", "post_id"); ("labels", "labels");
       ("summary", "summary"); ("groupId", "group_id");
       ("contentType", "content_type"); ("modelVersion", "model_version");
       ("analyzedAt", "analyzed_at")]
  | table_downloadTasks =>
      [("id", "id"); ("postId", "post_id"); ("status", "status");
       ("progress", "progress"); ("retryCount", "retry_count");
       ("errorMessage", "error_message"); ("createdAt", "created_at");
       ("updatedAt", "updated_at")]
  end.

(** [JSON.stringify] on an array and [JSON.parse] ([None] when it
    throws). *)
Variable JSON_stringify : list JsValue -> string.
Variable JSON_parse : string -> option JsValue.

(** [key in obj] and [obj[key]] together. *)
Fixpoint getProperty (key : string) (obj : JsRecord) : option JsValue :=
  match obj with
  | [] => None
  | (k, v) :: rest => if String.eqb k key then Some v else getProperty key rest
  end.

(** What [objectToRow] stores for a key. *)
Definition encodeValue (tsKey : string) (value : JsValue) : JsValue :=
  match value with
  | JsArray items =>
      if String.eqb tsKey "labels" then JsString (JSON_stringify items)
      else value
  | _ => value
  end.

(** What [rowToObject] returns for a key. *)
Definition decodeValue (tsKey : string) (value : JsValue) : JsValue :=
  match value with
  | JsString text =>
      if String.eqb tsKey "labels"
      then match JSON_parse text with
           | Some parsed => parsed
           | None => JsArray []
           end
      else value
  | _ => value
  end.

Definition objectToRow (obj : JsRecord) (tableName : TableName) : JsRecord :=
  flat_map
    (fun mapping =>
       match getProperty (fst mapping) obj with
       | Some value => [(snd mapping, encodeValue (fst mapping) value)]
       | None => []
       end)
    (COLUMN_MAPPINGS tableName).

Definition rowToObject (row : JsRecord) (tableName : TableName) : JsRecord :=
  flat_map
    (fun mapping =>
       match getProperty (snd mapping) row with
       | Some value => [(fst mapping, decodeValue (fst mapping) value)]
       | None => []
       end)
    (COLUMN_MAPPINGS tableName).

End ColumnMappings.

(** ** Network monitor (mobile/src/services/network-monitor.ts)

    Calls do not overlap: each one runs to completion before the next
    starts. *)

Module NetworkMonitor.

Record NetworkStatus := mkNetworkStatus {
  isConnected : bool; isInternetReachable : bool; type : option string }.

(** What [Network.getNetworkStateAsync()] resolves with. *)
Record NetworkState := mkNetworkState {
  ns_isConnected : option bool; ns_isInternetReachable : option bool;
  ns_type : option string }.

(** A registered listener; [throwsOn] tells whether it throws when called
    with a status. *)
Record Listener := mkListener {
  listenerId : nat; throwsOn : NetworkStatus -> bool }.

(** The module variables [listeners], [currentStatus] and
    [monitoringInterval] (whether it is set), and the log of the listener
    calls. *)
Record State := mkState {
  listeners : list Listener;
  currentStatus : NetworkStatus;
  monitoring : bool;
  notified : list (nat * NetworkStatus) }.

Definition initialState : State :=
  mkState [] (mkNetworkStatus true true None) false [].

Definition set_currentStatus (v : NetworkStatus) (s : State) : State :=
  mkState (listeners s) v (monitoring s) (notified s).
Definition set_listeners (v : list Listener) (s : State) : State :=
  mkState v (currentStatus s) (monitoring s) (notified s).
Definition set_monitoring (v : bool) (s : State) : State :=
  mkState (listeners s) (currentStatus s) v (notified s).
Definition set_notified (v : list (nat * NetworkStatus)) (s : State)
  : State :=
  mkState (listeners s) (currentStatus s) (monitoring s) v.

(** [value ?? false] *)
Definition orFalse (o : option bool) : bool :=
  match o with
  | Some b => b
  | None => false
  end.

Local Open Scope monad_scope.

(** [getNetworkStatus]; [reading] is what [getNetworkStateAsync] does in
    this call. *)
Definition getNetworkStatus (reading : Result NetworkState)
  : M State NetworkStatus :=
  try_catch
    (networkState <- (fun s => (reading, s)) ;;
     let status :=
       mkNetworkStatus (orFalse (ns_isConnected networkState))
         (orFalse (ns_isInternetReachable networkState))
         (ns_type networkState) in
     modify (set_currentStatus status) ;;
     ret status)
    (fun _ => gets currentStatus).

Definition getCachedNetworkStatus : M State NetworkStatus :=
  gets currentStatus.

Definition isOnline (reading : Result NetworkState) : M State bool :=
  status <- getNetworkStatus reading ;;
  ret (isConnected status && isInternetReachable status).

Definition isOffline (reading : Result NetworkState) : M State bool :=
  online <- isOnline reading ;;
  ret (negb online).

(** [listeners.add(listener)] and the cleanup function it returns. *)
Definition addNetworkListener (l : Listener) : M State unit :=
  modify (fun s =>
    if existsb (fun l' => Nat.eqb (listenerId l') (listenerId l))
         (listeners s)
    then s
    else set_listeners (listeners s ++ [l]) s).

Definition removeNetworkListener (l : Listener) : M State unit :=
  modify (fun s =>
    set_listeners
      (filter (fun l' => negb (Nat.eqb (listenerId l') (listenerId l)))
         (listeners s)) s).

(** [listener(status)] *)
Definition callListener (l : Listener) (status : NetworkStatus)
  : M State unit :=
  modify (fun s => set_notified (notified s ++ [(listenerId l, status)]) s) ;;
  if throwsOn l status then throw "listener failed" else ret tt.

(** [listeners.forEach((listener) => { try { listener(status) } catch {} })] *)
Fixpoint notifyEach (ls : list Listener) (status : NetworkStatus)
  : M State unit :=
  match ls with
  | [] => ret tt
  | l :: rest =>
      try_catch (callListener l status) (fun _ => ret tt) ;;
      notifyEach rest status
  end.

Definition notifyListeners (status : NetworkStatus) : M State unit :=
  ls <- gets listeners ;;
  notifyEach ls status.

Definition stopNetworkMonitoring : M State unit :=
  modify (fun s => if monitoring s then set_monitoring false s else s).

(** The function given to [setInterval]. *)
Definition pollNetwork (reading : Result NetworkState) : M State unit :=
  newStatus <- getNetworkStatus reading ;;
  current <- gets currentStatus ;;
  if negb (Bool.eqb (isConnected newStatus) (isConnected current))
     || negb (Bool.eqb (isInternetReachable newStatus)
                (isInternetReachable current))
  then
    modify (set_currentStatus newStatus) ;;
    notifyListeners newStatus
  else ret tt.

(** [startNetworkMonitoring]: the initial check and the new interval. *)
Definition startNetworkMonitoring (reading : Result NetworkState)
  : M State unit :=
  stopNetworkMonitoring ;;
  getNetworkStatus reading ;;
  modify (set_monitoring true).

Definition initializeNetworkMonitoring (first second : Result NetworkState)
  : M State unit :=
  getNetworkStatus first ;;
  startNetworkMonitoring second.

(** What can happen to the monitor: a call of one of its functions, or the
    interval firing. *)
Inductive Event :=
| Initialize (first second : Result NetworkState)
| Start (reading : Result NetworkState)
| Stop
| IntervalFires (reading : Result NetworkState)
| GetStatus (reading : Result NetworkState)
| AddListener (l : Listener)
| RemoveListener (l : Listener).

Definition step (s : State) (e : Event) : State :=
  match e with
  | Initialize first second => snd (initializeNetworkMonitoring first second s)
  | Start reading => snd (startNetworkMonitoring reading s)
  | Stop => snd (stopNetworkMonitoring s)
  | IntervalFires reading =>
      if monitoring s then snd (pollNetwork reading s) else s
  | GetStatus reading => snd (getNetworkStatus reading s)
  | AddListener l => snd (addNetworkListener l s)
  | RemoveListener l => snd (removeNetworkListener l s)
  end.

Definition run (events : list Event) (s : State) : State :=
  fold_left step events s.

End NetworkMonitor.

(** * Vocabulary of the statements *)

(** The relation of a boolean comparison. *)
Definition holds {A : Type} (leb : A -> A -> bool) (a b : A) : Prop :=
  leb a b = true.

(** What holds of the scheduler after any sequence of calls. *)
Definition schedulerInvariant (s : Scheduler) : Prop :=
  StronglySorted servedBefore (downloadQueue s) /\
  (isProcessing s = false -> downloadQueue s = [] /\ awaiting s = None) /\
  (isProcessing s = true -> awaiting s <> None).

(** [preserves P m]: if [P] holds before [m] it holds after it, whether
    [m] returns or throws. *)
Definition preserves {S A : Type} (P : S -> Prop) (m : M S A) : Prop :=
  forall s, P s -> P (snd (m s)).

(** A field of the state that a computation leaves alone. *)
Definition keeps {V A : Type} (view : AppState -> V) (m : M AppState A)
  : Prop := forall (P : V -> Prop), preserves (fun s => P (view s)) m.

(** No registered listener throws, whatever it is notified of. *)
Definition quiet (s : AppState) : Prop :=
  forall l n, In l (progressListeners s) -> onNotify l n = None.

(** The state after a notification has reached every listener. *)
Definition afterNotify (n : Notification) (s : AppState) : AppState :=
  set_delivered
    (delivered s ++ map (fun l => (listenerId l, n)) (progressListeners s))
    (set_published (published s ++ [n]) s).

(** The state after [updatePostStatus]. *)
Definition afterUpdatePostStatus (w : World) (id : string)
  (st : PostDownloadStatus) (s : AppState) : AppState :=
  set_posts
    (map (fun p => if String.eqb (Post.id p) id
                   then applyUpdatePost (mkUpdatePostInput None (Some st))
                          (clock w (ticks s)) p
                   else p) (posts s))
    (set_ticks (S (ticks s)) s).

(** The status [getPostById] reports for a post. *)
Definition postStatus (id : string) (s : AppState)
  : option PostDownloadStatus :=
  option_map Post.downloadStatus
    (find (fun p => String.eqb (Post.id p) id) (posts s)).

(** The result of the crawl as [downloadPost] reads it. *)
Definition crawlSucceeds (w : World) (url : string)
  : option CrawledContent :=
  match api_crawl w url with
  | ApiReturns true (Some data) => Some data
  | _ => None
  end.

(** A notification that closes a run. *)
Definition isTerminal (n : Notification) : bool :=
  match n_status n with
  | post_completed | post_partial | post_failed => true
  | post_pending | post_downloading => false
  end.

Section MediaItems.

Variable w : World.
Variable postId : string.

(** The video is refused by the size check. *)
Definition oversized (m : Media.t) : bool :=
  match Media.type m with
  | video =>
      match head_contentLength w (Media.remoteUrl m) with
      | None => false
      | Some n => negb (js_le_limit n)
      end
  | image => false
  end.

(** The transfer of the item succeeds: the uri and the measured size. *)
Definition transferred (m : Media.t) : option (string * option Z) :=
  match fs_download w (Media.remoteUrl m)
          (getMediaPath w postId (Media.sortOrder m) (Media.type m)) with
  | FsSaved EmptyString _ => None
  | FsSaved uri size => Some (uri, size)
  | _ => None
  end.

(** The status in which an iteration that meets no exception leaves its
    item. *)
Definition itemStatus (m : Media.t) : MediaDownloadStatus :=
  if oversized m then media_skipped
  else match transferred m with
       | Some _ => media_completed
       | None => media_failed
       end.

(** What the iteration does to the row of its item. *)
Definition itemUpdate (m : Media.t) (row : Media.t) : Media.t :=
  if oversized m
  then applyUpdateMedia (mkUpdateMediaInput None None (Some media_skipped)) row
  else
    let row' :=
      applyUpdateMedia (mkUpdateMediaInput None None (Some media_downloading))
        row in
    match transferred m with
    | Some (uri, size) =>
        applyUpdateMedia
          (mkUpdateMediaInput (Some uri) (truthy_number size)
             (Some media_completed)) row'
    | None =>
        applyUpdateMedia (mkUpdateMediaInput None None (Some media_failed))
          row'
    end.

(** The remote calls of the iteration. *)
Definition itemCalls (m : Media.t) : list Call :=
  match Media.type m with
  | video => [CallHead (Media.remoteUrl m)]
  | image => []
  end
  ++ (if oversized m then []
      else [CallDownload (Media.remoteUrl m)
              (getMediaPath w postId (Media.sortOrder m) (Media.type m))]).

End MediaItems.

(** The notifications of a loop over [n] items that starts with
    [completedCount = c]. *)
Fixpoint loopNotifications (postId : string) (g : float -> float)
  (st : PostDownloadStatus) (len : float) (c : float) (n : nat)
  : list Notification :=
  match n with
  | O => []
  | S n' =>
      mkNotification postId (g ((c + 1) / len)%float) st
      :: loopNotifications postId g st len (c + 1)%float n'
  end.

(** The media table after the loop has gone through [records]. *)
Definition loopTable (w : World) (postId : string)
  (records : list MediaRecord) (table : list Media.t) : list Media.t :=
  fold_left
    (fun t r => update_nth (fst r) (itemUpdate w postId (snd r)) t)
    records table.

(** The row [createMedia] inserts. *)
Definition newRow (input : CreateMediaInput) : Media.t :=
  Media.mk (cmi_postId input) (cmi_type input) (cmi_remoteUrl input) None
    (cmi_fileSize input) media_pending (cmi_sortOrder input).

(** The rows [downloadMedia] creates for the crawled references. *)
Definition crawledRows (postId : string) (items : list CrawledMedia)
  : list Media.t :=
  map newRow
    (mapi_from
       (fun item index =>
          mkCreateMediaInput postId (cm_type item) (cm_url item) index
            (cm_fileSize item))
       0 items).

(** Rows with the ids they get when appended to a table of [n0] rows. *)
Definition recordsFrom (n0 : nat) (rows : list Media.t) : list MediaRecord :=
  combine (seq n0 (List.length rows)) rows.

(** The notifications [downloadMedia] has published. *)
Definition mediaNotifications (postId : string) (g : float -> float)
  (st : PostDownloadStatus) (n : nat) : list Notification :=
  match n with
  | O => [mkNotification postId (g 1%float) st]
  | _ => loopNotifications postId g st (float_of_nat n) 0%float n
  end.

Definition isAnalyzeCall (c : Call) : bool :=
  match c with
  | CallAnalyze _ => true
  | _ => false
  end.

(** The fraction [downloadPost] publishes for a media progress. *)
Definition totalProgress (mediaProgress : float) : float :=
  (0.4 + mediaProgress * 0.45)%float.

(** The notifications of a run over [n] media references that ends in
    [finalStatus]. *)
Definition runNotifications (postId : string) (n : nat)
  (finalStatus : PostDownloadStatus) : list Notification :=
  [mkNotification postId 0%float post_downloading;
   mkNotification postId 0.3%float post_downloading;
   mkNotification postId 0.4%float post_downloading]
  ++ mediaNotifications postId totalProgress post_downloading n
  ++ [mkNotification postId 0.85%float post_downloading;
      mkNotification postId 1%float finalStatus].

(** The media rows created between [s] and [s']. *)
Definition createdMedia (s s' : AppState) : list Media.t :=
  skipn (List.length (media s)) (media s').

(** The notifications published between [s] and [s']. *)
Definition publishedBy (s s' : AppState) : list Notification :=
  skipn (List.length (published s)) (published s').

(** The remote calls made between [s] and [s']. *)
Definition callsBy (s s' : AppState) : list Call :=
  skipn (List.length (calls s)) (calls s').

Definition isFailedMedia (m : Media.t) : bool :=
  MediaDownloadStatus_eqb (Media.downloadStatus m) media_failed.

(** The row created for the [i]-th crawled reference. *)
Definition rowOf (postId : string) (i : nat) (item : CrawledMedia) : Media.t :=
  Media.mk postId (cm_type item) (cm_url item) None (cm_fileSize item)
    media_pending i.

(** The fractions of a list of notifications. *)
Definition fractions (l : list Notification) : list float :=
  map n_progress l.

(** No element is smaller than the one before it. *)
Fixpoint nonDecreasing (l : list float) : bool :=
  match l with
  | [] => true
  | x :: rest =>
      match rest with
      | [] => true
      | y :: _ => PrimFloat.leb x y && nonDecreasing rest
      end
  end.

(** The number of content rows of a post. *)
Definition contentCount (postId : string) (s : AppState) : nat :=
  List.length
    (filter (fun c => String.eqb (Content.postId c) postId) (contents s)).



(** The post count of the group with id [g] (0 when there is none). *)
Definition groupPostCount (g : nat) (gs : list Group.t) : Z :=
  match nth_error gs g with
  | Some r => Group.postCount r
  | None => 0%Z
  end.

(** [post_count = post_count + 1] on a row. *)
Definition incrementRow (g : Group.t) : Group.t :=
  Group.mk (Group.name g) (Group.description g) (Group.postCount g + 1)%Z
    (Group.createdAt g).





(** The post has reached a status that ends a run. *)
Definition settled (postId : string) (s : AppState) : Prop :=
  postStatus postId s = Some post_completed \/
  postStatus postId s = Some post_partial \/
  postStatus postId s = Some post_failed.

(** The posts the background task takes up: the newest pending ones, at
    most five. *)
Definition selectedPosts (s : AppState) : list Post.t :=
  firstn 5
    (stable_sort (fun a b => (Post.createdAt b <=? Post.createdAt a)%Z)
       (filter
          (fun p => PostDownloadStatus_eqb (Post.downloadStatus p)
                      post_pending) (posts s))).



(** Post ids and url hashes are unique (PRIMARY KEY and UNIQUE). *)
Definition uniquePosts (s : AppState) : Prop :=
  NoDup (map Post.id (posts s)) /\ NoDup (map Post.urlHash (posts s)).

(** The number of occurrences of a character in a string. *)
Fixpoint countChar (c : ascii) (str : string) : nat :=
  match str with
  | EmptyString => 0
  | String d rest => (if Ascii.eqb d c then 1 else 0) + countChar c rest
  end.

(** No underscore of the string is followed by a lower-case letter. *)
Fixpoint noSnakeJoint (str : string) : bool :=
  match str with
  | EmptyString => true
  | String c rest =>
      match rest with
      | String d _ => negb (Ascii.eqb c "_" && isLowerAZ d)
      | EmptyString => true
      end && noSnakeJoint rest
  end.

(** The string has no upper-case letter. *)
Fixpoint noUpperCase (str : string) : bool :=
  match str with
  | EmptyString => true
  | String c rest => negb (isUpperAZ c) && noUpperCase rest
  end.

(** The properties of an object that have a column in the table, in
    column order. *)
Definition mappedProperties (obj : JsRecord) (tableName : TableName)
  : JsRecord :=
  flat_map
    (fun mapping =>
       match getProperty (fst mapping) obj with
       | Some value => [(fst mapping, value)]
       | None => []
       end)
    (COLUMN_MAPPINGS tableName).

(** The labels of the object are absent, or an array that [JSON.parse]
    reads back from what [JSON.stringify] writes, or a value that is
    neither an array nor a string. *)
Definition labelsRoundTrip (JSON_stringify : list JsValue -> string)
  (JSON_parse : string -> option JsValue) (obj : JsRecord) : Prop :=
  match getProperty "labels" obj with
  | Some (JsArray items) =>
      JSON_parse (JSON_stringify items) = Some (JsArray items)
  | Some (JsString _) => False
  | _ => True
  end.

(** * Sample data *)

Definition sampleUrl : string := "https://www.xiaohongshu.com/explore/abc123".

Definition samplePost : Post.t :=
  Post.mk "p1" sampleUrl "hash-abc123" None post_pending 1000 1000.

Definition sampleTask : DownloadTask.t :=
  DownloadTask.mk "p1" task_queued 0%float 0 None 1000 1000.

(** One pending post with its queued task, and the given listeners. *)
Definition sampleState (listeners : list Listener) : AppState :=
  mkAppState [samplePost] [] [] [] [] [sampleTask] listeners [] [] [] 0.

Definition sampleImageUrl : string := "https://cdn.example/i1.jpg".
Definition sampleVideoUrl : string := "https://cdn.example/v1.mp4".

(** 150 MB. *)
Definition bigSize : Z := (150 * 1024 * 1024)%Z.

Definition sampleImage : CrawledMedia :=
  mkCrawledMedia image sampleImageUrl None.

Definition sampleVideo : CrawledMedia :=
  mkCrawledMedia video sampleVideoUrl (Some bigSize).

Definition contentWith (items : list CrawledMedia) : CrawledContent :=
  mkCrawledContent "A title" "Some text" (Some "author"%string) None None
    None None
    items.

Definition sampleAnalysis : AnalyzeData :=
  mkAnalyzeData ["food"%string] "A summary" (Some "food"%string) None
    (Some "Food"%string) "model-1".

(** A world in which [crawl] answers every crawl request, [head] every
    probe, every transfer writes 1 kB to the requested path except that of
    the sample video, which is 150 MB, and every analysis succeeds. *)
Definition sampleWorld (crawl : ApiOutcome CrawledContent)
  (head : option jsnum) : World :=
  mkWorld "file:///data/"
    (fun _ => crawl)
    (fun _ => ApiReturns true (Some sampleAnalysis))
    (fun _ => head)
    (fun url path =>
       FsSaved path
         (Some (if String.eqb url sampleVideoUrl then bigSize else 1024%Z)))
    (fun n => (2000 + Z.of_nat n)%Z).

Definition crawlOf (items : list CrawledMedia) : ApiOutcome CrawledContent :=
  ApiReturns true (Some (contentWith items)).


(** A listener that never throws. *)
Definition quietListener : Listener := mkListener 1 (fun _ => None).

(** A listener that throws on every notification. *)
Definition throwingListener : Listener :=
  mkListener 2 (fun _ => Some "listener failed"%string).

(** A listener that throws when it is told that a run has ended. *)
Definition throwsAtEnd : Listener :=
  mkListener 3
    (fun n => if isTerminal n then Some "cannot render"%string else None).

(** A second listener that never throws. *)
Definition lateListener : Listener := mkListener 4 (fun _ => None).

(** An analysis result of the sample post, and a state that holds it. *)
Definition sampleResult : AIResult.t :=
  AIResult.mk "p1" ["food"%string] "A summary" None (Some "food"%string)
    "model-1" 1500.

Definition analyzedState : AppState :=
  mkAppState [samplePost] [] [] [] [sampleResult] [] [] [] [] [] 0.

(** A post object with a property that has no column. *)
Definition samplePostObject : JsRecord :=
  [("id"%string, JsString "p1"); ("urlHash"%string, JsString "hash-abc123");
   ("draft"%string, JsBoolean true)].

(** A row of the posts table. *)
Definition samplePostRow : JsRecord :=
  [("id"%string, JsString "p1"); ("url_hash"%string, JsString "hash-abc123")].

(** * Properties *)

(** ** The download queue *)

Lemma queueCompare_servedBefore (a b : DownloadQueueItem) :
  (queueCompare a b <=? 0)%Z = true <-> servedBefore a b.
Proof.
  unfold queueCompare, servedBefore.
  destruct (Z.eqb_spec (qi_priority a) (qi_priority b)) as [E | E]; simpl;
    rewrite Z.leb_le; lia.
Qed.

Lemma servedBefore_total (a b : DownloadQueueItem) :
  servedBefore a b \/ servedBefore b a.
Proof. unfold servedBefore. lia. Qed.

Lemma servedBefore_trans (a b c : DownloadQueueItem) :
  servedBefore a b -> servedBefore b c -> servedBefore a c.
Proof. unfold servedBefore. lia. Qed.

Section StableSort.

Context {A : Type} (leb : A -> A -> bool).
Hypothesis leb_total : forall a b, holds leb a b \/ holds leb b a.
Hypothesis leb_trans :
  forall a b c, holds leb a b -> holds leb b c -> holds leb a c.

Lemma insert_sorted_Forall (P : A -> Prop) (x : A) (l : list A) :
  P x -> Forall P l -> Forall P (insert_sorted leb x l).
Proof.
  intros Hx Hl. induction Hl as [| y l' Hy Hl' IH]; simpl.
  - constructor; [exact Hx | constructor].
  - destruct (leb x y); repeat constructor; assumption.
Qed.

Lemma insert_sorted_StronglySorted (x : A) (l : list A) :
  StronglySorted (holds leb) l ->
  StronglySorted (holds leb) (insert_sorted leb x l).
Proof.
  intros Hs. induction Hs as [| y l' Hs' IH Hy]; simpl.
  - repeat constructor.
  - destruct (leb x y) eqn:E.
    + constructor; [constructor; assumption |].
      constructor; [exact E |].
      eapply Forall_impl; [| exact Hy].
      intros z Hz. eapply leb_trans; [exact E | exact Hz].
    + constructor; [exact IH |].
      apply insert_sorted_Forall; [| exact Hy].
      destruct (leb_total x y) as [H | H]; [| exact H].
      unfold holds in H. congruence.
Qed.

Lemma stable_sort_StronglySorted (l : list A) :
  StronglySorted (holds leb) (stable_sort leb l).
Proof.
  induction l as [| x l IH]; simpl.
  - constructor.
  - apply insert_sorted_StronglySorted. exact IH.
Qed.

(** An element that is at or before every element of the list is put in
    front. *)
Lemma insert_sorted_front (x : A) (l : list A) :
  Forall (holds leb x) l -> insert_sorted leb x l = x :: l.
Proof.
  intros H. destruct H as [| y l' Hy _]; simpl; [reflexivity |].
  unfold holds in Hy. rewrite Hy. reflexivity.
Qed.

End StableSort.

Lemma js_sort_queue_sorted (l : list DownloadQueueItem) :
  StronglySorted servedBefore (js_sort queueCompare l).
Proof.
  unfold js_sort.
  eapply StronglySorted_ind with
    (P := fun l => StronglySorted servedBefore l);
    [constructor | |
     apply (stable_sort_StronglySorted
              (fun a b => (queueCompare a b <=? 0)%Z))].
  - intros a l0 _ IH Ha. constructor; [exact IH |].
    eapply Forall_impl; [| exact Ha].
    intros b Hb. apply queueCompare_servedBefore. exact Hb.
  - intros a b. unfold holds. rewrite !queueCompare_servedBefore.
    apply servedBefore_total.
  - intros a b c. unfold holds. rewrite !queueCompare_servedBefore.
    apply servedBefore_trans.
Qed.

(** Sorting a sorted queue with one item pushed at its end: the item goes
    behind every queued item of priority at least its own, provided its
    timestamp is not earlier than theirs. *)
Lemma js_sort_push_sorted (q : list DownloadQueueItem)
  (item : DownloadQueueItem) :
  StronglySorted servedBefore q ->
  Forall (fun x => (qi_addedAt x <= qi_addedAt item)%Z) q ->
  js_sort queueCompare (q ++ [item]) =
    filter (fun x => (qi_priority item <=? qi_priority x)%Z) q
    ++ [item]
    ++ filter (fun x => (qi_priority x <? qi_priority item)%Z) q.
Proof.
  unfold js_sort, stable_sort. rewrite fold_right_app. simpl.
  intros Hs. induction Hs as [| a l Hs IH Ha]; intros Ht; simpl;
    [reflexivity |].
  inversion Ht as [| ? ? Hta Htl]; subst.
  rewrite (IH Htl).
  destruct (Z.leb_spec (qi_priority item) (qi_priority a)) as [Hp | Hp].
  - assert (Hlt : (qi_priority a <? qi_priority item)%Z = false)
      by (apply Z.ltb_ge; exact Hp).
    rewrite Hlt. simpl.
    apply insert_sorted_front.
    apply Forall_app. split.
    + apply Forall_forall. intros x Hx. apply filter_In in Hx.
      apply queueCompare_servedBefore.
      rewrite Forall_forall in Ha. apply Ha. tauto.
    + constructor.
      * apply queueCompare_servedBefore. unfold servedBefore. lia.
      * apply Forall_forall. intros x Hx. apply filter_In in Hx.
        apply queueCompare_servedBefore.
        rewrite Forall_forall in Ha. apply Ha. tauto.
  - assert (Hlt : (qi_priority a <? qi_priority item)%Z = true)
      by (apply Z.ltb_lt; exact Hp).
    rewrite Hlt.
    assert (Hnone : filter
              (fun x => (qi_priority item <=? qi_priority x)%Z) l = []).
    { clear - Ha Hp. induction Ha as [| b l Hb Hl IH]; simpl;
        [reflexivity |].
      destruct (Z.leb_spec (qi_priority item) (qi_priority b));
        [unfold servedBefore in Hb; lia | exact IH]. }
    assert (Hall : filter
              (fun x => (qi_priority x <? qi_priority item)%Z) l = l).
    { clear - Ha Hp. induction Ha as [| b l Hb Hl IH]; simpl;
        [reflexivity |].
      destruct (Z.ltb_spec (qi_priority b) (qi_priority item));
        [rewrite IH; reflexivity | unfold servedBefore in Hb; lia]. }
    rewrite Hnone, Hall. simpl.
    assert (Hcmp : (queueCompare a item <=? 0)%Z = false).
    { destruct (queueCompare a item <=? 0)%Z eqn:E; [| reflexivity].
      apply queueCompare_servedBefore in E. unfold servedBefore in E. lia. }
    rewrite Hcmp. f_equal.
    apply insert_sorted_front.
    eapply Forall_impl; [| exact Ha].
    intros x Hx. apply queueCompare_servedBefore. exact Hx.
Qed.

Lemma drainStep_invariant (s : Scheduler) :
  StronglySorted servedBefore (downloadQueue s) ->
  schedulerInvariant (drainStep s).
Proof.
  intros Hs. unfold drainStep, schedulerInvariant.
  destruct (downloadQueue s) as [| item rest]; simpl.
  - repeat split; try constructor; try discriminate.
  - inversion Hs; subst. repeat split; try assumption; discriminate.
Qed.

Lemma schedulerStep_invariant (s : Scheduler) (e : SchedulerEvent) :
  schedulerInvariant s -> schedulerInvariant (schedulerStep s e).
Proof.
  intros Hinv. pose proof Hinv as (Hs & Hidle & Hbusy).
  destruct e as [postId priority now |]; simpl.
  - unfold queueDownload.
    destruct (existsb _ (downloadQueue s)); [exact Hinv |].
    unfold processQueue. simpl.
    destruct (isProcessing s) eqn:Ep; simpl.
    + repeat split; simpl; try discriminate.
      * apply js_sort_queue_sorted.
      * intros _. apply Hbusy. reflexivity.
    + destruct (Nat.eqb _ 0) eqn:El.
      * apply Nat.eqb_eq in El. apply length_zero_iff_nil in El.
        destruct (Hidle eq_refl) as [Hq _]. rewrite Hq in El.
        discriminate El.
      * apply drainStep_invariant. simpl. apply js_sort_queue_sorted.
  - unfold runSettled. clear Hidle Hbusy. destruct (awaiting s);
      [apply drainStep_invariant; exact Hs | exact Hinv].
Qed.

Lemma runScheduler_invariant (events : list SchedulerEvent) :
  schedulerInvariant (runScheduler events).
Proof.
  unfold runScheduler.
  assert (H0 : schedulerInvariant initialScheduler).
  { repeat split; simpl; try constructor; discriminate. }
  revert H0. generalize initialScheduler.
  induction events as [| e events IH]; intros s Hs; simpl; [exact Hs |].
  apply IH. apply schedulerStep_invariant. exact Hs.
Qed.

Lemma queueDownload_present (s : Scheduler) (postId : string)
  (priority now : Z) :
  In postId (map qi_postId (downloadQueue s)) ->
  queueDownload postId priority now s = s.
Proof.
  intros H. unfold queueDownload.
  replace (existsb _ (downloadQueue s)) with true; [reflexivity |].
  symmetry. apply existsb_exists.
  apply in_map_iff in H. destruct H as (item & Hid & Hin).
  exists item. split; [exact Hin |]. apply String.eqb_eq. exact Hid.
Qed.

Lemma queueDownload_absent (s : Scheduler) (postId : string)
  (priority now : Z) :
  ~ In postId (map qi_postId (downloadQueue s)) ->
  queueDownload postId priority now s =
    processQueue
      (mkScheduler
         (js_sort queueCompare
            (downloadQueue s ++ [mkQueueItem postId priority now]))
         (isProcessing s) (awaiting s)).
Proof.
  intros H. unfold queueDownload.
  destruct (existsb _ (downloadQueue s)) eqn:E; [| reflexivity].
  exfalso. apply H. apply existsb_exists in E.
  destruct E as (item & Hin & Hid). apply String.eqb_eq in Hid.
  apply in_map_iff. exists item. split; assumption.
Qed.

(** C5. Enqueueing a post id that is already in the queue changes
    nothing, in any state.  After any sequence of enqueue calls and settled
    runs, the queue is ordered by descending priority and, within one
    priority, by ascending enqueue time; the drain loop takes the head of
    the queue, which is served before every item left in it; and a new
    item, stamped no earlier than the queued ones, goes behind every queued
    item of its own or a higher priority (first in, first out within a
    priority) or, when the loop is idle, is dispatched at once. *)
Theorem queue_idempotent_and_priority_fifo (events : list SchedulerEvent) :
  let s := runScheduler events in
  (forall (s0 : Scheduler) postId priority now,
      In postId (map qi_postId (downloadQueue s0)) ->
      queueDownload postId priority now s0 = s0) /\
  StronglySorted servedBefore (downloadQueue s) /\
  (forall item rest,
      downloadQueue s = item :: rest ->
      runSettled s = mkScheduler rest true (Some item) /\
      Forall (servedBefore item) rest) /\
  (forall postId priority now,
      ~ In postId (map qi_postId (downloadQueue s)) ->
      Forall (fun x => (qi_addedAt x <= now)%Z) (downloadQueue s) ->
      let item := mkQueueItem postId priority now in
      (isProcessing s = true ->
       queueDownload postId priority now s =
         mkScheduler
           (filter (fun x => (priority <=? qi_priority x)%Z)
              (downloadQueue s)
            ++ [item]
            ++ filter (fun x => (qi_priority x <? priority)%Z)
                 (downloadQueue s))
           true (awaiting s)) /\
      (isProcessing s = false ->
       queueDownload postId priority now s =
         mkScheduler [] true (Some item))).
Proof.
  intros s.
  destruct (runScheduler_invariant events) as (Hs & Hidle & Hbusy).
  fold s in Hs, Hidle, Hbusy.
  split; [intros s0 postId priority now; apply queueDownload_present |].
  split; [exact Hs |].
  split.
  - intros item rest Hq.
    assert (Hb : isProcessing s = true).
    { destruct (isProcessing s) eqn:E; [reflexivity |].
      destruct (Hidle eq_refl) as [Hnil _]. congruence. }
    split.
    + unfold runSettled.
      destruct (awaiting s) eqn:Ea; [| exfalso; apply (Hbusy Hb); reflexivity].
      unfold drainStep. rewrite Hq. reflexivity.
    + rewrite Hq in Hs. inversion Hs; assumption.
  - intros postId priority now Habsent Htime item.
    rewrite (queueDownload_absent _ _ _ _ Habsent).
    fold item. split; intros Hp.
    + unfold processQueue. simpl. rewrite Hp. simpl.
      f_equal. apply (js_sort_push_sorted (downloadQueue s) item Hs).
      exact Htime.
    + destruct (Hidle Hp) as [Hnil Haw]. rewrite Hnil, Haw, Hp. reflexivity.
Qed.

(** ** Invariants of monadic code

    [preserves P m]: if [P] holds before [m] it holds after it, whether [m]
    returns or throws. *)

Section Preserves.

Context {S : Type} (P : S -> Prop).

Lemma preserves_ret {A : Type} (a : A) : preserves P (ret a).
Proof. intros s H. exact H. Qed.

Lemma preserves_throw {A : Type} (e : string) : preserves P (@throw S A e).
Proof. intros s H. exact H. Qed.

Lemma preserves_gets {A : Type} (f : S -> A) : preserves P (gets f).
Proof. intros s H. exact H. Qed.

Lemma preserves_modify (f : S -> S) :
  (forall s, P s -> P (f s)) -> preserves P (modify f).
Proof. intros Hf s H. apply Hf. exact H. Qed.

Lemma preserves_bind {A B : Type} (m : M S A) (k : A -> M S B) :
  preserves P m -> (forall a, preserves P (k a)) -> preserves P (bind m k).
Proof.
  intros Hm Hk s H. unfold bind. specialize (Hm s H).
  destruct (m s) as [[a | e] s']; simpl in *; [apply Hk |]; exact Hm.
Qed.

Lemma preserves_try_catch {A : Type} (m : M S A) (h : string -> M S A) :
  preserves P m -> (forall e, preserves P (h e)) ->
  preserves P (try_catch m h).
Proof.
  intros Hm Hh s H. unfold try_catch. specialize (Hm s H).
  destruct (m s) as [[a | e] s']; simpl in *; [| apply Hh]; exact Hm.
Qed.

Lemma preserves_zoom {L A : Type} (m : M S A) :
  preserves P m -> preserves (fun ls : L * S => P (snd ls)) (zoom m).
Proof.
  intros Hm [l s] H. unfold zoom. simpl in *. specialize (Hm s H).
  destruct (m s) as [r s']. exact Hm.
Qed.

Lemma preserves_getLocal {L : Type} :
  preserves (fun ls : L * S => P (snd ls)) getLocal.
Proof. intros ls H. exact H. Qed.

Lemma preserves_setLocal {L : Type} (f : L -> L) :
  preserves (fun ls : L * S => P (snd ls)) (setLocal f).
Proof. intros ls H. exact H. Qed.

Lemma preserves_withLocals {L A : Type} (init : L) (m : M (L * S) A) :
  preserves (fun ls : L * S => P (snd ls)) m ->
  preserves P (withLocals init m).
Proof.
  intros Hm s H. unfold withLocals. specialize (Hm (init, s) H).
  destruct (m (init, s)) as [[a | e] [l s']]; exact Hm.
Qed.

End Preserves.

(** Break a goal [preserves P m] down along the structure of [m]. *)
Ltac preserves_step :=
  match goal with
  | |- preserves _ (bind _ _) => apply preserves_bind; [| intros ?]
  | |- preserves _ (try_catch _ _) => apply preserves_try_catch; [| intros ?]
  | |- preserves _ (ret _) => apply preserves_ret
  | |- preserves _ (throw _) => apply preserves_throw
  | |- preserves _ (gets _) => apply preserves_gets
  | |- preserves _ (zoom _) => apply preserves_zoom
  | |- preserves _ getLocal => apply preserves_getLocal
  | |- preserves _ (setLocal _) => apply preserves_setLocal
  | |- preserves _ (withLocals _ _) => apply preserves_withLocals
  | |- preserves _ (match ?x with _ => _ end) => destruct x
  | |- preserves _ (if ?x then _ else _) => destruct x
  end.

Lemma keeps_eq {V A : Type} (view : AppState -> V) (m : M AppState A)
  (s : AppState) : keeps view m -> view (snd (m s)) = view s.
Proof. intros H. apply (H (fun v => v = view s) s). reflexivity. Qed.

(** ** Which part of the state each operation can change *)

Section Frames.

Variable w : World.
Context {V : Type} (view : AppState -> V).

Hypothesis ignores_posts : forall v s, view (set_posts v s) = view s.
Hypothesis ignores_contents : forall v s, view (set_contents v s) = view s.
Hypothesis ignores_media : forall v s, view (set_media v s) = view s.
Hypothesis ignores_groups : forall v s, view (set_groups v s) = view s.
Hypothesis ignores_aiResults :
  forall v s, view (set_aiResults v s) = view s.
Hypothesis ignores_published :
  forall v s, view (set_published v s) = view s.
Hypothesis ignores_delivered :
  forall v s, view (set_delivered v s) = view s.
Hypothesis ignores_calls : forall v s, view (set_calls v s) = view s.
Hypothesis ignores_ticks : forall v s, view (set_ticks v s) = view s.

Ltac frame_modify :=
  apply preserves_modify; intros ? ?;
  rewrite ?ignores_posts, ?ignores_contents, ?ignores_media, ?ignores_groups,
    ?ignores_aiResults, ?ignores_published, ?ignores_delivered,
    ?ignores_calls, ?ignores_ticks;
  assumption.

Lemma preserves_zoom_view {L A : Type} (P : V -> Prop) (m : M AppState A) :
  preserves (fun s => P (view s)) m ->
  preserves (fun ls : L * AppState => P (view (snd ls))) (zoom m).
Proof. apply (preserves_zoom (fun s => P (view s))). Qed.

Lemma preserves_withLocals_view {L A : Type} (P : V -> Prop) (init : L)
  (m : M (L * AppState) A) :
  preserves (fun ls : L * AppState => P (view (snd ls))) m ->
  preserves (fun s => P (view s)) (withLocals init m).
Proof. apply (preserves_withLocals (fun s => P (view s))). Qed.

Ltac frame :=
  repeat first [preserves_step | apply preserves_zoom_view
               | apply preserves_withLocals_view | frame_modify].

Lemma keeps_getCurrentTimestamp : keeps view (getCurrentTimestamp w).
Proof.
  intros P s H. unfold getCurrentTimestamp. simpl.
  rewrite ignores_ticks. exact H.
Qed.

Lemma keeps_updatePost id input : keeps view (updatePost w id input).
Proof.
  intros P. unfold updatePost, getPostById. frame.
  apply keeps_getCurrentTimestamp.
Qed.

Lemma keeps_updatePostStatus id st : keeps view (updatePostStatus w id st).
Proof. apply keeps_updatePost. Qed.

Lemma keeps_createContent input : keeps view (createContent input).
Proof. intros P. unfold createContent. frame. Qed.

Lemma keeps_saveContent postId content :
  keeps view (saveContent postId content).
Proof.
  intros P. unfold saveContent, getContentByPostId, getPostById. frame.
  apply keeps_createContent.
Qed.

Lemma keeps_createMedia input : keeps view (createMedia input).
Proof.
  intros P s H. unfold createMedia. simpl. rewrite ignores_media. exact H.
Qed.

Lemma keeps_createMediaBatch inputs : keeps view (createMediaBatch inputs).
Proof.
  intros P. induction inputs as [| input rest IH]; simpl; frame.
  - apply keeps_createMedia.
  - exact IH.
Qed.

Lemma keeps_updateMediaStatus id st path size :
  keeps view (updateMediaStatus id st path size).
Proof.
  intros P. unfold updateMediaStatus, updateMedia, getMediaById. frame.
Qed.

Lemma keeps_logCall c : keeps view (logCall c).
Proof. intros P. unfold logCall. frame. Qed.

Lemma keeps_crawlPost url : keeps view (crawlPost w url).
Proof.
  intros P. unfold crawlPost, xhsApi_crawl. frame.
Qed.

Lemma keeps_isVideoWithinLimit url : keeps view (isVideoWithinLimit w url).
Proof.
  intros P. unfold isVideoWithinLimit, checkRemoteFileSize. frame.
Qed.

Lemma keeps_downloadFile url path : keeps view (downloadFile w url path).
Proof.
  intros P. unfold downloadFile, fs_downloadAsync. frame.
Qed.

Lemma keeps_forEachListener ls n : keeps view (forEachListener ls n).
Proof. intros P. induction ls as [| l rest IH]; simpl; frame. exact IH. Qed.

Lemma keeps_notifyProgress postId progress st :
  keeps view (notifyProgress postId progress st).
Proof.
  intros P. unfold notifyProgress. frame. apply keeps_forEachListener.
Qed.

Lemma keeps_getOrCreateGroup name : keeps view (getOrCreateGroup w name).
Proof.
  intros P. unfold getOrCreateGroup, getGroupByName, createGroup. frame.
  - apply keeps_getCurrentTimestamp.
  - intros s H. simpl. rewrite ignores_groups. exact H.
Qed.

Lemma keeps_createAIResult input : keeps view (createAIResult w input).
Proof.
  intros P. unfold createAIResult. frame. apply keeps_getCurrentTimestamp.
Qed.

Lemma keeps_analyzePost postId : keeps view (analyzePost w postId).
Proof.
  intros P.
  unfold analyzePost, getAIResultByPostId, getPostById, getContentByPostId,
    getMediaCountByPostId, xhsApi_analyze, incrementGroupPostCount.
  frame;
    first [apply keeps_logCall | apply keeps_getOrCreateGroup
          | apply keeps_createAIResult].
Qed.

Section MediaLoop.

Variable onProgress : float -> M AppState unit.
Hypothesis keeps_onProgress : forall f, keeps view (onProgress f).

Lemma keeps_mediaIteration postId len rec (P : V -> Prop) :
  preserves (fun ls : LoopVars * AppState => P (view (snd ls)))
    (mediaIteration w postId len onProgress rec).
Proof.
  unfold mediaIteration. frame;
    first [apply (keeps_isVideoWithinLimit _ P)
          | apply (keeps_updateMediaStatus _ _ _ _ P)
          | apply (keeps_downloadFile _ _ P)
          | apply (keeps_onProgress _ P)].
Qed.

Lemma keeps_mediaLoop postId len records (P : V -> Prop) :
  preserves (fun ls : LoopVars * AppState => P (view (snd ls)))
    (mediaLoop w postId len onProgress records).
Proof.
  induction records as [| rec rest IH]; simpl; frame.
  - apply keeps_mediaIteration.
  - exact IH.
Qed.

Lemma keeps_downloadMedia postId items :
  keeps view (downloadMedia w postId items onProgress).
Proof.
  intros P. unfold downloadMedia. frame.
  - apply keeps_onProgress.
  - apply keeps_createMediaBatch.
  - apply keeps_mediaLoop.
Qed.

End MediaLoop.

Lemma keeps_downloadPost postId : keeps view (downloadPost w postId).
Proof.
  intros P. unfold downloadPost, downloadPostTry, downloadPostCatch,
    getPostById. frame;
    first [apply keeps_updatePostStatus | apply keeps_notifyProgress
          | apply keeps_crawlPost | apply keeps_saveContent
          | apply keeps_analyzePost | idtac].
  apply keeps_downloadMedia. intros f. apply keeps_notifyProgress.
Qed.

End Frames.

(** ** Runs in which no listener throws *)

Lemma forEachListener_quiet (ls : list Listener) (n : Notification)
  (s : AppState) :
  (forall l, In l ls -> onNotify l n = None) ->
  forEachListener ls n s =
    (Ok tt,
     set_delivered (delivered s ++ map (fun l => (listenerId l, n)) ls) s).
Proof.
  revert s. induction ls as [| l rest IH]; intros s Hq; simpl.
  - rewrite app_nil_r. destruct s; reflexivity.
  - unfold bind, modify. rewrite (Hq l (or_introl eq_refl)).
    rewrite IH by (intros l' Hl'; apply Hq; right; exact Hl').
    simpl. rewrite <- app_assoc. reflexivity.
Qed.

Lemma notifyProgress_quiet (postId : string) (progress : float)
  (st : PostDownloadStatus) (s : AppState) :
  quiet s ->
  notifyProgress postId progress st s =
    (Ok tt, afterNotify (mkNotification postId progress st) s).
Proof.
  intros Hq. unfold notifyProgress, bind, modify, gets. simpl.
  rewrite forEachListener_quiet by (intros l Hl; apply Hq; exact Hl).
  reflexivity.
Qed.

Lemma quiet_same_listeners (s s' : AppState) :
  progressListeners s' = progressListeners s -> quiet s -> quiet s'.
Proof. unfold quiet. intros E H. rewrite E. exact H. Qed.

Lemma updatePostStatus_eq (w : World) (id : string)
  (st : PostDownloadStatus) (s : AppState) :
  exists r,
    updatePostStatus w id st s = (Ok r, afterUpdatePostStatus w id st s).
Proof. eexists. reflexivity. Qed.

Lemma find_map_update {A : Type} (p : A -> bool) (f : A -> A) (l : list A) :
  (forall x, p (f x) = p x) ->
  find p (map (fun x => if p x then f x else x) l) = option_map f (find p l).
Proof.
  intros Hp. induction l as [| x l IH]; simpl; [reflexivity |].
  destruct (p x) eqn:E.
  - rewrite Hp, E. reflexivity.
  - rewrite E. exact IH.
Qed.

Lemma postStatus_afterUpdate (w : World) (id : string)
  (st : PostDownloadStatus) (s : AppState) (p : Post.t) :
  find (fun p => String.eqb (Post.id p) id) (posts s) = Some p ->
  postStatus id (afterUpdatePostStatus w id st s) = Some st.
Proof.
  intros H. unfold postStatus, afterUpdatePostStatus. simpl.
  rewrite (find_map_update (fun p => String.eqb (Post.id p) id)).
  - rewrite H. reflexivity.
  - intros x. reflexivity.
Qed.

Lemma crawlPost_eq (w : World) (url : string) (s : AppState) :
  crawlPost w url s =
    (Ok match crawlSucceeds w url with
        | Some data => mkCrawlResult true (Some data) None
        | None =>
            mkCrawlResult false None
              (Some match api_crawl w url with
                    | ApiThrows message => message
                    | ApiReturns _ _ => "Crawl failed: no data returned"%string
                    end)
        end,
     set_calls (calls s ++ [CallCrawl url]) s).
Proof.
  unfold crawlPost, crawlSucceeds, xhsApi_crawl, try_catch, bind, logCall,
    modify, ret, throw.
  destruct (api_crawl w url) as [message | [|] [data |]]; reflexivity.
Qed.

(** ** Stepping through monadic code *)

Lemma bind_ok {S A B : Type} (m : M S A) (k : A -> M S B) (s s1 : S) (a : A) :
  m s = (Ok a, s1) -> bind m k s = k a s1.
Proof. intros H. unfold bind. rewrite H. reflexivity. Qed.

Lemma bind_throw {S A B : Type} (m : M S A) (k : A -> M S B) (s s1 : S)
  (e : string) :
  m s = (Throw e, s1) -> bind m k s = (Throw e, s1).
Proof. intros H. unfold bind. rewrite H. reflexivity. Qed.

Lemma try_catch_ok {S A : Type} (m : M S A) (h : string -> M S A) (s s1 : S)
  (a : A) :
  m s = (Ok a, s1) -> try_catch m h s = (Ok a, s1).
Proof. intros H. unfold try_catch. rewrite H. reflexivity. Qed.

Lemma try_catch_throw {S A : Type} (m : M S A) (h : string -> M S A)
  (s s1 : S) (e : string) :
  m s = (Throw e, s1) -> try_catch m h s = h e s1.
Proof. intros H. unfold try_catch. rewrite H. reflexivity. Qed.

(** The run of a post whose crawl fails, when no listener throws. *)
Lemma downloadPost_quiet_failure (w : World) (s : AppState)
  (postId : string) (post : Post.t) :
  quiet s ->
  find (fun p => String.eqb (Post.id p) postId) (posts s) = Some post ->
  crawlSucceeds w (Post.url post) = None ->
  exists s',
    downloadPost w postId s = (Ok false, s') /\
    postStatus postId s' = Some post_failed /\
    media s' = media s /\
    published s' =
      published s ++ [mkNotification postId 0%float post_downloading;
                      mkNotification postId 0%float post_failed].
Proof.
  intros Hq Hfind Hcrawl.
  eexists. split; [| split; [| split]].
  - unfold downloadPost.
    erewrite bind_ok by (unfold getPostById, gets; rewrite Hfind; reflexivity).
    destruct (updatePostStatus_eq w postId post_downloading s) as [r1 E1].
    erewrite bind_ok by exact E1.
    erewrite bind_ok
      by (apply notifyProgress_quiet; eapply quiet_same_listeners;
          [| exact Hq]; reflexivity).
    apply try_catch_ok. unfold downloadPostTry.
    erewrite bind_ok by apply crawlPost_eq.
    rewrite Hcrawl. cbn [cr_success cr_content].
    match goal with
    | |- bind (updatePostStatus w postId post_failed) _ ?s0 = _ =>
        destruct (updatePostStatus_eq w postId post_failed s0) as [r2 E2]
    end.
    erewrite bind_ok by exact E2.
    erewrite bind_ok
      by (apply notifyProgress_quiet; eapply quiet_same_listeners;
          [| exact Hq]; reflexivity).
    reflexivity.
  - unfold postStatus. simpl.
    rewrite (find_map_update (fun p => String.eqb (Post.id p) postId))
      by reflexivity.
    rewrite (find_map_update (fun p => String.eqb (Post.id p) postId))
      by reflexivity.
    rewrite Hfind. reflexivity.
  - reflexivity.
  - simpl. rewrite <- app_assoc. reflexivity.
Qed.


(** ** The media loop, item by item *)

Lemma update_nth_twice {A : Type} (n : nat) (f g : A -> A) (l : list A) :
  update_nth n g (update_nth n f l) = update_nth n (fun x => g (f x)) l.
Proof.
  revert n. induction l as [| x l IH]; intros [| n]; simpl;
    try reflexivity.
  rewrite IH. reflexivity.
Qed.

Lemma update_nth_ext {A : Type} (n : nat) (f g : A -> A) (l : list A) :
  (forall x, f x = g x) -> update_nth n f l = update_nth n g l.
Proof.
  intros H. revert n. induction l as [| x l IH]; intros [| n]; simpl;
    try reflexivity.
  - rewrite H. reflexivity.
  - rewrite IH. reflexivity.
Qed.

Lemma itemStatus_itemUpdate (w : World) (postId : string) (m row : Media.t) :
  Media.downloadStatus (itemUpdate w postId m row) = itemStatus w postId m.
Proof.
  unfold itemUpdate, itemStatus.
  destruct (oversized w m); [reflexivity |].
  destruct (transferred w postId m) as [[uri size] |]; reflexivity.
Qed.

(** One iteration of the loop when no listener throws: the row of the item
    is brought to [itemStatus], the calls of the item are made, one
    notification is published, and a failure is recorded exactly when the
    item ends [failed]. *)
Lemma mediaIteration_quiet (w : World) (postId : string) (len : float)
  (g : float -> float) (st : PostDownloadStatus) (id : nat) (m : Media.t)
  (v : LoopVars) (s : AppState) :
  quiet s ->
  exists s',
    mediaIteration w postId len
      (fun f => notifyProgress postId (g f) st) (id, m) (v, s) =
      (Ok tt,
       (mkLoopVars (completedCount v + 1)%float
          (hasFailures v
           || MediaDownloadStatus_eqb (itemStatus w postId m) media_failed),
        s')) /\
    media s' = update_nth id (itemUpdate w postId m) (media s) /\
    calls s' = calls s ++ itemCalls w postId m /\
    published s' =
      published s
      ++ [mkNotification postId (g ((completedCount v + 1) / len)%float) st].
Proof.
  intros Hq.
  assert (Hl : forall n l, In l (progressListeners s) -> onNotify l n = None)
    by (intros n l Hin; apply Hq; exact Hin).
  unfold mediaIteration, itemStatus, itemUpdate, itemCalls, oversized,
    transferred.
  unfold isVideoWithinLimit, checkRemoteFileSize, downloadFile,
    fs_downloadAsync, updateMediaStatus, updateMedia, getMediaById, logCall.
  unfold try_catch, bind, zoom, modify, gets, ret, throw, setLocal, getLocal.
  cbn [fst snd].
  destruct (Media.type m);
    [| destruct (head_contentLength w (Media.remoteUrl m)) as [n |];
       [destruct (js_le_limit n) |]];
    cbn [negb];
    try (destruct (fs_download w (Media.remoteUrl m) _)
           as [msg | | [| c uri] size]);
    cbn;
    rewrite forEachListener_quiet by (apply Hl);
    (eexists; split;
     [unfold incrCompleted, markFailure; cbn;
      rewrite ?orb_true_r, ?orb_false_r; reflexivity |]);
    cbn; rewrite ?update_nth_twice, <- ?app_assoc; repeat split.
Qed.

Lemma mediaLoop_quiet (w : World) (postId : string) (len : float)
  (g : float -> float) (st : PostDownloadStatus)
  (records : list MediaRecord) (v : LoopVars) (s : AppState) :
  quiet s ->
  exists v' s',
    mediaLoop w postId len (fun f => notifyProgress postId (g f) st)
      records (v, s) = (Ok tt, (v', s')) /\
    hasFailures v' =
      hasFailures v
      || existsb (fun r => MediaDownloadStatus_eqb
                             (itemStatus w postId (snd r)) media_failed)
           records /\
    media s' = loopTable w postId records (media s) /\
    calls s' =
      calls s ++ flat_map (fun r => itemCalls w postId (snd r)) records /\
    published s' =
      published s
      ++ loopNotifications postId g st len (completedCount v)
           (List.length records).
Proof.
  revert v s. induction records as [| [id m] rest IH]; intros v s Hq.
  - exists v, s. simpl. rewrite orb_false_r, !app_nil_r.
    repeat split; reflexivity.
  - destruct (mediaIteration_quiet w postId len g st id m v s Hq)
      as (s1 & Hrun & Hmedia & Hcalls & Hpub).
    assert (Hq1 : quiet s1).
    { eapply quiet_same_listeners; [| exact Hq].
      pose proof (keeps_mediaIteration w progressListeners
                    (fun v s => eq_refl) (fun v s => eq_refl)
                    (fun f => notifyProgress postId (g f) st)) as K.
      specialize (K (fun f => keeps_notifyProgress progressListeners
                                (fun v s => eq_refl) (fun v s => eq_refl)
                                postId (g f) st)).
      specialize (K postId len (id, m)
                    (fun ls => ls = progressListeners s) (v, s) eq_refl).
      rewrite Hrun in K. exact K. }
    destruct (IH (mkLoopVars (completedCount v + 1)%float
                    (hasFailures v
                     || MediaDownloadStatus_eqb (itemStatus w postId m)
                          media_failed)) s1 Hq1)
      as (v' & s' & Hloop & Hfail & Hm & Hc & Hp).
    exists v', s'. simpl mediaLoop.
    erewrite bind_ok by exact Hrun.
    split; [exact Hloop |].
    rewrite Hfail, Hm, Hc, Hp, Hmedia, Hcalls, Hpub. simpl.
    rewrite orb_assoc, <- !app_assoc. repeat split.
Qed.

(** ** [downloadMedia] when no listener throws *)

Lemma createMediaBatch_eq (inputs : list CreateMediaInput) (s : AppState) :
  createMediaBatch inputs s =
    (Ok (recordsFrom (List.length (media s)) (map newRow inputs)),
     set_media (media s ++ map newRow inputs) s).
Proof.
  revert s. induction inputs as [| input rest IH]; intros s.
  - simpl. unfold ret, recordsFrom. simpl. rewrite app_nil_r.
    destruct s; reflexivity.
  - simpl createMediaBatch.
    erewrite bind_ok by reflexivity.
    erewrite bind_ok by apply IH.
    unfold ret, recordsFrom. simpl. rewrite length_app. simpl.
    rewrite Nat.add_1_r, <- app_assoc. reflexivity.
Qed.

Lemma update_nth_app_here {A : Type} (f : A -> A) (old : list A) (x : A)
  (rest : list A) :
  update_nth (List.length old) f (old ++ x :: rest) = old ++ f x :: rest.
Proof.
  induction old as [| y old IH]; simpl; [reflexivity |].
  rewrite IH. reflexivity.
Qed.

Lemma loopTable_new_rows (w : World) (postId : string)
  (rows old : list Media.t) :
  loopTable w postId (recordsFrom (List.length old) rows) (old ++ rows) =
    old ++ map (fun m => itemUpdate w postId m m) rows.
Proof.
  revert old. induction rows as [| r rows IH]; intros old;
    [reflexivity |].
  unfold loopTable, recordsFrom in *. simpl.
  rewrite update_nth_app_here.
  specialize (IH (old ++ [itemUpdate w postId r r])).
  rewrite length_app in IH. simpl in IH. rewrite Nat.add_1_r in IH.
  rewrite <- !app_assoc in IH. simpl in IH. exact IH.
Qed.


Lemma recordsFrom_length (n0 : nat) (rows : list Media.t) :
  List.length (recordsFrom n0 rows) = List.length rows.
Proof.
  unfold recordsFrom, MediaRecord.
  rewrite length_combine, length_seq. apply Nat.min_id.
Qed.

Lemma existsb_recordsFrom (f : Media.t -> bool) (n0 : nat)
  (rows : list Media.t) :
  existsb (fun r => f (snd r)) (recordsFrom n0 rows) = existsb f rows.
Proof.
  unfold recordsFrom. revert n0.
  induction rows as [| r rows IH]; intros n0; simpl; [reflexivity |].
  rewrite IH. reflexivity.
Qed.

Lemma flat_map_recordsFrom {B : Type} (f : Media.t -> list B) (n0 : nat)
  (rows : list Media.t) :
  flat_map (fun r => f (snd r)) (recordsFrom n0 rows) = flat_map f rows.
Proof.
  unfold recordsFrom. revert n0.
  induction rows as [| r rows IH]; intros n0; simpl; [reflexivity |].
  rewrite IH. reflexivity.
Qed.

Lemma downloadMedia_quiet (w : World) (postId : string)
  (items : list CrawledMedia) (g : float -> float) (st : PostDownloadStatus)
  (s : AppState) :
  quiet s ->
  let rows := crawledRows postId items in
  exists s',
    downloadMedia w postId items (fun f => notifyProgress postId (g f) st) s =
      (Ok (negb (existsb (fun m => MediaDownloadStatus_eqb
                                     (itemStatus w postId m) media_failed)
                   rows)), s') /\
    media s' = media s ++ map (fun m => itemUpdate w postId m m) rows /\
    calls s' = calls s ++ flat_map (itemCalls w postId) rows /\
    published s' =
      published s ++ mediaNotifications postId g st (List.length rows).
Proof.
  intros Hq rows. unfold downloadMedia.
  destruct items as [| item items].
  - erewrite bind_ok by (apply notifyProgress_quiet; exact Hq).
    eexists. split; [reflexivity |]. simpl. rewrite !app_nil_r.
    repeat split.
  - remember (item :: items) as its eqn:Eits.
    erewrite bind_ok by apply createMediaBatch_eq.
    fold (crawledRows postId its). fold rows.
    set (s0 := set_media (media s ++ rows) s).
    assert (Hq0 : quiet s0)
      by (eapply quiet_same_listeners; [| exact Hq]; reflexivity).
    destruct (mediaLoop_quiet w postId
                (float_of_nat
                   (List.length (recordsFrom (List.length (media s)) rows)))
                g st (recordsFrom (List.length (media s)) rows)
                (mkLoopVars 0%float false) s0 Hq0)
      as (v' & s' & Hloop & Hfail & Hm & Hc & Hp).
    exists s'. split.
    + erewrite bind_ok
        by (unfold withLocals; rewrite Hloop; reflexivity).
      unfold ret. cbn [snd]. rewrite Hfail. simpl.
      rewrite (existsb_recordsFrom
                 (fun m => MediaDownloadStatus_eqb (itemStatus w postId m)
                             media_failed)).
      reflexivity.
    + rewrite Hm, Hc, Hp. subst s0. simpl.
      rewrite loopTable_new_rows, recordsFrom_length.
      rewrite (flat_map_recordsFrom (itemCalls w postId)).
      repeat split.
      unfold mediaNotifications.
      destruct (List.length rows) eqn:El; [| reflexivity].
      subst rows its. discriminate El.
Qed.

(** ** The steps around the media loop *)

Lemma keeps_run {V A : Type} (view : AppState -> V) (m : M AppState A)
  (s s' : AppState) (r : Result A) :
  keeps view m -> m s = (r, s') -> view s' = view s.
Proof.
  intros K E. pose proof (keeps_eq view m s K) as H.
  rewrite E in H. exact H.
Qed.

Lemma saveContent_returns (postId : string) (content : CrawledContent)
  (s : AppState) :
  exists s', saveContent postId content s = (Ok tt, s').
Proof.
  unfold saveContent, getContentByPostId, createContent, getPostById, bind,
    gets, modify, ret.
  destruct (find _ (contents s)); [eexists; reflexivity |].
  destruct (cc_title content); eexists; reflexivity.
Qed.

(** [analyzePost] catches whatever it meets: it always returns. *)
Lemma analyzePost_returns (w : World) (postId : string) (s : AppState) :
  exists r s', analyzePost w postId s = (Ok r, s').
Proof.
  unfold analyzePost, try_catch, ret.
  match goal with
  | |- context [match ?m s with _ => _ end] =>
      destruct (m s) as [[r | e] s']
  end; eexists; eexists; reflexivity.
Qed.

Lemma analysis_step_returns (w : World) (postId : string) (s : AppState) :
  exists s',
    try_catch (bind (analyzePost w postId) (fun _ => ret tt))
      (fun _ => ret tt) s = (Ok tt, s') /\
    s' = snd (analyzePost w postId s).
Proof.
  destruct (analyzePost_returns w postId s) as (r & s' & E).
  exists s'. split.
  - apply try_catch_ok. erewrite bind_ok by exact E. reflexivity.
  - rewrite E. reflexivity.
Qed.

(** The only remote call of [analyzePost] is the analyze request. *)
Lemma analyzePost_calls (w : World) (postId : string) (s : AppState) :
  exists l,
    calls (snd (analyzePost w postId s)) = calls s ++ l /\
    forallb isAnalyzeCall l = true.
Proof.
  set (P := fun s' : AppState =>
              exists l, calls s' = calls s ++ l /\
                        forallb isAnalyzeCall l = true).
  assert (K : preserves P (analyzePost w postId)).
  { assert (Kv : forall A (m : M AppState A), keeps calls m -> preserves P m).
    { intros A m Km. apply (Km (fun c => exists l, c = calls s ++ l /\
                                         forallb isAnalyzeCall l = true)). }
    unfold analyzePost, xhsApi_analyze.
    repeat first
      [ preserves_step
      | apply Kv; unfold getAIResultByPostId, getPostById,
          getContentByPostId, getMediaCountByPostId;
        first [ apply preserves_gets
              | apply keeps_getOrCreateGroup; reflexivity
              | apply keeps_createAIResult; reflexivity
              | intros Q; unfold incrementGroupPostCount;
                apply preserves_modify; intros sx Hx; exact Hx ] ].
    all: unfold logCall; apply preserves_modify.
    all: intros sx (l & Hl & Hf); simpl; rewrite Hl, <- app_assoc.
    all: eexists; split; [reflexivity |].
    all: rewrite forallb_app, Hf; reflexivity. }
  apply K. exists []. rewrite app_nil_r. split; reflexivity.
Qed.

(** ** A whole run when the crawl succeeds and no listener throws *)

Lemma downloadPost_quiet_success (w : World) (s : AppState)
  (postId : string) (post : Post.t) (content : CrawledContent) :
  quiet s ->
  find (fun p => String.eqb (Post.id p) postId) (posts s) = Some post ->
  crawlSucceeds w (Post.url post) = Some content ->
  let rows := crawledRows postId (cc_media content) in
  let finalStatus :=
    if existsb (fun m => MediaDownloadStatus_eqb (itemStatus w postId m)
                           media_failed) rows
    then post_partial else post_completed in
  exists s' extra,
    downloadPost w postId s = (Ok true, s') /\
    postStatus postId s' = Some finalStatus /\
    media s' = media s ++ map (fun m => itemUpdate w postId m m) rows /\
    calls s' =
      calls s ++ [CallCrawl (Post.url post)]
      ++ flat_map (itemCalls w postId) rows ++ extra /\
    forallb isAnalyzeCall extra = true /\
    published s' =
      published s ++ runNotifications postId (List.length rows) finalStatus /\
    progressListeners s' = progressListeners s.
Proof.
  intros Hq Hfind Hcrawl rows finalStatus.
  unfold downloadPost.
  erewrite bind_ok by (unfold getPostById, gets; rewrite Hfind; reflexivity).
  destruct (updatePostStatus_eq w postId post_downloading s) as [r1 E1].
  erewrite bind_ok by exact E1.
  set (s1 := afterUpdatePostStatus w postId post_downloading s).
  assert (Hq1 : quiet s1)
    by (eapply quiet_same_listeners; [| exact Hq]; reflexivity).
  erewrite bind_ok by (apply notifyProgress_quiet; exact Hq1).
  set (s2 := afterNotify _ s1).
  cut (exists s' extra,
          downloadPostTry w postId post s2 = (Ok true, s') /\
          postStatus postId s' = Some finalStatus /\
          media s' = media s ++ map (fun m => itemUpdate w postId m m) rows /\
          calls s' =
            calls s ++ [CallCrawl (Post.url post)]
            ++ flat_map (itemCalls w postId) rows ++ extra /\
          forallb isAnalyzeCall extra = true /\
          published s' =
            published s
            ++ runNotifications postId (List.length rows) finalStatus /\
          progressListeners s' = progressListeners s).
  { intros (s' & extra & Hrun & Hrest). exists s', extra.
    split; [apply try_catch_ok; exact Hrun | exact Hrest]. }
  unfold downloadPostTry.
  erewrite bind_ok by apply crawlPost_eq.
  rewrite Hcrawl. cbn [cr_success cr_content].
  set (s3 := set_calls _ s2).
  assert (Hq3 : quiet s3)
    by (eapply quiet_same_listeners; [| exact Hq]; reflexivity).
  erewrite bind_ok by (apply notifyProgress_quiet; exact Hq3).
  set (s4 := afterNotify _ s3).
  destruct (saveContent_returns postId content s4) as [s5 E5].
  erewrite bind_ok by exact E5.
  assert (F5 : forall V (view : AppState -> V),
             (forall v s, view (set_contents v s) = view s) ->
             view s5 = view s4).
  { intros V view Hv.
    eapply keeps_run; [apply (keeps_saveContent view Hv) | exact E5]. }
  assert (Hq5 : quiet s5).
  { eapply quiet_same_listeners; [| exact Hq].
    rewrite (F5 _ progressListeners) by reflexivity. reflexivity. }
  erewrite bind_ok by (apply notifyProgress_quiet; exact Hq5).
  set (s6 := afterNotify _ s5).
  assert (Hq6 : quiet s6)
    by (eapply quiet_same_listeners; [| exact Hq5]; reflexivity).
  destruct (downloadMedia_quiet w postId (cc_media content) totalProgress
              post_downloading s6 Hq6)
    as (s7 & E7 & Hm7 & Hc7 & Hp7).
  fold rows in E7, Hm7, Hc7, Hp7.
  unfold totalProgress in E7 at 1.
  erewrite bind_ok by exact E7.
  assert (F7 : forall V (view : AppState -> V),
             (forall v s, view (set_media v s) = view s) ->
             (forall v s, view (set_calls v s) = view s) ->
             (forall v s, view (set_published v s) = view s) ->
             (forall v s, view (set_delivered v s) = view s) ->
             view s7 = view s6).
  { intros V view H1 H2 H3 H4.
    eapply keeps_run; [| exact E7].
    apply keeps_downloadMedia; try assumption.
    intros f. apply keeps_notifyProgress; assumption. }
  assert (Hq7 : quiet s7).
  { eapply quiet_same_listeners; [| exact Hq6].
    apply (F7 _ progressListeners); reflexivity. }
  erewrite bind_ok by (apply notifyProgress_quiet; exact Hq7).
  set (s8 := afterNotify _ s7).
  destruct (analysis_step_returns w postId s8) as (s9 & E9 & Hs9).
  erewrite bind_ok by exact E9.
  assert (F9 : forall V (view : AppState -> V),
             (forall v s, view (set_groups v s) = view s) ->
             (forall v s, view (set_aiResults v s) = view s) ->
             (forall v s, view (set_calls v s) = view s) ->
             (forall v s, view (set_ticks v s) = view s) ->
             view s9 = view s8).
  { intros V view H1 H2 H3 H4. rewrite Hs9.
    apply keeps_eq. apply keeps_analyzePost; assumption. }
  destruct (analyzePost_calls w postId s8) as (extra & Hextra & Hfa).
  rewrite <- Hs9 in Hextra.
  assert (Hq9 : quiet s9).
  { eapply quiet_same_listeners; [| exact Hq7].
    rewrite (F9 _ progressListeners) by reflexivity. reflexivity. }
  cbv zeta.
  set (st := if negb _ then post_completed else post_partial).
  assert (Est : st = finalStatus).
  { unfold st, finalStatus. destruct (existsb _ rows); reflexivity. }
  destruct (updatePostStatus_eq w postId st s9) as [r10 E10].
  erewrite bind_ok by exact E10.
  set (s10 := afterUpdatePostStatus w postId st s9).
  assert (Hq10 : quiet s10)
    by (eapply quiet_same_listeners; [| exact Hq9]; reflexivity).
  erewrite bind_ok by (apply notifyProgress_quiet; exact Hq10).
  exists (afterNotify (mkNotification postId 1%float st) s10), extra.
  split; [reflexivity |].
  assert (Hposts9 : posts s9 = posts s1).
  { rewrite (F9 _ posts) by reflexivity. simpl.
    rewrite (F7 _ posts) by reflexivity. simpl.
    rewrite (F5 _ posts) by reflexivity. reflexivity. }
  split.
  { rewrite <- Est. unfold postStatus. simpl. rewrite Hposts9. simpl.
    rewrite !(find_map_update (fun p => String.eqb (Post.id p) postId))
      by reflexivity.
    rewrite Hfind. reflexivity. }
  split.
  { simpl. rewrite (F9 _ media) by reflexivity. simpl. rewrite Hm7. simpl.
    rewrite (F5 _ media) by reflexivity. reflexivity. }
  split.
  { simpl. rewrite Hextra. simpl. rewrite Hc7. simpl.
    rewrite (F5 _ calls) by reflexivity. simpl.
    rewrite <- !app_assoc. reflexivity. }
  split; [exact Hfa |].
  split.
  { simpl. rewrite (F9 _ published) by reflexivity. simpl. rewrite Hp7.
    simpl. rewrite (F5 _ published) by reflexivity. simpl.
    unfold runNotifications. rewrite Est, <- !app_assoc. reflexivity. }
  simpl. rewrite (F9 _ progressListeners) by reflexivity. simpl.
  rewrite (F7 _ progressListeners) by reflexivity. simpl.
  rewrite (F5 _ progressListeners) by reflexivity. reflexivity.
Qed.

(** ** What a run has added to the tables and logs *)

Lemma skipn_app_exact {A : Type} (l l' : list A) :
  skipn (List.length l) (l ++ l') = l'.
Proof. induction l as [| x l IH]; simpl; [reflexivity | exact IH]. Qed.






(** ** Local paths identify the items of a post *)

Lemma append_inj_l (a b c : string) : (a ++ b = a ++ c)%string -> b = c.
Proof.
  induction a as [| x a IH]; simpl; intros H; [exact H |].
  injection H as H. apply IH. exact H.
Qed.

Lemma length_append (a b : string) :
  String.length (a ++ b) = String.length a + String.length b.
Proof.
  induction a as [| x a IH]; simpl; [reflexivity | rewrite IH; reflexivity].
Qed.

Lemma append_assoc (a b c : string) :
  ((a ++ b) ++ c = a ++ (b ++ c))%string.
Proof.
  induction a as [| x a IH]; simpl; [reflexivity | rewrite IH; reflexivity].
Qed.

Lemma append_inj_r (a b c : string) : (a ++ c = b ++ c)%string -> a = b.
Proof.
  revert b. induction a as [| x a IH]; intros [| y b] H; simpl in H.
  - reflexivity.
  - apply (f_equal String.length) in H. simpl in H.
    rewrite length_append in H. lia.
  - apply (f_equal String.length) in H. simpl in H.
    rewrite length_append in H. lia.
  - injection H as Hx H. subst y. rewrite (IH b H). reflexivity.
Qed.

Lemma string_of_index_inj (i j : nat) :
  NilZero.string_of_uint (Nat.to_uint i) =
  NilZero.string_of_uint (Nat.to_uint j) -> i = j.
Proof.
  intros H.
  assert (Hn : forall n, Nat.to_uint n <> Decimal.Nil).
  { intros n E.
    assert (n = 0) by (rewrite <- (DecimalNat.Unsigned.of_to n), E;
                       reflexivity).
    subst n. discriminate E. }
  apply (f_equal NilZero.uint_of_string) in H.
  rewrite !NilZero.usu in H by apply Hn.
  injection H as H. apply DecimalNat.Unsigned.to_uint_inj. exact H.
Qed.

Lemma getMediaPath_inj (w : World) (postId : string) (i j : nat)
  (ty ty' : MediaType) :
  getMediaPath w postId i ty = getMediaPath w postId j ty' ->
  i = j /\ ty = ty'.
Proof.
  unfold getMediaPath, getMediaDirectory, generateMediaFilename.
  intros H.
  assert (Hty : ty = ty').
  { destruct ty, ty'; try reflexivity;
      rewrite !append_assoc in H; apply append_inj_l in H;
      discriminate H. }
  subst ty'. split; [| reflexivity].
  destruct ty; rewrite !append_assoc in H;
    apply append_inj_l, append_inj_l, append_inj_l in H;
    simpl in H; injection H as H;
    apply append_inj_r in H; apply string_of_index_inj; exact H.
Qed.

Lemma nth_error_mapi_from {A B : Type} (f : A -> nat -> B) (k i : nat)
  (l : list A) :
  nth_error (mapi_from f k l) i =
    option_map (fun x => f x (k + i)) (nth_error l i).
Proof.
  revert k i. induction l as [| x l IH]; intros k [| i]; simpl;
    try reflexivity.
  - rewrite Nat.add_0_r. reflexivity.
  - rewrite IH, Nat.add_succ_r. reflexivity.
Qed.

Lemma nth_error_crawledRows (postId : string) (items : list CrawledMedia)
  (i : nat) :
  nth_error (crawledRows postId items) i =
    option_map (rowOf postId i) (nth_error items i).
Proof.
  unfold crawledRows. rewrite nth_error_map, nth_error_mapi_from.
  destruct (nth_error items i); reflexivity.
Qed.

Lemma In_crawledRows (postId : string) (items : list CrawledMedia)
  (row : Media.t) :
  In row (crawledRows postId items) ->
  exists i item, nth_error items i = Some item /\ row = rowOf postId i item.
Proof.
  intros H. apply In_nth_error in H. destruct H as [i Hi].
  rewrite nth_error_crawledRows in Hi.
  destruct (nth_error items i) as [item |] eqn:E; [| discriminate Hi].
  injection Hi as Hi. exists i, item. split; [exact E | symmetry; exact Hi].
Qed.

(** ** [getDownloadStatus] *)

Lemma filter_insert_sorted_length {A : Type} (leb : A -> A -> bool)
  (f : A -> bool) (x : A) (l : list A) :
  List.length (filter f (insert_sorted leb x l)) =
  List.length (filter f (x :: l)).
Proof.
  induction l as [| y l IH]; [reflexivity |].
  simpl insert_sorted. destruct (leb x y); [reflexivity |].
  simpl in *. destruct (f y), (f x); simpl in *; rewrite IH; reflexivity.
Qed.

Lemma filter_stable_sort_length {A : Type} (leb : A -> A -> bool)
  (f : A -> bool) (l : list A) :
  List.length (filter f (stable_sort leb l)) = List.length (filter f l).
Proof.
  induction l as [| x l IH]; [reflexivity |].
  simpl stable_sort. rewrite filter_insert_sorted_length.
  simpl. destruct (f x); simpl; rewrite IH; reflexivity.
Qed.

Lemma filter_filter {A : Type} (f g : A -> bool) (l : list A) :
  filter f (filter g l) = filter (fun x => g x && f x) l.
Proof.
  induction l as [| x l IH]; [reflexivity |].
  simpl. destruct (g x); simpl; [destruct (f x) |]; rewrite IH; reflexivity.
Qed.

(** [mediaFailed] is the number of records of the post whose status is
    [failed]: a record in any other status, [skipped] included, is not
    counted. *)
Lemma getDownloadStatus_mediaFailed (postId : string) (s s' : AppState)
  (st : DownloadStatus) :
  getDownloadStatus postId s = (Ok (Some st), s') ->
  mediaFailed st =
    List.length
      (filter (fun m => String.eqb (Media.postId m) postId && isFailedMedia m)
         (media s)).
Proof.
  unfold getDownloadStatus, getPostById, getMediaByPostId, bind, gets, ret.
  destruct (find _ (posts s)) as [post |]; [| discriminate].
  intros H. injection H as H _. subst st. simpl.
  rewrite filter_stable_sort_length, filter_filter. reflexivity.
Qed.

(** C4, amended. In a run whose crawl succeeds and in which no listener
    throws, a video whose remote size is known from the HEAD probe and
    exceeds [MAX_VIDEO_SIZE_BYTES] ends [skipped] with no local path, no
    transfer to its local path is attempted, and [getDownloadStatus]
    counts as failed only records whose status is [failed], so not this
    one. *)
Theorem probed_oversized_video_is_skipped (w : World) (s : AppState)
  (postId : string) (post : Post.t) (content : CrawledContent) (i : nat)
  (item : CrawledMedia) (z : Z) :
  quiet s ->
  find (fun p => String.eqb (Post.id p) postId) (posts s) = Some post ->
  crawlSucceeds w (Post.url post) = Some content ->
  nth_error (cc_media content) i = Some item ->
  cm_type item = video ->
  head_contentLength w (cm_url item) = Some (Num z) ->
  (MAX_VIDEO_SIZE_BYTES < z)%Z ->
  exists s' row,
    downloadPost w postId s = (Ok true, s') /\
    nth_error (createdMedia s s') i = Some row /\
    Media.remoteUrl row = cm_url item /\
    Media.downloadStatus row = media_skipped /\
    Media.localPath row = None /\
    (forall url,
        ~ In (CallDownload url (getMediaPath w postId i video))
            (callsBy s s')) /\
    (forall s0 s1 st,
        getDownloadStatus postId s0 = (Ok (Some st), s1) ->
        mediaFailed st =
          List.length
            (filter (fun m => String.eqb (Media.postId m) postId
                              && isFailedMedia m) (media s0))) /\
    isFailedMedia row = false.
Proof.
  intros Hq Hfind Hcrawl Hitem Hvideo Hsize Hover.
  destruct (downloadPost_quiet_success w s postId post content Hq Hfind Hcrawl)
    as (s' & extra & Hrun & _ & Hm & Hc & Hextra & _).
  set (rows := crawledRows postId (cc_media content)) in *.
  assert (Hbig : oversized w (rowOf postId i item) = true).
  { unfold oversized, rowOf. simpl. rewrite Hvideo, Hsize. simpl.
    apply negb_true_iff. apply Z.leb_gt. exact Hover. }
  exists s', (itemUpdate w postId (rowOf postId i item) (rowOf postId i item)).
  split; [exact Hrun |].
  split.
  { unfold createdMedia. rewrite Hm, skipn_app_exact, nth_error_map.
    unfold rows. rewrite nth_error_crawledRows, Hitem. reflexivity. }
  unfold itemUpdate. rewrite Hbig.
  split; [reflexivity |]. split; [reflexivity |]. split; [reflexivity |].
  split; [| split; [intros s0 s1 st; apply getDownloadStatus_mediaFailed
                   | reflexivity]].
  intros url Hin. unfold callsBy in Hin.
  rewrite Hc, skipn_app_exact in Hin. simpl in Hin.
  destruct Hin as [Hin | Hin]; [discriminate Hin |].
  apply in_app_or in Hin. destruct Hin as [Hin | Hin].
  - apply in_flat_map in Hin. destruct Hin as (row & Hrow & Hin).
    apply In_crawledRows in Hrow.
    destruct Hrow as (j & item' & Hj & Erow). subst row.
    unfold itemCalls in Hin. apply in_app_or in Hin.
    destruct Hin as [Hin | Hin].
    + simpl in Hin. destruct (cm_type item'); simpl in Hin;
        [contradiction | destruct Hin as [Hin | []]; discriminate Hin].
    + destruct (oversized w (rowOf postId j item')) eqn:Ej;
        [contradiction |].
      destruct Hin as [Hin | []]. injection Hin as _ Hpath. simpl in Hpath.
      apply getMediaPath_inj in Hpath. destruct Hpath as [Hji _]. subst j.
      rewrite Hitem in Hj. injection Hj as Hj. subst item'.
      rewrite Hbig in Ej. discriminate Ej.
  - rewrite forallb_forall in Hextra. specialize (Hextra _ Hin).
    discriminate Hextra.
Qed.


(** ** No run writes a task record *)



(** ** A listener that throws *)

Lemma forEachListener_throws (before after : list Listener) (l : Listener)
  (n : Notification) (message : string) (s : AppState) :
  (forall l', In l' before -> onNotify l' n = None) ->
  onNotify l n = Some message ->
  forEachListener (before ++ l :: after) n s =
    (Throw message,
     set_delivered
       (delivered s ++ map (fun l' => (listenerId l', n)) (before ++ [l])) s).
Proof.
  revert s. induction before as [| b before IH]; intros s Hb Hl; simpl.
  - unfold bind, modify, throw. rewrite Hl. reflexivity.
  - unfold bind, modify. rewrite (Hb b (or_introl eq_refl)).
    rewrite IH by (try exact Hl; intros l' Hl'; apply Hb; right; exact Hl').
    simpl. rewrite <- app_assoc. reflexivity.
Qed.

(** C8, as the code behaves. When a listener throws on a notification
    (the listeners registered before it do not), [notifyProgress] calls
    the listeners up to and including that one, calls none of the
    listeners registered after it, and lets the exception reach its
    caller. *)
Theorem listener_exception_stops_fanout_and_propagates (s : AppState)
  (postId : string) (progress : float) (st : PostDownloadStatus)
  (before after : list Listener) (l : Listener) (message : string) :
  let n := mkNotification postId progress st in
  progressListeners s = before ++ l :: after ->
  (forall l', In l' before -> onNotify l' n = None) ->
  onNotify l n = Some message ->
  exists s',
    notifyProgress postId progress st s = (Throw message, s') /\
    delivered s' =
      delivered s ++ map (fun l' => (listenerId l', n)) (before ++ [l]) /\
    published s' = published s ++ [n].
Proof.
  intros n Hls Hb Hl. eexists. split; [| split].
  - unfold notifyProgress, bind, modify, gets. simpl. rewrite Hls.
    rewrite (forEachListener_throws before after l _ message) by assumption.
    reflexivity.
  - reflexivity.
  - reflexivity.
Qed.

(** ** Progress fractions *)

(** C7, as the code behaves. A run on a post without media whose crawl
    succeeds and in which no listener throws publishes the fractions
    0, 0.3, 0.4, 0.4 + 1 * 0.45, 0.85, 1.  In binary64 arithmetic
    0.4 + 1 * 0.45 is 0.8500000000000001, so the fraction published after
    it, 0.85, is smaller: the sequence is not non-decreasing. *)
Theorem progress_steps_back_at_analysis (w : World) (s : AppState)
  (postId : string) (post : Post.t) (content : CrawledContent) :
  quiet s ->
  find (fun p => String.eqb (Post.id p) postId) (posts s) = Some post ->
  crawlSucceeds w (Post.url post) = Some content ->
  cc_media content = [] ->
  exists s',
    downloadPost w postId s = (Ok true, s') /\
    fractions (publishedBy s s') =
      [0; 0.3; 0.4; 0.8500000000000001; 0.85; 1]%float /\
    nonDecreasing (fractions (publishedBy s s')) = false.
Proof.
  intros Hq Hfind Hcrawl Hnil.
  destruct (downloadPost_quiet_success w s postId post content Hq Hfind Hcrawl)
    as (s' & extra & Hrun & _ & _ & _ & _ & Hp & _).
  exists s'. split; [exact Hrun |].
  assert (Hf : fractions (publishedBy s s') =
               [0; 0.3; 0.4; 0.8500000000000001; 0.85; 1]%float).
  { unfold publishedBy. rewrite Hp, skipn_app_exact, Hnil. reflexivity. }
  split; [exact Hf |]. rewrite Hf. reflexivity.
Qed.

(** ** Content is persisted once *)

Lemma find_none_filter_nil {A : Type} (p : A -> bool) (l : list A) :
  find p l = None <-> filter p l = [].
Proof.
  induction l as [| x l IH]; simpl; [tauto |].
  destruct (p x); [split; discriminate | exact IH].
Qed.

Lemma saveContent_present (postId : string) (content : CrawledContent)
  (s : AppState) (c : Content.t) :
  find (fun c => String.eqb (Content.postId c) postId) (contents s) = Some c ->
  saveContent postId content s = (Ok tt, s).
Proof.
  intros H. unfold saveContent, getContentByPostId, bind, gets.
  rewrite H. reflexivity.
Qed.

Lemma saveContent_absent (postId : string) (content : CrawledContent)
  (s : AppState) :
  find (fun c => String.eqb (Content.postId c) postId) (contents s) = None ->
  contents (snd (saveContent postId content s)) =
    contents s
    ++ [Content.mk postId (cc_text content) (cc_authorName content)
          (cc_authorId content) (cc_originalDate content)
          (cc_viewCount content) (cc_likeCount content)].
Proof.
  intros H.
  unfold saveContent, getContentByPostId, createContent, getPostById, bind,
    gets, modify, ret.
  rewrite H. destruct (cc_title content); reflexivity.
Qed.

(** Whatever [saveContent] maintains about the content table, a whole run
    maintains. *)
Lemma downloadPost_contents_invariant (w : World) (postId : string)
  (P : list Content.t -> Prop) :
  (forall content,
      preserves (fun s => P (contents s)) (saveContent postId content)) ->
  preserves (fun s => P (contents s)) (downloadPost w postId).
Proof.
  intros Hsave.
  assert (K : forall A (m : M AppState A),
             keeps contents m -> preserves (fun s => P (contents s)) m)
    by (intros A m Km; apply Km).
  unfold downloadPost, downloadPostTry, downloadPostCatch, getPostById.
  repeat first
    [ preserves_step
    | apply Hsave
    | apply K;
      first [ apply keeps_updatePostStatus; reflexivity
            | apply keeps_notifyProgress; reflexivity
            | apply keeps_crawlPost; reflexivity
            | apply keeps_analyzePost; reflexivity
            | apply keeps_downloadMedia;
              [reflexivity | reflexivity |
               intros f; apply keeps_notifyProgress; reflexivity] ] ].
Qed.

Lemma saveContent_keeps_existing (postId : string) (content : CrawledContent)
  (cs : list Content.t) :
  find (fun c => String.eqb (Content.postId c) postId) cs <> None ->
  preserves (fun s => contents s = cs) (saveContent postId content).
Proof.
  intros Hex s Hs.
  destruct (find (fun c => String.eqb (Content.postId c) postId) cs)
    as [c |] eqn:E; [| congruence].
  rewrite (saveContent_present postId content s c) by (rewrite Hs; exact E).
  exact Hs.
Qed.

Lemma saveContent_keeps_at_most_one (postId : string)
  (content : CrawledContent) :
  preserves
    (fun s => List.length
                (filter (fun c => String.eqb (Content.postId c) postId)
                   (contents s)) <= 1)
    (saveContent postId content).
Proof.
  intros s Hs.
  destruct (find (fun c => String.eqb (Content.postId c) postId)
              (contents s)) as [c |] eqn:E.
  - rewrite (saveContent_present postId content s c E). exact Hs.
  - rewrite (saveContent_absent postId content s E).
    rewrite filter_app, length_app.
    apply find_none_filter_nil in E. rewrite E. simpl.
    destruct (String.eqb postId postId); simpl; lia.
Qed.

Lemma contentCount_positive_find (postId : string) (s : AppState) :
  1 <= contentCount postId s ->
  find (fun c => String.eqb (Content.postId c) postId) (contents s) <> None.
Proof.
  unfold contentCount. intros H E. apply find_none_filter_nil in E.
  rewrite E in H. simpl in H. lia.
Qed.

(** C9. [saveContent] writes nothing when the post already has content
    and appends exactly one row when it has none.  Hence a run on a post
    that has content leaves the content table as it is, and of two runs
    in a row the second never adds a row to what the first left: a post
    with at most one content row has at most one after any number of
    runs. *)
Theorem content_is_persisted_once (w1 w2 : World) (s : AppState)
  (postId : string) :
  let s1 := snd (downloadPost w1 postId s) in
  let s2 := snd (downloadPost w2 postId s1) in
  (forall content c,
      find (fun c => String.eqb (Content.postId c) postId) (contents s)
        = Some c ->
      saveContent postId content s = (Ok tt, s)) /\
  (forall content,
      find (fun c => String.eqb (Content.postId c) postId) (contents s)
        = None ->
      exists row,
        contents (snd (saveContent postId content s)) = contents s ++ [row] /\
        Content.postId row = postId) /\
  (1 <= contentCount postId s -> contents s1 = contents s) /\
  (1 <= contentCount postId s1 -> contents s2 = contents s1) /\
  (contentCount postId s <= 1 ->
   contentCount postId s1 <= 1 /\ contentCount postId s2 <= 1).
Proof.
  intros s1 s2.
  assert (Hkeep : forall w s0, 1 <= contentCount postId s0 ->
            contents (snd (downloadPost w postId s0)) = contents s0).
  { intros w s0 H0.
    apply (downloadPost_contents_invariant w postId
             (fun cs => cs = contents s0)); [| reflexivity].
    intros content. apply saveContent_keeps_existing.
    apply contentCount_positive_find. exact H0. }
  assert (Hone : forall w s0, contentCount postId s0 <= 1 ->
            contentCount postId (snd (downloadPost w postId s0)) <= 1).
  { intros w s0 H0.
    apply (downloadPost_contents_invariant w postId
             (fun cs => List.length
                          (filter (fun c => String.eqb (Content.postId c)
                                              postId) cs) <= 1));
      [| exact H0].
    intros content. apply saveContent_keeps_at_most_one. }
  split; [intros content c; apply saveContent_present |].
  split.
  { intros content E. eexists. split;
      [apply saveContent_absent; exact E | reflexivity]. }
  split; [apply Hkeep |]. split; [apply Hkeep |].
  intros H0. split; [apply Hone; exact H0 |].
  apply Hone. apply Hone. exact H0.
Qed.

(** ** Enrichment is applied once *)

Lemma analyzePost_already_analyzed (w : World) (postId : string)
  (s : AppState) (r : AIResult.t) :
  find (fun a => String.eqb (AIResult.postId a) postId) (aiResults s)
    = Some r ->
  analyzePost w postId s =
    (Ok (mkAnalysisServiceResult true (Some r) None), s).
Proof.
  intros H. unfold analyzePost, try_catch, bind, getAIResultByPostId, gets.
  rewrite H. reflexivity.
Qed.

Section GroupMeasure.

(** A quantity read off the groups table that a new, empty group does not
    change and an increment raises by at most one. *)
Variable mu : list Group.t -> Z.
Hypothesis mu_new_group :
  forall gs g, Group.postCount g = 0%Z -> mu (gs ++ [g]) = mu gs.
Hypothesis mu_increment :
  forall gs id,
    (mu gs <= mu (update_nth id incrementRow gs) <= mu gs + 1)%Z.

Variable postId : string.
Variable mu0 : Z.




End GroupMeasure.




Lemma nth_error_update_nth {A : Type} (f : A -> A) (id i : nat)
  (l : list A) :
  nth_error (update_nth id f l) i =
    if Nat.eqb i id then option_map f (nth_error l i) else nth_error l i.
Proof.
  revert id i. induction l as [| x l IH]; intros [| id] [| i]; simpl;
    try reflexivity.
  - destruct (Nat.eqb i id); reflexivity.
  - apply IH.
Qed.




(** * Sample runs *)

Lemma sampleState_quiet : quiet (sampleState [quietListener]).
Proof. intros l n [H | []]. rewrite <- H. reflexivity. Qed.

(** ** C1: final status *)



(** ** C2: crawl failure *)



(** ** C3: the task record *)


(** ** C4: oversized video *)

Lemma probed_oversized_video_is_skipped_witness :
  quiet (sampleState [quietListener]) /\
  (MAX_VIDEO_SIZE_BYTES < bigSize)%Z /\
  exists s' row,
    downloadPost (sampleWorld (crawlOf [sampleVideo]) (Some (Num bigSize)))
      "p1" (sampleState [quietListener]) = (Ok true, s') /\
    nth_error (createdMedia (sampleState [quietListener]) s') 0 = Some row /\
    Media.downloadStatus row = media_skipped.
Proof.
  split; [exact sampleState_quiet |]. split; [reflexivity |].
  destruct (probed_oversized_video_is_skipped
              (sampleWorld (crawlOf [sampleVideo]) (Some (Num bigSize)))
              (sampleState [quietListener]) "p1" samplePost
              (contentWith [sampleVideo]) 0 sampleVideo bigSize
              sampleState_quiet eq_refl eq_refl eq_refl eq_refl eq_refl
              eq_refl)
    as (s' & row & Hrun & Hrow & _ & Hst & _).
  exists s', row. split; [exact Hrun |]. split; [exact Hrow | exact Hst].
Defined.

(** The crawl reports 150 MB for a video, the HEAD probe gives no size, and
    the transfer writes a file measured at 150 MB: the record ends
    [completed] with that size. *)
Lemma oversized_video_counterexample :
  let w := sampleWorld (crawlOf [sampleVideo]) None in
  let s := sampleState [quietListener] in
  let s' := snd (downloadPost w "p1" s) in
  cm_fileSize sampleVideo = Some bigSize /\
  (MAX_VIDEO_SIZE_BYTES < bigSize)%Z /\
  map Media.downloadStatus (createdMedia s s') = [media_completed] /\
  map Media.fileSize (createdMedia s s') = [Some bigSize] /\
  In (CallDownload sampleVideoUrl (getMediaPath w "p1" 0 video))
    (callsBy s s').
Proof. vm_compute. repeat split. tauto. Qed.

(** ** C5: the queue *)

(** Four posts are enqueued while the first is being processed, and "b" is
    enqueued twice: the second call changes nothing, and the drain loop
    serves "c" (priority 1) before "b" and "d" (priority 0, in enqueue
    order). *)
Example queue_sample_trace :
  let busy := runScheduler [Enqueue "a" 0 10; Enqueue "b" 0 11;
                            Enqueue "c" 1 12; Enqueue "d" 0 12] in
  queueDownload "b" 5 13 busy = busy /\
  map qi_postId (downloadQueue busy) = ["c"; "b"; "d"]%string /\
  option_map qi_postId (awaiting busy) = Some "a"%string /\
  option_map qi_postId (awaiting (runSettled busy)) = Some "c"%string /\
  option_map qi_postId (awaiting (runSettled (runSettled busy)))
    = Some "b"%string.
Proof. vm_compute. repeat split. Qed.

(** ** C6: retry *)



(** ** C7: progress fractions *)

Lemma progress_steps_back_at_analysis_witness :
  quiet (sampleState [quietListener]) /\
  cc_media (contentWith []) = [] /\
  exists s',
    downloadPost (sampleWorld (crawlOf []) None) "p1"
      (sampleState [quietListener]) = (Ok true, s') /\
    nonDecreasing (fractions (publishedBy (sampleState [quietListener]) s'))
      = false.
Proof.
  split; [exact sampleState_quiet |]. split; [reflexivity |].
  destruct (progress_steps_back_at_analysis (sampleWorld (crawlOf []) None)
              (sampleState [quietListener]) "p1" samplePost (contentWith [])
              sampleState_quiet eq_refl eq_refl eq_refl)
    as (s' & Hrun & _ & Hdec).
  exists s'. split; [exact Hrun | exact Hdec].
Defined.

(** The same step back with media: a video and an image, both
    transferred. *)
Example progress_with_two_items :
  let s := sampleState [quietListener] in
  let s' := snd (downloadPost
                   (sampleWorld (crawlOf [sampleVideo; sampleImage]) None)
                   "p1" s) in
  fractions (publishedBy s s') =
    [0; 0.3; 0.4; 0.625; 0.8500000000000001; 0.85; 1]%float /\
  PrimFloat.ltb 0.85 0.8500000000000001 = true.
Proof. vm_compute. repeat split. Qed.

(** When a listener throws after progress has been published, the [catch]
    block publishes fraction 0 in the same run. *)
Example progress_returns_to_zero_on_exception :
  let s := sampleState [throwsAtEnd] in
  let s' := snd (downloadPost (sampleWorld (crawlOf []) None) "p1" s) in
  fractions (publishedBy s s') =
    [0; 0.3; 0.4; 0.8500000000000001; 0.85; 1; 0]%float.
Proof. vm_compute. reflexivity. Qed.

(** ** C8: a throwing listener *)

Lemma listener_exception_stops_fanout_witness :
  let s := sampleState [throwingListener; lateListener] in
  let n := mkNotification "p1" 0.3%float post_downloading in
  exists s',
    notifyProgress "p1" 0.3%float post_downloading s
      = (Throw "listener failed", s') /\
    delivered s' = [(listenerId throwingListener, n)].
Proof.
  intros s n.
  destruct (listener_exception_stops_fanout_and_propagates s "p1" 0.3%float
              post_downloading [] [lateListener] throwingListener
              "listener failed" eq_refl
              (fun l' (H : In l' []) => match H with end) eq_refl)
    as (s' & Hrun & Hd & _).
  exists s'. split; [exact Hrun | exact Hd].
Defined.

(** The exception of the first listener leaves [downloadPost] too: the
    second listener is never called and the post stays [downloading]. *)
Example listener_exception_leaves_the_run :
  let s := sampleState [throwingListener; lateListener] in
  let r := downloadPost (sampleWorld (crawlOf []) None) "p1" s in
  fst r = Throw "listener failed" /\
  map fst (delivered (snd r)) = [listenerId throwingListener] /\
  postStatus "p1" (snd r) = Some post_downloading.
Proof. vm_compute. repeat split. Qed.

(** * Further properties of the repositories *)

Lemma update_nth_same {A : Type} (n : nat) (f : A -> A) (l : list A) :
  (forall x, nth_error l n = Some x -> f x = x) -> update_nth n f l = l.
Proof.
  revert n. induction l as [| y l IH]; intros [| n] H; simpl;
    try reflexivity.
  - rewrite (H y eq_refl). reflexivity.
  - rewrite IH by exact H. reflexivity.
Qed.

Lemma update_nth_length {A : Type} (n : nat) (f : A -> A) (l : list A) :
  List.length (update_nth n f l) = List.length l.
Proof.
  revert n. induction l as [| y l IH]; intros [| n]; simpl;
    try reflexivity.
  rewrite IH. reflexivity.
Qed.

Lemma set_media_same (s : AppState) : set_media (media s) s = s.
Proof. destruct s. reflexivity. Qed.


Lemma stable_sort_length {A : Type} (leb : A -> A -> bool) (l : list A) :
  List.length (stable_sort leb l) = List.length l.
Proof.
  pose proof (filter_stable_sort_length leb (fun _ => true) l) as H.
  rewrite !filter_true in H. exact H.
Qed.

(** ** Posts that are not in the table *)

(** X1. For a post id that is not in the posts table, [downloadPost] and
    [retryDownload] return [false] and [getDownloadStatus] returns null;
    none of them changes the state: no status is written, no notification
    is published and no remote call is made. *)
Theorem unknown_post_is_left_alone (w : World) (s : AppState)
  (postId : string) :
  find (fun p => String.eqb (Post.id p) postId) (posts s) = None ->
  downloadPost w postId s = (Ok false, s) /\
  retryDownload w postId s = (Ok false, s) /\
  getDownloadStatus postId s = (Ok None, s).
Proof.
  intros H.
  unfold retryDownload, downloadPost, getDownloadStatus, getPostById, bind,
    gets, ret.
  rewrite H. repeat split.
Qed.

(** ** The figures of [getDownloadStatus] *)

Lemma filter_disjoint_length {A : Type} (f g : A -> bool) (l : list A) :
  (forall x, f x = true -> g x = false) ->
  List.length (filter f l) + List.length (filter g l) <= List.length l.
Proof.
  intros H. induction l as [| x l IH]; simpl; [lia |].
  destruct (f x) eqn:Ef.
  - rewrite (H x Ef). simpl. lia.
  - destruct (g x); simpl; lia.
Qed.

(** X2. For a post that is in the table, [getDownloadStatus] reads without
    writing: it reports the stored status of the post, [mediaTotal] is the
    number of media rows of the post, and completed and failed rows
    together never exceed the total (the remainder is pending, downloading
    or skipped). *)
Theorem download_status_counts_are_bounded (s : AppState) (postId : string)
  (post : Post.t) :
  find (fun p => String.eqb (Post.id p) postId) (posts s) = Some post ->
  exists st,
    getDownloadStatus postId s = (Ok (Some st), s) /\
    ds_status st = Post.downloadStatus post /\
    mediaTotal st =
      List.length
        (filter (fun m => String.eqb (Media.postId m) postId) (media s)) /\
    mediaCompleted st + mediaFailed st <= mediaTotal st.
Proof.
  intros H.
  unfold getDownloadStatus, getPostById, getMediaByPostId, bind, gets, ret.
  rewrite H. eexists. split; [reflexivity |]. simpl.
  split; [reflexivity |]. split; [apply stable_sort_length |].
  apply filter_disjoint_length.
  intros m Hm. destruct (Media.downloadStatus m); simpl in *;
    congruence.
Qed.

(** ** Media rows *)

(** X3. [updateMediaStatus] sets the status of the row and overwrites the
    local path and the file size only with a non-empty path and a non-zero
    size: a change of status never clears a stored path or size, and a
    size of 0 is not recorded.  The other columns are left as they are.
    For an id that is not in the table it returns null and changes
    nothing. *)
Theorem updateMediaStatus_writes_truthy_values_only (id : nat)
  (st : MediaDownloadStatus) (path : option string) (size : option Z)
  (s : AppState) :
  match nth_error (media s) id with
  | Some row =>
      let row' :=
        Media.mk (Media.postId row) (Media.type row) (Media.remoteUrl row)
          (match path with
           | Some EmptyString | None => Media.localPath row
           | Some p => Some p
           end)
          (match size with
           | Some 0%Z | None => Media.fileSize row
           | Some z => Some z
           end)
          st (Media.sortOrder row) in
      updateMediaStatus id st path size s =
        (Ok (Some row'),
         set_media (update_nth id (fun _ => row') (media s)) s)
  | None => updateMediaStatus id st path size s = (Ok None, s)
  end.
Proof.
  unfold updateMediaStatus, updateMedia, getMediaById, bind, modify, gets.
  destruct (nth_error (media s) id) as [row |] eqn:E; simpl.
  - rewrite nth_error_update_nth, Nat.eqb_refl, E. simpl.
    assert (Hrow :
      applyUpdateMedia
        (mkUpdateMediaInput (truthy_string path) (truthy_number size)
           (Some st)) row =
      Media.mk (Media.postId row) (Media.type row) (Media.remoteUrl row)
        (match path with
         | Some EmptyString | None => Media.localPath row
         | Some p => Some p
         end)
        (match size with
         | Some 0%Z | None => Media.fileSize row
         | Some z => Some z
         end)
        st (Media.sortOrder row)).
    { unfold applyUpdateMedia. simpl.
      destruct path as [[| c p] |]; destruct size as [[| z | z] |];
        reflexivity. }
    rewrite Hrow. f_equal. f_equal.
    clear Hrow. revert id E. generalize (media s) as l.
    induction l as [| x l IH]; intros [| n] E; simpl in *;
      try discriminate.
    + injection E as ->. unfold applyUpdateMedia. simpl.
      destruct path as [[| c p] |]; destruct size as [[| z | z] |];
        reflexivity.
    + rewrite (IH n E). reflexivity.
  - rewrite nth_error_update_nth, Nat.eqb_refl, E. simpl.
    rewrite update_nth_same by (intros x Hx; congruence).
    rewrite set_media_same. reflexivity.
Qed.



(** ** Groups and analysis results *)

Lemma find_row_from_some {A : Type} (p : A -> bool) (i j : nat) (l : list A)
  (x : A) :
  find_row_from p i l = Some (j, x) ->
  p x = true /\ i <= j /\ nth_error l (j - i) = Some x.
Proof.
  revert i. induction l as [| y l IH]; intros i H; simpl in H;
    [discriminate |].
  destruct (p y) eqn:E.
  - injection H as <- <-. rewrite Nat.sub_diag. auto.
  - destruct (IH (S i) H) as (Hp & Hle & Hn).
    split; [exact Hp |]. split; [lia |].
    replace (j - i) with (S (j - S i)) by lia. exact Hn.
Qed.


Lemma find_row_from_new {A : Type} (p : A -> bool) (i : nat) (l : list A)
  (x : A) :
  find_row_from p i l = None -> p x = true ->
  find_row_from p i (l ++ [x]) = Some (i + List.length l, x).
Proof.
  revert i. induction l as [| y l IH]; intros i H Hx; simpl in *.
  - rewrite Hx, Nat.add_0_r. reflexivity.
  - destruct (p y); [discriminate |].
    rewrite (IH (S i) H Hx). f_equal. f_equal. lia.
Qed.

(** X5. [getOrCreateGroup] never throws, and calling it again with the same
    name returns the same group and writes nothing: a name gets at most
    one row through it. *)
Theorem getOrCreateGroup_is_idempotent (w : World) (name : string)
  (s : AppState) :
  exists g s1,
    getOrCreateGroup w name s = (Ok g, s1) /\
    Group.name (snd g) = name /\
    nth_error (groups s1) (fst g) = Some (snd g) /\
    getOrCreateGroup w name s1 = (Ok g, s1).
Proof.
  unfold getOrCreateGroup, getGroupByName, createGroup, getCurrentTimestamp,
    find_row, bind, gets, ret.
  destruct (find_row_from (fun g => String.eqb (Group.name g) name) 0
              (groups s)) as [[id g] |] eqn:E.
  - exists (id, g), s. rewrite E.
    destruct (find_row_from_some _ _ _ _ _ E) as (Hp & _ & Hn).
    rewrite Nat.sub_0_r in Hn. apply String.eqb_eq in Hp.
    repeat split; assumption.
  - eexists. eexists. split; [reflexivity |]. simpl.
    split; [reflexivity |].
    split.
    { rewrite nth_error_app2 by lia. rewrite Nat.sub_diag. reflexivity. }
    rewrite (find_row_from_new _ 0 (groups s) _ E)
      by (simpl; apply String.eqb_refl).
    reflexivity.
Qed.

(** What [analyzePost] does to the groups and the analysis results: nothing
    at all, or one new result for the post, with no group, with an existing
    group whose count is raised, or with a new group of count 1. *)
Lemma analyzePost_effect (w : World) (postId : string) (s : AppState) :
  let s' := snd (analyzePost w postId s) in
  (groups s' = groups s /\ aiResults s' = aiResults s /\
   ((exists r,
       find (fun a => String.eqb (AIResult.postId a) postId) (aiResults s)
         = Some r /\
       fst (analyzePost w postId s) =
         Ok (mkAnalysisServiceResult true (Some r) None)) \/
    (exists message,
       fst (analyzePost w postId s) =
         Ok (mkAnalysisServiceResult false None (Some message))))) \/
  (exists a,
      find (fun a => String.eqb (AIResult.postId a) postId) (aiResults s)
        = None /\
      AIResult.postId a = postId /\
      aiResults s' = aiResults s ++ [a] /\
      fst (analyzePost w postId s) =
        Ok (mkAnalysisServiceResult true (Some a) None) /\
      (AIResult.groupId a = None /\ groups s' = groups s \/
       exists id name,
         AIResult.groupId a = Some id /\
         ((exists g,
             find_row (fun g => String.eqb (Group.name g) name) (groups s)
               = Some (id, g) /\
             groups s' = update_nth id incrementRow (groups s)) \/
          (exists t,
             find_row (fun g => String.eqb (Group.name g) name) (groups s)
               = None /\
             id = List.length (groups s) /\
             groups s' = groups s ++ [Group.mk name None 1 t])))).
Proof.
  destruct (find (fun a => String.eqb (AIResult.postId a) postId)
              (aiResults s)) as [r |] eqn:Eai.
  - rewrite (analyzePost_already_analyzed w postId s r Eai).
    left. split; [reflexivity |]. split; [reflexivity |].
    left. exists r. split; reflexivity.
  - unfold analyzePost, getAIResultByPostId, getPostById,
      getContentByPostId, getMediaCountByPostId, xhsApi_analyze, logCall,
      getOrCreateGroup, getGroupByName, createGroup, getCurrentTimestamp,
      incrementGroupPostCount, createAIResult.
    unfold try_catch, bind, gets, modify, ret, throw.
    rewrite Eai.
    destruct (find _ (contents s)) as [c |];
      [| left; split; [| split]; try reflexivity; right; eexists;
         reflexivity].
    destruct (api_analyze w _) as [message | [|] [data |]];
      try (left; split; [| split]; try reflexivity; right; eexists;
           reflexivity).
    right.
    destruct (truthy_string (ad_suggestedGroupName data)) as [name |] eqn:En;
      cbn.
    + unfold find_row.
      destruct (find_row_from _ 0 (groups s)) as [[id g] |] eqn:Eg; cbn;
        fold incrementRow.
      * eexists. split; [reflexivity |].
        split; [| split; [reflexivity | split; [reflexivity |]]];
          [reflexivity |].
        right. exists id, name. split; [reflexivity |].
        left. exists g. split; [exact Eg | reflexivity].
      * eexists. split; [reflexivity |].
        split; [| split; [reflexivity | split; [reflexivity |]]];
          [reflexivity |].
        right. exists (List.length (groups s)), name.
        split; [reflexivity |].
        right. eexists. split; [exact Eg |]. split; [reflexivity |].
        rewrite update_nth_app_here. reflexivity.
    + eexists. split; [reflexivity |].
      split; [| split; [reflexivity | split; [reflexivity |]]];
        [reflexivity |].
      left. split; reflexivity.
Qed.







Lemma NoDup_snoc {A : Type} (l : list A) (x : A) :
  NoDup l -> ~ In x l -> NoDup (l ++ [x]).
Proof.
  intros Hl Hx. induction Hl as [| y l Hy Hl IH]; simpl.
  - constructor; [intros [] | constructor].
  - constructor.
    + rewrite in_app_iff. intros [H | [H | []]]; [contradiction |].
      subst y. apply Hx. left. reflexivity.
    + apply IH. intros H. apply Hx. right. exact H.
Qed.



Lemma find_snoc_new {A : Type} (p : A -> bool) (l : list A) (x : A) :
  find p l = None -> p x = true -> find p (l ++ [x]) = Some x.
Proof.
  intros Hl Hx. induction l as [| y l IH]; simpl in *.
  - rewrite Hx. reflexivity.
  - destruct (p y); [discriminate | exact (IH Hl)].
Qed.


(** X9. [reanalyzePost] does not analyze again: for a post that has an
    analysis result it returns the stored result and leaves the state as it
    is.  In particular, once [analyzePost] has succeeded for a post,
    re-analyzing it, whatever the service would answer now, returns the
    same result and writes nothing: the stored result is not replaced and
    no group is counted again. *)
Theorem reanalyze_returns_the_stored_result (w w' : World)
  (postId : string) (s : AppState) :
  (forall r,
      find (fun a => String.eqb (AIResult.postId a) postId) (aiResults s)
        = Some r ->
      reanalyzePost w postId s =
        (Ok (mkAnalysisServiceResult true (Some r) None), s)) /\
  (forall r1 s1,
      analyzePost w postId s = (Ok r1, s1) ->
      asr_success r1 = true ->
      reanalyzePost w' postId s1 = (Ok r1, s1)).
Proof.
  split; [intros r; apply analyzePost_already_analyzed |].
  intros r1 s1 Hrun Hsuccess.
  pose proof (analyzePost_effect w postId s) as He.
  rewrite Hrun in He. simpl in He.
  destruct He as [(_ & Ha & [(r0 & Hfind & Hr) | (message & Hr)])
                 | (a & Hnone & Hpost & Ha & Hr & _)];
    injection Hr as ->; try discriminate Hsuccess;
    apply analyzePost_already_analyzed; rewrite Ha.
  - exact Hfind.
  - apply find_snoc_new; [exact Hnone |].
    rewrite Hpost. apply String.eqb_refl.
Qed.

Lemma groupPostCount_decrement (g id : nat) (gs : list Group.t) :
  groupPostCount g
    (update_nth id
       (fun r => Group.mk (Group.name r) (Group.description r)
                   (Z.max 0 (Group.postCount r - 1)) (Group.createdAt r))
       gs) =
  if Nat.eqb g id then Z.max 0 (groupPostCount g gs - 1)
  else groupPostCount g gs.
Proof.
  unfold groupPostCount. rewrite nth_error_update_nth.
  destruct (Nat.eqb g id); [| reflexivity].
  destruct (nth_error gs g); reflexivity.
Qed.

(** X10. [decrementGroupPostCount] lowers the count of the group by one
    but never below 0, and leaves the other groups alone.  It undoes
    [incrementGroupPostCount] on a group whose count is not negative. *)
Theorem decrement_stops_at_zero_and_undoes_increment (id : nat)
  (s : AppState) :
  let s' := snd (decrementGroupPostCount id s) in
  (forall g,
      groupPostCount g (groups s') =
        if Nat.eqb g id then Z.max 0 (groupPostCount g (groups s) - 1)
        else groupPostCount g (groups s)) /\
  (0 <= groupPostCount id (groups s'))%Z /\
  ((0 <= groupPostCount id (groups s))%Z ->
   groups (snd (decrementGroupPostCount id
                  (snd (incrementGroupPostCount id s)))) = groups s).
Proof.
  unfold decrementGroupPostCount, incrementGroupPostCount, modify. simpl.
  split; [intros g; apply groupPostCount_decrement |].
  split.
  - rewrite groupPostCount_decrement, Nat.eqb_refl. lia.
  - intros H0. rewrite update_nth_twice. apply update_nth_same.
    intros row Hrow. unfold groupPostCount in H0. rewrite Hrow in H0.
    destruct row as [n d c t]. simpl in *. f_equal. lia.
Qed.

(** * Further properties of the file manager *)

Lemma no_underscore_in_digits (u : Decimal.uint) (a b : string) :
  NilZero.string_of_uint u <> (a ++ String "_"%char b)%string.
Proof.
  assert (H : forall v a b,
             NilEmpty.string_of_uint v <> (a ++ String "_"%char b)%string).
  { intros v. induction v; intros [| c a'] b' E; simpl in E;
      try discriminate E; injection E as _ E; exact (IHv _ _ E). }
  intros E. destruct u;
    try (refine (H _ a b _); exact E).
  destruct a as [| c [| c' a']]; discriminate E.
Qed.

(** The text before the last underscore. *)
Lemma split_at_last_underscore (a b d e : string) :
  (forall x y, d <> (x ++ String "_"%char y)%string) ->
  (forall x y, e <> (x ++ String "_"%char y)%string) ->
  (a ++ String "_"%char d = b ++ String "_"%char e)%string -> a = b /\ d = e.
Proof.
  intros Hd He. revert b.
  induction a as [| c a IH]; intros [| c' b] H; simpl in H.
  - injection H as H. split; [reflexivity | exact H].
  - injection H as <- H. exfalso. exact (Hd b e H).
  - injection H as -> H. exfalso. exact (He a d (eq_sym H)).
  - injection H as -> H. destruct (IH b H) as [-> ->].
    split; reflexivity.
Qed.

(** X11. [getMediaPath] is injective: two references that differ in the
    post, in the position or in the media type never get the same local
    path, so the transfers of a run do not overwrite one another nor the
    files of another post. *)
Theorem media_paths_do_not_collide (w : World) (p1 p2 : string)
  (i1 i2 : nat) (t1 t2 : MediaType) :
  getMediaPath w p1 i1 t1 = getMediaPath w p2 i2 t2 ->
  p1 = p2 /\ i1 = i2 /\ t1 = t2.
Proof.
  unfold getMediaPath, getMediaDirectory, generateMediaFilename.
  intros H.
  assert (Hty : t1 = t2).
  { destruct t1, t2; try reflexivity;
      rewrite !append_assoc in H; apply append_inj_l in H;
      discriminate H. }
  subst t2.
  assert (Hname :
    (p1 ++ String "_"%char (NilZero.string_of_uint (Nat.to_uint i1)) =
     p2 ++ String "_"%char (NilZero.string_of_uint (Nat.to_uint i2)))%string).
  { assert (R : forall a d sfx,
               (a ++ "_" ++ d ++ sfx = (a ++ String "_"%char d) ++ sfx)%string)
      by (intros; rewrite append_assoc; reflexivity).
    destruct t1; rewrite !append_assoc in H;
      apply append_inj_l, append_inj_l in H;
      rewrite !R in H; apply append_inj_r in H; exact H. }
  destruct (split_at_last_underscore _ _ _ _
              (no_underscore_in_digits _) (no_underscore_in_digits _) Hname)
    as [-> Hd].
  split; [reflexivity |]. split; [| reflexivity].
  apply string_of_index_inj. exact Hd.
Qed.

(** * Further properties of the download manager *)

(** ** Registering and removing listeners *)

Lemma forEachListener_delivered (ls : list Listener) (n : Notification)
  (s : AppState) :
  exists k,
    delivered (snd (forEachListener ls n s)) =
      delivered s ++ map (fun l => (listenerId l, n)) (firstn k ls).
Proof.
  revert s. induction ls as [| l ls IH]; intros s; simpl.
  - exists 0. rewrite app_nil_r. reflexivity.
  - unfold bind, modify. destruct (onNotify l n) as [message |].
    + exists 1. reflexivity.
    + destruct (IH (set_delivered (delivered s ++ [(listenerId l, n)]) s))
        as [k Hk].
      exists (S k). rewrite Hk. simpl. rewrite <- app_assoc. reflexivity.
Qed.

Lemma In_firstn {A : Type} (k : nat) (l : list A) (x : A) :
  In x (firstn k l) -> In x l.
Proof.
  intros H. rewrite <- (firstn_skipn k l). apply in_or_app. left. exact H.
Qed.

Lemma filter_other_listeners (l : Listener) (ls : list Listener) :
  ~ In (listenerId l) (map listenerId ls) ->
  filter (fun l' => negb (Nat.eqb (listenerId l') (listenerId l))) ls = ls.
Proof.
  intros H. induction ls as [| x ls IH]; simpl in *; [reflexivity |].
  destruct (Nat.eqb (listenerId x) (listenerId l)) eqn:E.
  - apply Nat.eqb_eq in E. exfalso. apply H. left. exact E.
  - simpl. rewrite IH; [reflexivity |]. intros Hin. apply H. right. exact Hin.
Qed.

(** X12. Registering a listener that is already registered changes
    nothing.  After the function returned by [addProgressListener] has run,
    the listener is no longer registered and no later notification is
    delivered to it; if it was not registered before, the listeners are
    again what they were. *)
Theorem listener_registration_round_trip (l : Listener) (s : AppState) :
  let s1 := snd (addProgressListener l s) in
  let s2 := snd (removeProgressListener l s1) in
  In (listenerId l) (map listenerId (progressListeners s1)) /\
  snd (addProgressListener l s1) = s1 /\
  ~ In (listenerId l) (map listenerId (progressListeners s2)) /\
  (forall postId progress st,
      ~ In (listenerId l)
          (map fst
             (skipn (List.length (delivered s2))
                (delivered (snd (notifyProgress postId progress st s2)))))) /\
  (~ In (listenerId l) (map listenerId (progressListeners s)) -> s2 = s).
Proof.
  intros s1 s2.
  assert (Hin : In (listenerId l) (map listenerId (progressListeners s1))).
  { subst s1. unfold addProgressListener, modify. simpl.
    destruct (existsb _ (progressListeners s)) eqn:E.
    - apply existsb_exists in E. destruct E as (x & Hx & E).
      apply Nat.eqb_eq in E. rewrite <- E. apply in_map. exact Hx.
    - simpl. rewrite map_app, in_app_iff. right. left. reflexivity. }
  assert (Hout : ~ In (listenerId l)
                     (map listenerId (progressListeners s2))).
  { subst s2. unfold removeProgressListener, modify. simpl.
    intros H. apply in_map_iff in H. destruct H as (x & Hx & H).
    apply filter_In in H. destruct H as [_ H].
    rewrite Hx, Nat.eqb_refl in H. discriminate. }
  split; [exact Hin |]. split.
  { unfold addProgressListener at 1. unfold modify. simpl.
    replace (existsb _ (progressListeners s1)) with true; [reflexivity |].
    symmetry. apply existsb_exists. apply in_map_iff in Hin.
    destruct Hin as (x & Hx & Hin). exists x.
    split; [exact Hin | apply Nat.eqb_eq; exact Hx]. }
  split; [exact Hout |]. split.
  - intros postId progress st H.
    unfold notifyProgress, bind, modify, gets in H. simpl in H.
    destruct (forEachListener_delivered (progressListeners s2)
                (mkNotification postId progress st)
                (set_published
                   (published s2 ++ [mkNotification postId progress st]) s2))
      as [k Hk].
    destruct (forEachListener _ _ _) as [[u | e] s3] eqn:Erun;
      simpl in Hk, H; rewrite Hk in H;
      replace (delivered (set_published _ s2)) with (delivered s2) in H
        by reflexivity;
      rewrite skipn_app_exact, map_map in H; simpl in H;
      apply Hout; apply in_map_iff in H; destruct H as (x & Hx & H);
      apply in_map_iff; exists x;
      (split; [exact Hx | exact (In_firstn _ _ _ H)]).
  - intros Hnew. subst s2 s1.
    unfold removeProgressListener, addProgressListener, modify. simpl.
    replace (existsb _ (progressListeners s)) with false.
    + simpl. rewrite filter_app. simpl. rewrite Nat.eqb_refl. simpl.
      rewrite app_nil_r. rewrite (filter_other_listeners l _ Hnew).
      destruct s. reflexivity.
    + symmetry. apply not_true_is_false. intros E.
      apply existsb_exists in E. destruct E as (x & Hx & E).
      apply Nat.eqb_eq in E. apply Hnew. rewrite <- E. apply in_map.
      exact Hx.
Qed.

(** ** The queue while a post is being downloaded *)

Lemma In_insert_sorted {A : Type} (leb : A -> A -> bool) (x y : A)
  (l : list A) :
  In y (insert_sorted leb x l) <-> y = x \/ In y l.
Proof.
  induction l as [| z l IH]; simpl.
  - intuition.
  - destruct (leb x z); simpl; [intuition |]. rewrite IH. intuition.
Qed.

Lemma In_stable_sort {A : Type} (leb : A -> A -> bool) (y : A)
  (l : list A) :
  In y (stable_sort leb l) <-> In y l.
Proof.
  induction l as [| x l IH]; simpl; [reflexivity |].
  rewrite In_insert_sorted, IH. intuition.
Qed.

(** X13. The check of [queueDownload] looks at the waiting items only: the
    post whose download is running has been taken out of the queue, so
    queuing it again is accepted: the running download stays as it is and
    the queue grows by one item for the same post. *)
Theorem post_in_flight_can_be_queued_again (events : list SchedulerEvent)
  (item : DownloadQueueItem) (priority now : Z) :
  let s := runScheduler events in
  awaiting s = Some item ->
  ~ In (qi_postId item) (map qi_postId (downloadQueue s)) ->
  let s' := queueDownload (qi_postId item) priority now s in
  awaiting s' = Some item /\
  In (mkQueueItem (qi_postId item) priority now) (downloadQueue s') /\
  List.length (downloadQueue s') = S (List.length (downloadQueue s)).
Proof.
  intros s Haw Hnot s'.
  pose proof (runScheduler_invariant events) as (_ & Hidle & _).
  fold s in Hidle.
  assert (Hbusy : isProcessing s = true).
  { destruct (isProcessing s); [reflexivity |].
    destruct (Hidle eq_refl) as [_ H]. congruence. }
  subst s'. rewrite (queueDownload_absent s _ priority now Hnot).
  unfold processQueue. simpl. rewrite Hbusy. simpl.
  split; [exact Haw |]. split.
  - unfold js_sort. apply In_stable_sort. apply in_or_app. right. left.
    reflexivity.
  - unfold js_sort. rewrite stable_sort_length, length_app. simpl. lia.
Qed.

Lemma runSettled_progress (s : Scheduler) :
  (isProcessing s = false -> downloadQueue s = [] /\ awaiting s = None) ->
  (isProcessing s = true -> awaiting s <> None) ->
  let s' := runSettled s in
  (isProcessing s' = false -> downloadQueue s' = [] /\ awaiting s' = None) /\
  (isProcessing s' = true -> awaiting s' <> None) /\
  List.length (downloadQueue s') = pred (List.length (downloadQueue s)) /\
  (downloadQueue s = [] -> s' = initialScheduler).
Proof.
  intros Hidle Hbusy. unfold runSettled, drainStep.
  destruct (awaiting s) as [a |] eqn:Ea.
  - destruct (downloadQueue s) as [| x q]; simpl;
      repeat split; auto; discriminate.
  - destruct (isProcessing s) eqn:Ep;
      [exfalso; exact (Hbusy eq_refl eq_refl) |].
    destruct (Hidle eq_refl) as [Hq _]. rewrite Hq. simpl.
    split; [intros _; split; [reflexivity | exact Ea] |].
    split; [discriminate |]. split; [reflexivity |].
    intros _. destruct s. simpl in *. subst. reflexivity.
Qed.

Lemma settle_all (n : nat) (s : Scheduler) :
  (isProcessing s = false -> downloadQueue s = [] /\ awaiting s = None) ->
  (isProcessing s = true -> awaiting s <> None) ->
  List.length (downloadQueue s) <= n ->
  fold_left schedulerStep (repeat Settled (S n)) s = initialScheduler.
Proof.
  revert s. induction n as [| n IH]; intros s Hidle Hbusy Hlen;
    destruct (runSettled_progress s Hidle Hbusy) as (H1 & H2 & H3 & H4).
  - simpl. apply H4. destruct (downloadQueue s); [reflexivity |].
    simpl in Hlen. lia.
  - change (repeat Settled (S (S n))) with (Settled :: repeat Settled (S n)).
    simpl fold_left. apply IH; [exact H1 | exact H2 | lia].
Qed.

Lemma settle_serves_in_order (k : nat) (s : Scheduler)
  (item : DownloadQueueItem) :
  awaiting s <> None ->
  nth_error (downloadQueue s) k = Some item ->
  awaiting (fold_left schedulerStep (repeat Settled (S k)) s) = Some item.
Proof.
  revert s. induction k as [| k IH]; intros s Haw Hk.
  - simpl. unfold runSettled, drainStep.
    destruct (awaiting s); [| congruence].
    destruct (downloadQueue s); simpl in *; [discriminate |].
    injection Hk as ->. reflexivity.
  - change (repeat Settled (S (S k))) with (Settled :: repeat Settled (S k)).
    simpl fold_left. apply IH.
    + unfold schedulerStep, runSettled, drainStep.
      destruct (awaiting s); [| congruence].
      destruct (downloadQueue s); simpl in *; discriminate.
    + unfold schedulerStep, runSettled, drainStep.
      destruct (awaiting s); [| congruence].
      destruct (downloadQueue s); simpl in *; [discriminate | exact Hk].
Qed.

(** X14. The queue always drains: from any state the scheduler reaches,
    once the running download and one more per waiting item have settled
    (however each of them ended), the queue is empty and nothing is being
    processed.  On the way the waiting items are started in queue order,
    one after the other. *)
Theorem queue_drains_in_order (events : list SchedulerEvent) :
  let s := runScheduler events in
  fold_left schedulerStep
    (repeat Settled (S (List.length (downloadQueue s)))) s
    = initialScheduler /\
  (forall k item,
      nth_error (downloadQueue s) k = Some item ->
      awaiting (fold_left schedulerStep (repeat Settled (S k)) s)
        = Some item).
Proof.
  intros s.
  pose proof (runScheduler_invariant events) as (_ & Hidle & Hbusy).
  fold s in Hidle, Hbusy. split.
  - apply settle_all; [exact Hidle | exact Hbusy | lia].
  - intros k item Hk. apply settle_serves_in_order; [| exact Hk].
    destruct (isProcessing s) eqn:Ep; [exact (Hbusy eq_refl) |].
    destruct (Hidle eq_refl) as [Hq _]. rewrite Hq in Hk.
    destruct k; discriminate.
Qed.

(** ** Runs and exceptions *)

Lemma downloadPost_keeps_listeners (w : World) (postId : string)
  (s s' : AppState) (r : Result bool) :
  downloadPost w postId s = (r, s') ->
  progressListeners s' = progressListeners s.
Proof.
  apply (keeps_run progressListeners). apply keeps_downloadPost; reflexivity.
Qed.


(** X16. When a listener throws on the first notification of a run,
    [(postId, 0, downloading)], the exception leaves [downloadPost]: the
    post has been set to [downloading] and stays so, and nothing else has
    happened, no crawl, no content, no media. *)
Theorem throwing_listener_leaves_post_downloading (w : World)
  (s : AppState) (postId : string) (post : Post.t)
  (before after : list Listener) (l : Listener) (message : string) :
  let n := mkNotification postId 0%float post_downloading in
  find (fun p => String.eqb (Post.id p) postId) (posts s) = Some post ->
  progressListeners s = before ++ l :: after ->
  (forall l', In l' before -> onNotify l' n = None) ->
  onNotify l n = Some message ->
  exists s',
    downloadPost w postId s = (Throw message, s') /\
    postStatus postId s' = Some post_downloading /\
    calls s' = calls s /\ contents s' = contents s /\ media s' = media s /\
    published s' = published s ++ [n].
Proof.
  intros n Hfind Hls Hbefore Hl.
  destruct (updatePostStatus_eq w postId post_downloading s) as [r1 E1].
  eexists. split.
  - unfold downloadPost.
    erewrite bind_ok by (unfold getPostById, gets; rewrite Hfind; reflexivity).
    cbv beta iota. erewrite bind_ok by exact E1.
    apply bind_throw.
    unfold notifyProgress, bind, modify, gets. simpl.
    rewrite Hls. fold n.
    rewrite (forEachListener_throws before after l n message _ Hbefore Hl).
    reflexivity.
  - simpl. split; [| repeat split].
    apply (postStatus_afterUpdate w postId post_downloading s post Hfind).
Qed.

(** ** What a run leaves alone *)

(** Whatever [updatePostStatus] on the post maintains about the posts
    table, a whole run maintains. *)
Lemma downloadPost_posts_invariant (w : World) (postId : string)
  (P : list Post.t -> Prop) :
  (forall st,
      preserves (fun s => P (posts s)) (updatePostStatus w postId st)) ->
  preserves (fun s => P (posts s)) (downloadPost w postId).
Proof.
  intros Hup.
  assert (K : forall A (m : M AppState A),
             keeps posts m -> preserves (fun s => P (posts s)) m)
    by (intros A m Km; apply Km).
  unfold downloadPost, downloadPostTry, downloadPostCatch, getPostById.
  repeat first
    [ preserves_step
    | apply Hup
    | apply K;
      first [ apply keeps_notifyProgress; reflexivity
            | apply keeps_crawlPost; reflexivity
            | apply keeps_saveContent; reflexivity
            | apply keeps_analyzePost; reflexivity
            | apply keeps_downloadMedia;
              [reflexivity | reflexivity |
               intros f; apply keeps_notifyProgress; reflexivity] ] ].
Qed.

Lemma updatePostStatus_other_posts (w : World) (postId : string)
  (st : PostDownloadStatus) (ps0 : list Post.t) :
  preserves
    (fun s =>
       map Post.id (posts s) = map Post.id ps0 /\
       forall i p, nth_error ps0 i = Some p -> Post.id p <> postId ->
                   nth_error (posts s) i = Some p)
    (updatePostStatus w postId st).
Proof.
  intros s [Hids Hrows].
  destruct (updatePostStatus_eq w postId st s) as [r E]. rewrite E.
  unfold afterUpdatePostStatus. simpl. split.
  - rewrite <- Hids, map_map. apply map_ext.
    intros p. destruct (String.eqb (Post.id p) postId); reflexivity.
  - intros i p Hi Hp. rewrite nth_error_map, (Hrows i p Hi Hp). simpl.
    destruct (String.eqb (Post.id p) postId) eqn:E'; [| reflexivity].
    apply String.eqb_eq in E'. contradiction.
Qed.

Lemma saveContent_appends_for_its_post (postId : string)
  (content : CrawledContent) (cs0 : list Content.t) :
  preserves
    (fun s =>
       exists rows,
         contents s = cs0 ++ rows /\ List.length rows <= 1 /\
         Forall (fun c => Content.postId c = postId) rows)
    (saveContent postId content).
Proof.
  intros s (rows & Hcs & Hlen & Hrows).
  destruct (find (fun c => String.eqb (Content.postId c) postId)
              (contents s)) as [c |] eqn:E.
  - rewrite (saveContent_present postId content s c E).
    exists rows. auto.
  - rewrite (saveContent_absent postId content s E).
    destruct rows as [| row rows].
    + eexists. split; [rewrite Hcs, app_nil_r; reflexivity |].
      split; [simpl; lia |]. constructor; [reflexivity | constructor].
    + exfalso. apply find_none_filter_nil in E.
      rewrite Hcs, filter_app in E. apply app_eq_nil in E.
      destruct E as [_ E]. simpl in E. inversion Hrows as [| ? ? Hrow _].
      rewrite Hrow, String.eqb_refl in E. discriminate.
Qed.

Lemma downloadPost_other_posts (w : World) (postId : string)
  (s : AppState) :
  map Post.id (posts (snd (downloadPost w postId s))) = map Post.id (posts s) /\
  (forall i p,
      nth_error (posts s) i = Some p -> Post.id p <> postId ->
      nth_error (posts (snd (downloadPost w postId s))) i = Some p).
Proof.
  exact (downloadPost_posts_invariant w postId
           (fun ps =>
              map Post.id ps = map Post.id (posts s) /\
              forall i p, nth_error (posts s) i = Some p ->
                          Post.id p <> postId ->
                          nth_error ps i = Some p)
           (fun st => updatePostStatus_other_posts w postId st (posts s))
           s (conj eq_refl (fun i p H _ => H))).
Qed.

(** X17. A run touches its own post only, whatever the remote services and
    the listeners do: no post is added or removed, the row of every other
    post is left as it is, and the content table grows by at most one
    row, which belongs to the post of the run. *)
Theorem run_touches_its_own_post_only (w : World) (postId : string)
  (s : AppState) :
  let s' := snd (downloadPost w postId s) in
  map Post.id (posts s') = map Post.id (posts s) /\
  (forall i p,
      nth_error (posts s) i = Some p -> Post.id p <> postId ->
      nth_error (posts s') i = Some p) /\
  (exists rows,
      contents s' = contents s ++ rows /\ List.length rows <= 1 /\
      Forall (fun c => Content.postId c = postId) rows).
Proof.
  intros s'.
  destruct (downloadPost_other_posts w postId s) as [Hids Hrows].
  split; [exact Hids |]. split; [exact Hrows |].
  apply (downloadPost_contents_invariant w postId
           (fun cs =>
              exists rows,
                cs = contents s ++ rows /\ List.length rows <= 1 /\
                Forall (fun c => Content.postId c = postId) rows)
           (fun content =>
              saveContent_appends_for_its_post postId content (contents s))).
  exists []. split; [rewrite app_nil_r; reflexivity |].
  split; [simpl; lia | constructor].
Qed.

(** ** The rows a run creates *)

(** The status and the local path with which an iteration leaves a row
    that was created without a local path. *)
Lemma itemUpdate_outcome (w : World) (postId : string) (m : Media.t) :
  Media.localPath m = None ->
  let row := itemUpdate w postId m m in
  Media.downloadStatus row = itemStatus w postId m /\
  (Media.localPath row <> None <->
   Media.downloadStatus row = media_completed).
Proof.
  intros Hm row. split; [apply itemStatus_itemUpdate |].
  subst row. unfold itemUpdate.
  destruct (oversized w m); simpl.
  - rewrite Hm. split; [congruence | discriminate].
  - destruct (transferred w postId m) as [[uri size] |]; simpl.
    + split; [reflexivity | discriminate].
    + rewrite Hm. split; [congruence | discriminate].
Qed.

(** X18. After a run whose crawl succeeds and in which no listener throws,
    none of the media rows it created is left [pending] or [downloading]:
    each is [completed], [failed] or [skipped], and it has a local path
    exactly when it is [completed]. *)
Theorem created_media_end_in_a_final_status (w : World) (s : AppState)
  (postId : string) (post : Post.t) (content : CrawledContent) :
  quiet s ->
  find (fun p => String.eqb (Post.id p) postId) (posts s) = Some post ->
  crawlSucceeds w (Post.url post) = Some content ->
  exists s',
    downloadPost w postId s = (Ok true, s') /\
    Forall
      (fun row =>
         (Media.downloadStatus row = media_completed \/
          Media.downloadStatus row = media_failed \/
          Media.downloadStatus row = media_skipped) /\
         (Media.localPath row <> None <->
          Media.downloadStatus row = media_completed))
      (createdMedia s s').
Proof.
  intros Hq Hfind Hcrawl.
  destruct (downloadPost_quiet_success w s postId post content Hq Hfind Hcrawl)
    as (s' & extra & Hrun & _ & Hm & _).
  exists s'. split; [exact Hrun |].
  unfold createdMedia. rewrite Hm, skipn_app_exact.
  apply Forall_forall. intros row Hrow.
  apply in_map_iff in Hrow. destruct Hrow as (m & <- & Hin).
  apply In_crawledRows in Hin. destruct Hin as (i & item & _ & ->).
  destruct (itemUpdate_outcome w postId (rowOf postId i item) eq_refl)
    as [Hst Hpath].
  split; [| exact Hpath].
  rewrite Hst. unfold itemStatus.
  destruct (oversized w _); [auto |].
  destruct (transferred w postId _); auto.
Qed.

(** X19. In such a run the row of a crawled reference is [skipped] exactly
    when the reference is a video and the probe of its url gave a content
    length that is not at most 100 MB.  A header that does not parse as a
    number counts as too large; a video without a header, or of exactly
    100 MB, is not skipped. *)
Theorem video_is_skipped_exactly_when_probe_is_not_within_limit
  (w : World) (s : AppState) (postId : string) (post : Post.t)
  (content : CrawledContent) (i : nat) (item : CrawledMedia) :
  quiet s ->
  find (fun p => String.eqb (Post.id p) postId) (posts s) = Some post ->
  crawlSucceeds w (Post.url post) = Some content ->
  nth_error (cc_media content) i = Some item ->
  exists s' row,
    downloadPost w postId s = (Ok true, s') /\
    nth_error (createdMedia s s') i = Some row /\
    (Media.downloadStatus row = media_skipped <->
     cm_type item = video /\
     match head_contentLength w (cm_url item) with
     | Some (Num z) => (100 * 1024 * 1024 < z)%Z
     | Some NaN => True
     | None => False
     end).
Proof.
  intros Hq Hfind Hcrawl Hitem.
  destruct (downloadPost_quiet_success w s postId post content Hq Hfind Hcrawl)
    as (s' & extra & Hrun & _ & Hm & _).
  exists s', (itemUpdate w postId (rowOf postId i item) (rowOf postId i item)).
  split; [exact Hrun |]. split.
  { unfold createdMedia. rewrite Hm, skipn_app_exact, nth_error_map.
    rewrite nth_error_crawledRows, Hitem. reflexivity. }
  rewrite itemStatus_itemUpdate. unfold itemStatus, oversized, rowOf.
  simpl.
  destruct (cm_type item); [split; [| intros [H _]; discriminate H] |].
  - destruct (transferred w postId _); discriminate.
  - destruct (head_contentLength w (cm_url item)) as [[| z] |]; simpl.
    + split; auto.
    + destruct (Z.leb_spec z MAX_VIDEO_SIZE_BYTES) as [Hle | Hgt]; simpl.
      * split; [| intros [_ H]; unfold MAX_VIDEO_SIZE_BYTES in Hle; lia].
        destruct (transferred w postId _); discriminate.
      * split; [| reflexivity]. intros _. split; [reflexivity |].
        exact Hgt.
    + split; [| intros [_ []]].
      destruct (transferred w postId _); discriminate.
Qed.

(** ** The background task *)

Lemma find_id_In (postId : string) (ps : list Post.t) :
  In postId (map Post.id ps) ->
  find (fun p => String.eqb (Post.id p) postId) ps <> None.
Proof.
  intros Hin E. apply in_map_iff in Hin. destruct Hin as (p & Hp & Hin).
  pose proof (find_none _ _ E p Hin) as H. simpl in H.
  rewrite Hp, String.eqb_refl in H. discriminate.
Qed.

Lemma downloadPost_quiet_settles (w : World) (s : AppState)
  (postId : string) :
  quiet s ->
  In postId (map Post.id (posts s)) ->
  exists s',
    downloadPost w postId s = (Ok (match postStatus postId s' with
                                   | Some post_failed => false
                                   | _ => true
                                   end), s') /\
    settled postId s'.
Proof.
  intros Hq Hin.
  destruct (find (fun p => String.eqb (Post.id p) postId) (posts s))
    as [post |] eqn:Hfind; [| exfalso; exact (find_id_In _ _ Hin Hfind)].
  destruct (crawlSucceeds w (Post.url post)) as [content |] eqn:Hcrawl.
  - destruct (downloadPost_quiet_success w s postId post content Hq Hfind
                Hcrawl) as (s' & extra & Hrun & Hst & _).
    exists s'. rewrite Hst. unfold settled. rewrite Hst.
    destruct (existsb _ _); split; auto.
  - destruct (downloadPost_quiet_failure w s postId post Hq Hfind Hcrawl)
      as (s' & Hrun & Hst & _).
    exists s'. rewrite Hst. unfold settled. rewrite Hst. split; auto.
Qed.

Lemma downloadPost_other_status (w : World) (s : AppState)
  (postId other : string) :
  other <> postId ->
  postStatus other (snd (downloadPost w postId s)) = postStatus other s.
Proof.
  intros Hneq. unfold postStatus. f_equal.
  apply (downloadPost_posts_invariant w postId
           (fun ps =>
              find (fun p => String.eqb (Post.id p) other) ps =
              find (fun p => String.eqb (Post.id p) other) (posts s)));
    [| reflexivity].
  intros st s0 H0.
  destruct (updatePostStatus_eq w postId st s0) as [r E]. rewrite E.
  unfold afterUpdatePostStatus. simpl. rewrite <- H0.
  generalize (posts s0) as ps. induction ps as [| p ps IH]; simpl;
    [reflexivity |].
  destruct (String.eqb (Post.id p) postId) eqn:Ep; simpl.
  - apply String.eqb_eq in Ep.
    replace (String.eqb (Post.id p) other) with false
      by (symmetry; apply String.eqb_neq; congruence).
    exact IH.
  - destruct (String.eqb (Post.id p) other); [reflexivity | exact IH].
Qed.

Lemma downloadEach_quiet (w : World) (ps : list Post.t) (s : AppState) :
  quiet s ->
  (forall p, In p ps -> In (Post.id p) (map Post.id (posts s))) ->
  exists s',
    downloadEach w ps s = (Ok tt, s') /\
    quiet s' /\
    map Post.id (posts s') = map Post.id (posts s) /\
    (forall q, settled q s -> settled q s') /\
    (forall p, In p ps -> settled (Post.id p) s') /\
    (forall i p,
        nth_error (posts s) i = Some p ->
        ~ In (Post.id p) (map Post.id ps) ->
        nth_error (posts s') i = Some p).
Proof.
  revert s. induction ps as [| p ps IH]; intros s Hq Hin.
  - exists s. simpl. repeat split; auto. intros p [].
  - destruct (downloadPost_quiet_settles w s (Post.id p) Hq
                (Hin p (or_introl eq_refl))) as (s1 & Hrun & Hset).
    pose proof (downloadPost_other_posts w (Post.id p) s)
      as (Hids & Hrows).
    rewrite Hrun in Hids, Hrows. simpl in Hids, Hrows.
    assert (Hq1 : quiet s1).
    { apply (quiet_same_listeners s s1); [| exact Hq].
      exact (downloadPost_keeps_listeners w _ s s1 _ Hrun). }
    destruct (IH s1 Hq1) as (s' & Hrest & Hq' & Hids' & Hkeep & Hall & Hrows').
    { intros p' Hp'. rewrite Hids. apply Hin. right. exact Hp'. }
    exists s'. simpl. erewrite bind_ok by exact Hrun.
    split; [exact Hrest |]. split; [exact Hq' |].
    split; [congruence |].
    assert (Hstep : forall q, settled q s -> settled q s1).
    { intros q Hs. destruct (String.eqb_spec q (Post.id p)) as [-> | Hneq];
        [exact Hset |].
      unfold settled in *.
      pose proof (downloadPost_other_status w s (Post.id p) q Hneq) as H.
      rewrite Hrun in H. simpl in H. rewrite H. exact Hs. }
    split; [intros q Hs; apply Hkeep, Hstep, Hs |].
    split.
    + intros p' [<- | Hp']; [apply Hkeep, Hset | apply Hall, Hp'].
    + intros i p' Hi Hout. apply Hrows'.
      * apply Hrows; [exact Hi |]. intros E. apply Hout. left.
        symmetry. exact E.
      * intros H. apply Hout. right. exact H.
Qed.

Lemma selectedPosts_spec (s : AppState) (p : Post.t) :
  In p (selectedPosts s) ->
  In p (posts s) /\ Post.downloadStatus p = post_pending.
Proof.
  unfold selectedPosts. intros H. apply In_firstn in H.
  apply In_stable_sort in H. apply filter_In in H. destruct H as [Hin Hst].
  split; [exact Hin |]. destruct (Post.downloadStatus p); simpl in Hst;
    congruence.
Qed.

(** X20. The background task never throws: it returns [NewData] or
    [Failed].  When no listener throws it returns [NewData] after running
    the pipeline on at most five posts, the newest pending ones: each of
    them has left [pending] for [completed], [partial] or [failed], and the
    row of every post that is not one of them is as it was. *)
Theorem background_task_settles_newest_pending_posts (w : World)
  (s : AppState) :
  (exists r s',
      backgroundDownloadTask w s = (Ok r, s') /\ (r = NewData \/ r = Failed)) /\
  (quiet s ->
   exists s',
     backgroundDownloadTask w s = (Ok NewData, s') /\
     List.length (selectedPosts s) <= 5 /\
     (forall p,
         In p (selectedPosts s) ->
         In p (posts s) /\ Post.downloadStatus p = post_pending /\
         settled (Post.id p) s') /\
     (forall i p,
         nth_error (posts s) i = Some p ->
         ~ In (Post.id p) (map Post.id (selectedPosts s)) ->
         nth_error (posts s') i = Some p)).
Proof.
  assert (Hall : getAllPosts (mkGetAllPostsOptions None None
                                (Some post_pending)) s =
                 (Ok (stable_sort
                        (fun a b => (Post.createdAt b <=? Post.createdAt a)%Z)
                        (filter
                           (fun p => PostDownloadStatus_eqb
                                       (Post.downloadStatus p) post_pending)
                           (posts s))), s)) by reflexivity.
  split.
  - unfold backgroundDownloadTask, try_catch.
    erewrite bind_ok by exact Hall.
    unfold bind. destruct (downloadEach w _ s) as [[u | e] s'];
      eexists; eexists; (split; [reflexivity | auto]).
  - intros Hq.
    destruct (downloadEach_quiet w (selectedPosts s) s Hq)
      as (s' & Hrun & _ & _ & _ & Hset & Hrows).
    { intros p Hp. apply in_map. apply selectedPosts_spec. exact Hp. }
    exists s'. split.
    + unfold backgroundDownloadTask. apply try_catch_ok.
      erewrite bind_ok by exact Hall.
      erewrite bind_ok by exact Hrun. reflexivity.
    + split; [unfold selectedPosts; apply firstn_le_length |].
      split; [| exact Hrows].
      intros p Hp. destruct (selectedPosts_spec s p Hp) as [Hin Hst].
      split; [exact Hin |]. split; [exact Hst | exact (Hset p Hp)].
Qed.

(** ** Listing posts *)




(** * Properties of the share handler *)

Lemma existsb_false_not_In {A : Type} (f : A -> string) (x : string)
  (l : list A) :
  existsb (fun a => String.eqb (f a) x) l = false -> ~ In x (map f l).
Proof.
  intros E Hin. apply in_map_iff in Hin. destruct Hin as (a & Ha & Hin).
  assert (H : existsb (fun a => String.eqb (f a) x) l = true).
  { apply existsb_exists. exists a. split; [exact Hin |].
    rewrite Ha. apply String.eqb_refl. }
  congruence.
Qed.

Lemma find_hash_existsb (urlHash : string) (ps : list Post.t) :
  find (fun p => String.eqb (Post.urlHash p) urlHash) ps = None ->
  existsb (fun p => String.eqb (Post.urlHash p) urlHash) ps = false.
Proof.
  intros H. induction ps as [| p ps IH]; simpl in *; [reflexivity |].
  destruct (String.eqb (Post.urlHash p) urlHash); [discriminate |].
  exact (IH H).
Qed.

(** The three ways [processUrl] ends. *)
Lemma processUrl_cases (w : World) (newId url urlHash : string)
  (s : AppState) :
  (exists post,
      find (fun p => String.eqb (Post.urlHash p) urlHash) (posts s)
        = Some post /\
      processUrl w newId url urlHash s =
        (Ok (mkShareResult true (Some post) true None), s)) \/
  (find (fun p => String.eqb (Post.urlHash p) urlHash) (posts s) = None /\
   ~ In newId (map Post.id (posts s)) /\
   let post := Post.mk newId url urlHash None post_pending
                 (clock w (ticks s)) (clock w (ticks s)) in
   processUrl w newId url urlHash s =
     (Ok (mkShareResult true (Some post) false None),
      set_posts (posts s ++ [post]) (set_ticks (S (ticks s)) s))) \/
  (find (fun p => String.eqb (Post.urlHash p) urlHash) (posts s) = None /\
   In newId (map Post.id (posts s)) /\
   processUrl w newId url urlHash s =
     (Ok (mkShareResult false None false
            (Some "UNIQUE constraint failed: posts.id"%string)),
      set_ticks (S (ticks s)) s)).
Proof.
  unfold processUrl, getPostByUrlHash, createPost, getCurrentTimestamp,
    try_catch, bind, gets, modify, ret, throw.
  destruct (find _ (posts s)) as [post |] eqn:E.
  - left. exists post. split; reflexivity.
  - right. simpl.
    destruct (existsb (fun p => String.eqb (Post.id p) newId) (posts s))
      eqn:Eid.
    + right. split; [reflexivity |]. split; [| reflexivity].
      apply existsb_exists in Eid. destruct Eid as (p & Hp & Hid).
      apply String.eqb_eq in Hid. rewrite <- Hid. apply in_map. exact Hp.
    + left. split; [reflexivity |].
      split; [exact (existsb_false_not_In Post.id newId _ Eid) |].
      rewrite (find_hash_existsb urlHash _ E). reflexivity.
Qed.

(** X22. [processUrl] never throws.  When it succeeds, the post it returns
    is in the table with the given hash, and processing the same hash
    again, with whatever url and new id, reports that post as a duplicate
    and writes nothing: one hash gets one post.  When it fails, the posts
    table is as it was. *)
Theorem sharing_a_url_twice_creates_one_post (w : World)
  (id1 id2 url1 url2 urlHash : string) (s : AppState) :
  exists r1 s1,
    processUrl w id1 url1 urlHash s = (Ok r1, s1) /\
    (sr_success r1 = true ->
     exists post,
       sr_post r1 = Some post /\ Post.urlHash post = urlHash /\
       In post (posts s1) /\
       processUrl w id2 url2 urlHash s1 =
         (Ok (mkShareResult true (Some post) true None), s1)) /\
    (sr_success r1 = false ->
     posts s1 = posts s /\ sr_post r1 = None /\ sr_errorMessage r1 <> None).
Proof.
  assert (Hdup : forall s0 post,
            find (fun p => String.eqb (Post.urlHash p) urlHash) (posts s0)
              = Some post ->
            processUrl w id2 url2 urlHash s0 =
              (Ok (mkShareResult true (Some post) true None), s0)).
  { intros s0 post H.
    destruct (processUrl_cases w id2 url2 urlHash s0)
      as [(p & Hp & Hrun) | [(Hn & _) | (Hn & _)]]; congruence. }
  destruct (processUrl_cases w id1 url1 urlHash s)
    as [(post & Hfind & Hrun) | [(Hnone & Hid & Hrun) | (Hnone & Hid & Hrun)]];
    rewrite Hrun; eexists; eexists; (split; [reflexivity |]); simpl.
  - split; [| discriminate]. intros _. exists post.
    destruct (find_some _ _ Hfind) as [Hin Hh]. apply String.eqb_eq in Hh.
    repeat split; auto.
  - split; [| discriminate]. intros _. eexists.
    split; [reflexivity |]. split; [reflexivity |].
    split; [apply in_or_app; right; left; reflexivity |].
    apply Hdup. simpl. apply find_snoc_new; [exact Hnone |].
    apply String.eqb_refl.
  - split; [discriminate |]. intros _. repeat split. discriminate.
Qed.

Lemma processUrl_uniquePosts (w : World) (newId url urlHash : string) :
  preserves uniquePosts (processUrl w newId url urlHash).
Proof.
  intros s [Hids Hhashes].
  destruct (processUrl_cases w newId url urlHash s)
    as [(post & _ & Hrun) | [(Hnone & Hid & Hrun) | (_ & _ & Hrun)]];
    rewrite Hrun; simpl; unfold uniquePosts; simpl;
    try (split; assumption).
  rewrite !map_app. simpl. split; apply NoDup_snoc; try assumption.
  apply existsb_false_not_In. apply find_hash_existsb. exact Hnone.
Qed.

Lemma updatePostStatus_keeps_keys (w : World) (postId : string)
  (st : PostDownloadStatus) (ids hashes : list string) :
  preserves
    (fun s => map Post.id (posts s) = ids /\
              map Post.urlHash (posts s) = hashes)
    (updatePostStatus w postId st).
Proof.
  intros s [H1 H2].
  destruct (updatePostStatus_eq w postId st s) as [r E]. rewrite E.
  unfold afterUpdatePostStatus. simpl. rewrite <- H1, <- H2.
  rewrite !map_map. split; apply map_ext; intros p;
    destruct (String.eqb (Post.id p) postId); reflexivity.
Qed.

Lemma downloadPost_uniquePosts (w : World) (postId : string) :
  preserves uniquePosts (downloadPost w postId).
Proof.
  intros s [Hids Hhashes].
  destruct (downloadPost_posts_invariant w postId
              (fun ps => map Post.id ps = map Post.id (posts s) /\
                         map Post.urlHash ps = map Post.urlHash (posts s))
              (fun st => updatePostStatus_keeps_keys w postId st _ _)
              s (conj eq_refl eq_refl)) as [E1 E2].
  unfold uniquePosts. rewrite E1, E2. split; assumption.
Qed.

(** X23. Post ids and url hashes stay unique: if no two posts share an id
    or a url hash, this is still so after [processUrl], after
    [handleSharedUrl] with any validator, and after a run of the
    pipeline. *)
Theorem posts_keep_unique_ids_and_hashes (w : World)
  (validate : string -> Result UrlValidationResult)
  (newId url urlHash postId : string) (s : AppState) :
  uniquePosts s ->
  uniquePosts (snd (processUrl w newId url urlHash s)) /\
  uniquePosts (snd (handleSharedUrl w validate newId url s)) /\
  uniquePosts (snd (downloadPost w postId s)).
Proof.
  intros Hs. split; [apply processUrl_uniquePosts; exact Hs |].
  split; [| apply downloadPost_uniquePosts; exact Hs].
  unfold handleSharedUrl, bind.
  destruct (validate url) as [v | e]; [| exact Hs].
  destruct (uvr_isValid v); simpl; [| exact Hs].
  destruct (truthy_string (uvr_normalizedUrl v)) as [u |]; [| exact Hs].
  destruct (truthy_string (uvr_urlHash v)) as [h |]; [| exact Hs].
  apply processUrl_uniquePosts. exact Hs.
Qed.

(** X24. [handleSharedUrl] adds at most one post, and only for a url that
    the validator accepts with a non-empty normalized url and hash that is
    not yet in the table: the new post is [pending], has the fresh id and
    carries the normalized url, not the shared text.  In every other case
    the posts table is left as it is. *)
Theorem shared_url_adds_at_most_one_pending_post (w : World)
  (validate : string -> Result UrlValidationResult)
  (newId url : string) (s : AppState) :
  let run := handleSharedUrl w validate newId url s in
  posts (snd run) = posts s \/
  exists v normalizedUrl urlHash post,
    validate url = Ok v /\ uvr_isValid v = true /\
    uvr_normalizedUrl v = Some normalizedUrl /\ normalizedUrl <> ""%string /\
    uvr_urlHash v = Some urlHash /\ urlHash <> ""%string /\
    ~ In urlHash (map Post.urlHash (posts s)) /\
    posts (snd run) = posts s ++ [post] /\
    Post.id post = newId /\ Post.url post = normalizedUrl /\
    Post.urlHash post = urlHash /\ Post.downloadStatus post = post_pending /\
    fst run = Ok (mkShareResult true (Some post) false None).
Proof.
  unfold handleSharedUrl, bind.
  destruct (validate url) as [v | e] eqn:Ev; [| left; reflexivity].
  destruct (uvr_isValid v) eqn:Evalid; simpl; [| left; reflexivity].
  destruct (uvr_normalizedUrl v) as [[| c u] |] eqn:Eu; simpl;
    try (left; reflexivity).
  destruct (uvr_urlHash v) as [[| c' h] |] eqn:Eh; simpl;
    try (left; reflexivity).
  destruct (processUrl_cases w newId (String c u) (String c' h) s)
    as [(post & _ & Hrun) | [(Hnone & Hid & Hrun) | (_ & _ & Hrun)]];
    rewrite Hrun; simpl; try (left; reflexivity).
  right. exists v, (String c u), (String c' h). eexists.
  repeat split; try reflexivity; try assumption; try discriminate.
  apply existsb_false_not_In. apply find_hash_existsb. exact Hnone.
Qed.

(** * Properties of the statement builders *)

(** ** Case conversion *)

Lemma lower_of_upper (c : ascii) :
  isUpperAZ c = true ->
  isLowerAZ (toLowerCase c) = true /\ toUpperCase (toLowerCase c) = c /\
  isUpperAZ (toLowerCase c) = false.
Proof.
  destruct c as [[] [] [] [] [] [] [] []]; vm_compute; intros H;
    try discriminate H; repeat split.
Qed.

Lemma upper_of_lower (c : ascii) :
  isLowerAZ c = true ->
  isUpperAZ (toUpperCase c) = true /\ toLowerCase (toUpperCase c) = c.
Proof.
  destruct c as [[] [] [] [] [] [] [] []]; vm_compute; intros H;
    try discriminate H; repeat split.
Qed.

Lemma upper_is_not_lower (c : ascii) :
  isUpperAZ c = true -> isLowerAZ c = false.
Proof.
  destruct c as [[] [] [] [] [] [] [] []]; vm_compute; intros H;
    try discriminate H; reflexivity.
Qed.

Lemma toCamelCase_keeps_head (c : ascii) (str : string) :
  match str with
  | String d _ => Ascii.eqb c "_" && isLowerAZ d
  | EmptyString => false
  end = false ->
  toCamelCase (String c str) = String c (toCamelCase str).
Proof.
  destruct str as [| d rest]; [reflexivity |].
  intros H. cbn [toCamelCase]. rewrite H. reflexivity.
Qed.

Lemma toCamelCase_toSnakeCase (str : string) :
  noSnakeJoint str = true -> toCamelCase (toSnakeCase str) = str.
Proof.
  induction str as [| c rest IH]; intros H; [reflexivity |].
  simpl in H. apply andb_true_iff in H. destruct H as [Hc Hrest].
  specialize (IH Hrest).
  cbn [toSnakeCase]. destruct (isUpperAZ c) eqn:Ec.
  - destruct (lower_of_upper c Ec) as (Hl & Hu & _).
    cbn [toCamelCase]. rewrite Hl. simpl. rewrite Hu, IH. reflexivity.
  - rewrite toCamelCase_keeps_head; [rewrite IH; reflexivity |].
    destruct rest as [| d rest']; [reflexivity |].
    cbn [toSnakeCase]. destruct (isUpperAZ d) eqn:Ed.
    + rewrite andb_comm. reflexivity.
    + apply negb_true_iff in Hc. exact Hc.
Qed.

Lemma toSnakeCase_toCamelCase (str : string) :
  noUpperCase str = true -> toSnakeCase (toCamelCase str) = str.
Proof.
  assert (H : (noUpperCase str = true ->
               toSnakeCase (toCamelCase str) = str) /\
              (forall c, noUpperCase (String c str) = true ->
                         toSnakeCase (toCamelCase (String c str))
                         = String c str)).
  { induction str as [| d rest [IH1 IH2]].
    - split; [reflexivity |]. intros c H. simpl in *.
      apply andb_true_iff in H. destruct H as [H _].
      apply negb_true_iff in H. rewrite H. reflexivity.
    - split; [exact (IH2 d) |]. intros c H.
      pose proof H as H'. simpl in H'.
      apply andb_true_iff in H'. destruct H' as [Hc Hrest].
      apply negb_true_iff in Hc.
      cbn [toCamelCase].
      destruct (Ascii.eqb c "_" && isLowerAZ d) eqn:E.
      + apply andb_true_iff in E. destruct E as [Ec Ed].
        apply Ascii.eqb_eq in Ec. subst c.
        destruct (upper_of_lower d Ed) as [Hu Hl].
        cbn [toSnakeCase]. rewrite Hu, Hl.
        apply andb_true_iff in Hrest. destruct Hrest as [_ Hrest].
        rewrite (IH1 Hrest). reflexivity.
      + change (toSnakeCase (String c (toCamelCase (String d rest)))
                = String c (String d rest)).
        cbn [toSnakeCase]. rewrite Hc. rewrite (IH2 d Hrest). reflexivity. }
  exact (proj1 H).
Qed.

Lemma noUpperCase_toSnakeCase (str : string) :
  noUpperCase (toSnakeCase str) = true.
Proof.
  induction str as [| c rest IH]; [reflexivity |].
  cbn [toSnakeCase]. destruct (isUpperAZ c) eqn:Ec.
  - destruct (lower_of_upper c Ec) as (_ & _ & H).
    simpl. rewrite H, IH. reflexivity.
  - simpl. rewrite Ec, IH. reflexivity.
Qed.

(** X25. [toSnakeCase] yields a string without upper-case letters, and the
    two conversions undo each other on their ranges: [toCamelCase] undoes
    [toSnakeCase] on every string in which no underscore is followed by a
    lower-case letter, and [toSnakeCase] undoes [toCamelCase] on every
    string without upper-case letters. *)
Theorem case_conversions_undo_each_other (str : string) :
  noUpperCase (toSnakeCase str) = true /\
  (noSnakeJoint str = true -> toCamelCase (toSnakeCase str) = str) /\
  (noUpperCase str = true -> toSnakeCase (toCamelCase str) = str).
Proof.
  split; [apply noUpperCase_toSnakeCase |].
  split; [apply toCamelCase_toSnakeCase | apply toSnakeCase_toCamelCase].
Qed.

(** ** Placeholders and values *)

Lemma countChar_append (c : ascii) (a b : string) :
  countChar c (a ++ b) = countChar c a + countChar c b.
Proof.
  induction a as [| d a IH]; simpl; [reflexivity |]. rewrite IH. lia.
Qed.

Lemma countChar_join (c : ascii) (sep : string) (parts : list string) :
  countChar c sep = 0 ->
  countChar c (join sep parts) = list_sum (map (countChar c) parts).
Proof.
  intros Hsep. induction parts as [| p rest IH]; [reflexivity |].
  cbn [join]. destruct rest as [| q rest'].
  - simpl. lia.
  - rewrite !countChar_append, Hsep, IH. simpl. lia.
Qed.

Lemma list_sum_placeholders {A : Type} (l : list A) :
  list_sum (map (countChar "?") (map (fun _ => "?"%string) l))
  = List.length l.
Proof. induction l as [| x l IH]; simpl; [reflexivity | rewrite IH; lia]. Qed.

Lemma list_sum_zero {A : Type} (f : A -> nat) (l : list A) :
  Forall (fun x => f x = 0) l -> list_sum (map f l) = 0.
Proof.
  intros H. induction H as [| x l Hx _ IH]; simpl; [reflexivity | lia].
Qed.

Lemma countChar_toSnakeCase (str : string) :
  countChar "?" (toSnakeCase str) = countChar "?" str.
Proof.
  induction str as [| c rest IH]; [reflexivity |].
  cbn [toSnakeCase]. destruct (isUpperAZ c) eqn:Ec.
  - simpl. rewrite IH.
    revert Ec. destruct c as [[] [] [] [] [] [] [] []]; vm_compute;
      intros Ec; try discriminate Ec; reflexivity.
  - simpl. rewrite IH. reflexivity.
Qed.

Lemma whereStep_balanced (conditions : JsRecord)
  (acc : list string * list JsValue) :
  Forall (fun e => countChar "?" (fst e) = 0) conditions ->
  list_sum (map (countChar "?") (fst acc)) = List.length (snd acc) ->
  let result := fold_left whereStep conditions acc in
  list_sum (map (countChar "?") (fst result)) = List.length (snd result).
Proof.
  intros Hkeys. revert acc.
  induction Hkeys as [| [key value] rest Hkey _ IH]; intros acc Hacc;
    [exact Hacc |].
  simpl. apply IH. simpl in Hkey.
  unfold whereStep. simpl.
  destruct value; simpl; rewrite map_app, list_sum_app; simpl;
    rewrite ?length_app, ?countChar_append, ?countChar_toSnakeCase, ?Hkey;
    simpl; try lia.
  rewrite countChar_append, countChar_join by reflexivity.
  rewrite list_sum_placeholders. simpl. lia.
Qed.

(** X26. The statement builders bind one value per placeholder: when the
    table and column names contain no question mark, the text built by
    [buildInsertStatement], [buildUpdateStatement] and [buildWhereClause]
    has exactly as many question marks as the list of values that goes
    with it.  The values of an INSERT are those of the row in column
    order, an UPDATE binds the id last, and no conditions give an empty
    clause without values. *)
Theorem builders_bind_one_value_per_placeholder (tableName id : string)
  (row : JsRecord) :
  countChar "?" tableName = 0 ->
  Forall (fun e => countChar "?" (fst e) = 0) row ->
  countChar "?" (fst (buildInsertStatement tableName row))
    = List.length (snd (buildInsertStatement tableName row)) /\
  snd (buildInsertStatement tableName row) = map snd row /\
  countChar "?" (fst (buildUpdateStatement tableName id row))
    = List.length (snd (buildUpdateStatement tableName id row)) /\
  snd (buildUpdateStatement tableName id row) = map snd row ++ [JsString id] /\
  countChar "?" (fst (buildWhereClause row))
    = List.length (snd (buildWhereClause row)) /\
  buildWhereClause [] = (EmptyString, []).
Proof.
  intros Htable Hkeys.
  assert (Hcols : list_sum (map (countChar "?") (map fst row)) = 0).
  { rewrite map_map. apply list_sum_zero. exact Hkeys. }
  split.
  { unfold buildInsertStatement. cbn [fst snd].
    rewrite !countChar_append, !countChar_join by reflexivity.
    rewrite list_sum_placeholders, Hcols, Htable, !length_map. simpl. lia. }
  split; [reflexivity |]. split.
  { unfold buildUpdateStatement. cbn [fst snd].
    rewrite !countChar_append, countChar_join by reflexivity.
    rewrite Htable, length_app, !length_map. simpl.
    assert (Hset : list_sum
                     (map (countChar "?")
                        (map (fun col => (col ++ " = ?")%string)
                           (map fst row))) = List.length row).
    { clear Hcols. induction Hkeys as [| e l He _ IH]; simpl;
        [reflexivity |].
      rewrite countChar_append, He, IH. simpl. lia. }
    rewrite Hset. lia. }
  split; [reflexivity |]. split; [| reflexivity].
  unfold buildWhereClause.
  pose proof (whereStep_balanced row ([], []) Hkeys eq_refl) as H.
  simpl in H. destruct (fold_left whereStep row ([], [])) as [parts values].
  simpl in *. destruct parts as [| p parts']; [exact H |].
  rewrite <- H.
  change (countChar "?" ("WHERE " ++ join " AND " (p :: parts'))
          = list_sum (map (countChar "?") (p :: parts'))).
  rewrite countChar_append, countChar_join by reflexivity. reflexivity.
Qed.

(** * Properties of the network monitor *)

Lemma getNetworkStatus_eq (reading : Result NetworkMonitor.NetworkState)
  (s : NetworkMonitor.State) :
  NetworkMonitor.getNetworkStatus reading s =
    match reading with
    | Ok ns =>
        let status :=
          NetworkMonitor.mkNetworkStatus
            (NetworkMonitor.orFalse (NetworkMonitor.ns_isConnected ns))
            (NetworkMonitor.orFalse
               (NetworkMonitor.ns_isInternetReachable ns))
            (NetworkMonitor.ns_type ns) in
        (Ok status, NetworkMonitor.set_currentStatus status s)
    | Throw _ => (Ok (NetworkMonitor.currentStatus s), s)
    end.
Proof. destruct reading; reflexivity. Qed.




Lemma notifyEach_calls_all (ls : list NetworkMonitor.Listener)
  (status : NetworkMonitor.NetworkStatus) (s : NetworkMonitor.State) :
  NetworkMonitor.notifyEach ls status s =
    (Ok tt,
     NetworkMonitor.set_notified
       (NetworkMonitor.notified s
        ++ map (fun l => (NetworkMonitor.listenerId l, status)) ls) s).
Proof.
  revert s. induction ls as [| l ls IH]; intros s; simpl.
  - rewrite app_nil_r. destruct s. reflexivity.
  - unfold bind, try_catch, NetworkMonitor.callListener, bind, modify.
    destruct (NetworkMonitor.throwsOn l status); simpl;
      rewrite IH; simpl; rewrite <- app_assoc; reflexivity.
Qed.

(** X28. [notifyListeners] contains the exceptions of the listeners: it
    returns normally and has called every registered listener once, in
    registration order, also those registered after one that throws. *)
Theorem network_listener_exceptions_are_contained
  (status : NetworkMonitor.NetworkStatus) (s : NetworkMonitor.State) :
  NetworkMonitor.notifyListeners status s =
    (Ok tt,
     NetworkMonitor.set_notified
       (NetworkMonitor.notified s
        ++ map (fun l => (NetworkMonitor.listenerId l, status))
             (NetworkMonitor.listeners s)) s).
Proof.
  unfold NetworkMonitor.notifyListeners, bind, gets.
  apply notifyEach_calls_all.
Qed.

(** X29. [getNetworkStatus] never throws.  When the platform call fails
    it returns the cached status and changes nothing; when it succeeds it
    returns the reported status, a missing flag counting as false, and
    caches it, so that [getCachedNetworkStatus] returns the same status
    afterwards.  [isOffline] is the negation of [isOnline], which holds
    when the status is both connected and reachable. *)
Theorem network_status_is_cached_and_falls_back
  (reading : Result NetworkMonitor.NetworkState)
  (s : NetworkMonitor.State) :
  exists status s',
    NetworkMonitor.getNetworkStatus reading s = (Ok status, s') /\
    NetworkMonitor.getCachedNetworkStatus s' = (Ok status, s') /\
    (forall e, reading = Throw e ->
               status = NetworkMonitor.currentStatus s /\ s' = s) /\
    (forall ns, reading = Ok ns ->
                NetworkMonitor.isConnected status
                  = NetworkMonitor.orFalse (NetworkMonitor.ns_isConnected ns) /\
                NetworkMonitor.isInternetReachable status
                  = NetworkMonitor.orFalse
                      (NetworkMonitor.ns_isInternetReachable ns)) /\
    NetworkMonitor.isOnline reading s =
      (Ok (NetworkMonitor.isConnected status
           && NetworkMonitor.isInternetReachable status), s') /\
    NetworkMonitor.isOffline reading s =
      (Ok (negb (NetworkMonitor.isConnected status
                 && NetworkMonitor.isInternetReachable status)), s').
Proof.
  unfold NetworkMonitor.isOffline, NetworkMonitor.isOnline, bind.
  rewrite getNetworkStatus_eq.
  destruct reading as [ns | e]; simpl; eexists; eexists;
    (split; [reflexivity |]); (split; [reflexivity |]);
    (split; [intros e' H; try discriminate H; split; reflexivity |]);
    (split; [intros ns' H; try discriminate H;
             try (injection H as <-); split; reflexivity |]);
    split; reflexivity.
Qed.

(** * Properties of the column mappings *)

Lemma flat_map_ext_in {A B : Type} (f g : A -> list B) (l : list A) :
  (forall a, In a l -> f a = g a) -> flat_map f l = flat_map g l.
Proof.
  intros H. induction l as [| a l IH]; simpl; [reflexivity |].
  rewrite (H a (or_introl eq_refl)), IH; [reflexivity |].
  intros b Hb. apply H. right. exact Hb.
Qed.

Lemma getProperty_app (key : string) (a b : JsRecord) :
  getProperty key (a ++ b) =
    match getProperty key a with
    | Some v => Some v
    | None => getProperty key b
    end.
Proof.
  induction a as [| [k v] a IH]; simpl; [reflexivity |].
  destruct (String.eqb k key); [reflexivity | exact IH].
Qed.

Section Mapping.

Variable JSON_stringify : list JsValue -> string.
Variable obj : JsRecord.

(** The row built from a list of mappings. *)
Let rowOfMappings (m : list (string * string)) : JsRecord :=
  flat_map
    (fun mapping =>
       match getProperty (fst mapping) obj with
       | Some value =>
           [(snd mapping, encodeValue JSON_stringify (fst mapping) value)]
       | None => []
       end) m.

Lemma getProperty_unmapped (m : list (string * string)) (db : string) :
  ~ In db (map snd m) -> getProperty db (rowOfMappings m) = None.
Proof.
  induction m as [| [ts0 db0] m IH]; intros H; simpl; [reflexivity |].
  rewrite getProperty_app. simpl in H.
  replace (getProperty db _) with (@None JsValue).
  - apply IH. intros Hin. apply H. right. exact Hin.
  - simpl. destruct (getProperty ts0 obj); [| reflexivity]. simpl.
    destruct (String.eqb_spec db0 db) as [E | _]; [| reflexivity].
    exfalso. apply H. left. exact E.
Qed.

Lemma getProperty_mapped (m : list (string * string)) (ts db : string) :
  NoDup (map snd m) -> In (ts, db) m ->
  getProperty db (rowOfMappings m) =
    option_map (encodeValue JSON_stringify ts) (getProperty ts obj).
Proof.
  induction m as [| [ts0 db0] m IH]; intros Hnd Hin; [contradiction |].
  simpl in Hnd. inversion Hnd as [| ? ? Hout Hnd']. subst.
  simpl. rewrite getProperty_app. destruct Hin as [E | Hin].
  - injection E as -> ->. simpl.
    destruct (getProperty ts obj) as [v |]; simpl.
    + rewrite String.eqb_refl. reflexivity.
    + apply getProperty_unmapped. exact Hout.
  - simpl. destruct (getProperty ts0 obj) as [v0 |]; simpl.
    + destruct (String.eqb_spec db0 db) as [E | _]; [| exact (IH Hnd' Hin)].
      exfalso. apply Hout. subst db0.
      apply (in_map snd _ _ Hin).
    + exact (IH Hnd' Hin).
Qed.

End Mapping.

Lemma column_names_are_distinct (tableName : TableName) :
  NoDup (map snd (COLUMN_MAPPINGS tableName)).
Proof.
  destruct tableName; simpl;
    repeat (constructor;
            [simpl; intros H;
             repeat (destruct H as [H | H]; [discriminate H |]);
             exact H |]);
    constructor.
Qed.

Lemma column_names_are_snake_case (tableName : TableName) :
  Forall (fun mapping => snd mapping = toSnakeCase (fst mapping))
    (COLUMN_MAPPINGS tableName).
Proof. destruct tableName; simpl; repeat constructor. Qed.

(** X30. [rowToObject] undoes [objectToRow]: converting an object to a row
    and back gives the properties of the object that have a column in the
    table, in column order, with their values; properties without a column
    are dropped.  The column of each property is the snake-case form of
    its key.  This needs the labels of the object, if any, to be an array
    that JSON reads back as written (or a value that is neither an array
    nor a string). *)
Theorem row_conversion_round_trip
  (JSON_stringify : list JsValue -> string)
  (JSON_parse : string -> option JsValue)
  (obj : JsRecord) (tableName : TableName) :
  labelsRoundTrip JSON_stringify JSON_parse obj ->
  rowToObject JSON_parse (objectToRow JSON_stringify obj tableName) tableName
    = mappedProperties obj tableName /\
  map fst (objectToRow JSON_stringify obj tableName)
    = map toSnakeCase (map fst (mappedProperties obj tableName)).
Proof.
  intros Hlabels. split.
  - unfold rowToObject, mappedProperties.
    apply flat_map_ext_in. intros [ts db] Hin. simpl.
    unfold objectToRow.
    rewrite (getProperty_mapped JSON_stringify obj _ ts db
               (column_names_are_distinct tableName) Hin).
    destruct (getProperty ts obj) as [v |] eqn:Ev; [| reflexivity].
    simpl. f_equal. f_equal.
    unfold encodeValue, decodeValue.
    destruct (String.eqb_spec ts "labels") as [-> | Hts].
    + unfold labelsRoundTrip in Hlabels. rewrite Ev in Hlabels.
      destruct v; try reflexivity.
      * contradiction.
      * rewrite Hlabels. reflexivity.
    + destruct v; reflexivity.
  - unfold objectToRow, mappedProperties.
    pose proof (column_names_are_snake_case tableName) as Hsnake.
    induction Hsnake as [| [ts db] m Hm _ IH]; simpl; [reflexivity |].
    rewrite !map_app, IH. simpl in Hm. subst db.
    destruct (getProperty ts obj); reflexivity.
Qed.

(** * Sample runs of the further properties *)

Lemma unknown_post_is_left_alone_witness :
  find (fun p => String.eqb (Post.id p) "p9") (posts (sampleState [])) = None /\
  downloadPost (sampleWorld (crawlOf []) None) "p9" (sampleState [])
    = (Ok false, sampleState []).
Proof.
  split; [reflexivity |].
  apply (unknown_post_is_left_alone (sampleWorld (crawlOf []) None)
           (sampleState []) "p9"). reflexivity.
Defined.

Lemma download_status_counts_are_bounded_witness :
  find (fun p => String.eqb (Post.id p) "p1") (posts (sampleState []))
    = Some samplePost /\
  exists st,
    getDownloadStatus "p1" (sampleState []) = (Ok (Some st), sampleState []) /\
    mediaCompleted st + mediaFailed st <= mediaTotal st.
Proof.
  split; [reflexivity |].
  destruct (download_status_counts_are_bounded (sampleState []) "p1"
              samplePost eq_refl) as (st & Hrun & _ & _ & Hle).
  exists st. split; [exact Hrun | exact Hle].
Defined.




Lemma reanalyze_returns_the_stored_result_witness :
  find (fun a => String.eqb (AIResult.postId a) "p1")
    (aiResults analyzedState) = Some sampleResult /\
  reanalyzePost (sampleWorld (crawlOf []) None) "p1" analyzedState =
    (Ok (mkAnalysisServiceResult true (Some sampleResult) None),
     analyzedState).
Proof.
  split; [reflexivity |].
  destruct (reanalyze_returns_the_stored_result
              (sampleWorld (crawlOf []) None) (sampleWorld (crawlOf []) None)
              "p1" analyzedState) as [H _].
  apply H. reflexivity.
Defined.

Lemma media_paths_do_not_collide_witness :
  getMediaPath (sampleWorld (crawlOf []) None) "p1" 0 image =
  getMediaPath (sampleWorld (crawlOf []) None) "p1" 0 image /\
  ("p1"%string = "p1"%string /\ 0 = 0 /\ image = image).
Proof.
  split; [reflexivity |].
  apply (media_paths_do_not_collide (sampleWorld (crawlOf []) None)
           "p1" "p1" 0 0 image image). reflexivity.
Defined.

Lemma post_in_flight_can_be_queued_again_witness :
  let s := runScheduler [Enqueue "a" 0 10] in
  let item := mkQueueItem "a" 0 10 in
  awaiting s = Some item /\
  ~ In "a"%string (map qi_postId (downloadQueue s)) /\
  In (mkQueueItem "a" 1 20) (downloadQueue (queueDownload "a" 1 20 s)).
Proof.
  intros s item.
  assert (Hout : ~ In "a"%string (map qi_postId (downloadQueue s)))
    by (intros H; exact H).
  split; [reflexivity |]. split; [exact Hout |].
  destruct (post_in_flight_can_be_queued_again [Enqueue "a" 0 10] item 1 20
              eq_refl Hout) as (_ & Hin & _).
  exact Hin.
Defined.


Lemma throwing_listener_leaves_post_downloading_witness :
  let s := sampleState [quietListener; throwingListener; lateListener] in
  exists s',
    downloadPost (sampleWorld (crawlOf []) None) "p1" s
      = (Throw "listener failed", s') /\
    postStatus "p1" s' = Some post_downloading /\
    calls s' = calls s.
Proof.
  intros s.
  destruct (throwing_listener_leaves_post_downloading
              (sampleWorld (crawlOf []) None) s "p1" samplePost
              [quietListener] [lateListener] throwingListener
              "listener failed" eq_refl eq_refl
              (fun l' (H : In l' [quietListener]) =>
                 match H with
                 | or_introl E =>
                     eq_ind quietListener
                       (fun l => onNotify l
                                   (mkNotification "p1" 0%float
                                      post_downloading) = None)
                       eq_refl l' E
                 | or_intror F => match F with end
                 end)
              eq_refl)
    as (s' & Hrun & Hst & Hcalls & _).
  exists s'. repeat split; assumption.
Defined.

Lemma created_media_end_in_a_final_status_witness :
  quiet (sampleState [quietListener]) /\
  exists s',
    downloadPost (sampleWorld (crawlOf [sampleVideo; sampleImage]) None) "p1"
      (sampleState [quietListener]) = (Ok true, s') /\
    Forall
      (fun row =>
         Media.localPath row <> None <->
         Media.downloadStatus row = media_completed)
      (createdMedia (sampleState [quietListener]) s').
Proof.
  split; [exact sampleState_quiet |].
  destruct (created_media_end_in_a_final_status
              (sampleWorld (crawlOf [sampleVideo; sampleImage]) None)
              (sampleState [quietListener]) "p1" samplePost
              (contentWith [sampleVideo; sampleImage])
              sampleState_quiet eq_refl eq_refl) as (s' & Hrun & Hall).
  exists s'. split; [exact Hrun |].
  eapply Forall_impl; [| exact Hall]. intros row [_ H]. exact H.
Defined.

Lemma video_is_skipped_witness :
  quiet (sampleState [quietListener]) /\
  exists s' row,
    downloadPost (sampleWorld (crawlOf [sampleVideo]) (Some NaN)) "p1"
      (sampleState [quietListener]) = (Ok true, s') /\
    nth_error (createdMedia (sampleState [quietListener]) s') 0 = Some row /\
    Media.downloadStatus row = media_skipped.
Proof.
  split; [exact sampleState_quiet |].
  destruct (video_is_skipped_exactly_when_probe_is_not_within_limit
              (sampleWorld (crawlOf [sampleVideo]) (Some NaN))
              (sampleState [quietListener]) "p1" samplePost
              (contentWith [sampleVideo]) 0 sampleVideo
              sampleState_quiet eq_refl eq_refl eq_refl)
    as (s' & row & Hrun & Hrow & Hskip).
  exists s', row. split; [exact Hrun |]. split; [exact Hrow |].
  apply Hskip. split; [reflexivity | exact I].
Defined.

Lemma posts_keep_unique_ids_and_hashes_witness :
  uniquePosts (sampleState []) /\
  uniquePosts
    (snd (processUrl (sampleWorld (crawlOf []) None) "p2"
            "https://xhslink.com/abc" "hash-2" (sampleState []))).
Proof.
  assert (H : uniquePosts (sampleState [])).
  { split; (constructor; [intros [] | constructor]). }
  split; [exact H |].
  apply (posts_keep_unique_ids_and_hashes (sampleWorld (crawlOf []) None)
           (fun _ => Throw "unused") "p2" "https://xhslink.com/abc" "hash-2"
           "p1" (sampleState []) H).
Defined.

Lemma builders_bind_one_value_per_placeholder_witness :
  countChar "?" "posts" = 0 /\
  Forall (fun e => countChar "?" (fst e) = 0) samplePostRow /\
  countChar "?" (fst (buildUpdateStatement "posts" "p1" samplePostRow)) = 3 /\
  fst (buildInsertStatement "posts" samplePostRow) =
    "INSERT INTO posts (id, url_hash) VALUES (?, ?)"%string.
Proof.
  assert (H : Forall (fun e => countChar "?" (fst e) = 0) samplePostRow)
    by (repeat constructor).
  split; [reflexivity |]. split; [exact H |].
  destruct (builders_bind_one_value_per_placeholder "posts" "p1"
              samplePostRow eq_refl H) as (_ & _ & Hupdate & _).
  split; [exact Hupdate | reflexivity].
Defined.

Lemma row_conversion_round_trip_witness :
  let stringify := fun _ : list JsValue => "[]"%string in
  let parse := fun _ : string => Some (JsArray []) in
  labelsRoundTrip stringify parse samplePostObject /\
  rowToObject parse (objectToRow stringify samplePostObject table_posts)
    table_posts =
    [("id"%string, JsString "p1");
     ("urlHash"%string, JsString "hash-abc123")].
Proof.
  intros stringify parse. split; [exact I |].
  destruct (row_conversion_round_trip stringify parse samplePostObject
              table_posts I) as [Hback _].
  exact Hback.
Defined.
